(** * Text layout and pagination: the vendored @react-pdf engine

    A shallow embedding of the parts of [textkit.js] (attributed strings,
    run flattening, the Knuth and Plass line breaker with its best-fit
    fallback, the justification engine) and of the pagination code of the
    layout bundle (text splitting under orphan and widow rules, node
    splitting across pages), with the properties stated for them.

    Conventions.  JavaScript numbers are modelled by exact rationals [Q];
    a value that may be [undefined] is an [option]; character offsets and
    indices that the code subtracts are in [Z]; strings are lists of
    UTF-16 code units. *)

From Stdlib Require Import QArith Qabs Qround ZArith NArith Lia Lqa List Ascii
  String.
From stdpp Require Import base list gmap strings sorting.

Set Warnings "-register-all".

Local Open Scope Q_scope.

(** ** JavaScript number helpers *)

(** [a < b] on numbers. *)
Definition Qltb (a b : Q) : bool := negb (Qle_bool b a).

(** [a <= b] on numbers. *)
Definition Qleb (a b : Q) : bool := Qle_bool a b.

(** [x || d] on a number that may be missing: [undefined] and [0] are
    falsy. *)
Definition num_or (x : option Q) (d : Q) : Q :=
  match x with
  | Some q => if Qeq_bool q 0 then d else q
  | None => d
  end.

(** [x || d] on a count that may be missing. *)
Definition nat_or (x : option nat) (d : nat) : nat :=
  match x with
  | Some O => d
  | Some n => n
  | None => d
  end.

(** * Pagination (layout bundle) *)

Module Layout.

(** Primitive node types ([P.View], [P.Text], ...). *)
Inductive NodeType :=
  | View | Text | Svg | Note | Image | Canvas | Link | TextInstance.

Definition NodeType_eqb (a b : NodeType) : bool :=
  match a, b with
  | View, View | Text, Text | Svg, Svg | Note, Note | Image, Image
  | Canvas, Canvas | Link, Link | TextInstance, TextInstance => true
  | _, _ => false
  end.

(** [node.props]: each field is [Some v] when the key is in the object. *)
Record Props := mkProps {
  fixed : option bool;
  wrap : option bool;
  break : option bool;
  minPresenceAhead : option Q;
  orphans : option nat;
  widows : option nat;
  bookmark : option string;
}.

(** [node.box]: the geometry resolved for the node. *)
Record Box := mkBox {
  top : Q;
  height : Q;
  marginTop : Q;
  marginBottom : Q;
  borderTopWidth : Q;
  borderBottomWidth : Q;
}.

(** [node.style]: the keys the splitting code reads or overwrites. *)
Record Style := mkStyle {
  s_height : option Q;
  s_marginTop : option Q;
  s_marginBottom : option Q;
  s_paddingTop : option Q;
  s_paddingBottom : option Q;
  s_borderTopWidth : option Q;
  s_borderBottomWidth : option Q;
  s_borderTopLeftRadius : option Q;
  s_borderTopRightRadius : option Q;
  s_borderBottomLeftRadius : option Q;
  s_borderBottomRightRadius : option Q;
}.

(** A laid out line of a text node: its box height and its text. *)
Record Line := mkLine {
  line_height : Q;
  line_text : string;
}.

(** A node of the box tree. *)
Inductive Node := mkNode {
  type : NodeType;
  props : Props;
  style : Style;
  box : Box;
  lines : list Line;
  children : list Node;
}.

Definition set_box (b : Box) (n : Node) : Node :=
  mkNode (type n) (props n) (style n) b (lines n) (children n).
Definition set_style (s : Style) (n : Node) : Node :=
  mkNode (type n) (props n) s (box n) (lines n) (children n).
Definition set_props (p : Props) (n : Node) : Node :=
  mkNode (type n) p (style n) (box n) (lines n) (children n).
Definition set_lines (l : list Line) (n : Node) : Node :=
  mkNode (type n) (props n) (style n) (box n) l (children n).
Definition set_children (c : list Node) (n : Node) : Node :=
  mkNode (type n) (props n) (style n) (box n) (lines n) c.

(** [isFixed]: ['fixed' in node.props ? node.props.fixed === true : false]. *)
Definition isFixed (node : Node) : bool :=
  match fixed (props node) with
  | Some b => b
  | None => false
  end.

(** [lineIndexAtHeight]: the first line that does not fit in [height]. *)
Fixpoint lineIndexAtHeight_from (ls : list Line) (height : Q) (y : Q) (i : nat)
  : nat :=
  match ls with
  | [] => i
  | line :: rest =>
      if Qltb height (y + line_height line) then i
      else lineIndexAtHeight_from rest height (y + line_height line) (S i)
  end.

Definition lineIndexAtHeight (node : Node) (height : Q) : nat :=
  lineIndexAtHeight_from (lines node) height 0 0.

(** [heightAtLineIndex]: the height of the first [index] lines. *)
Fixpoint heightAtLineIndex_from (ls : list Line) (index : nat) (counter : Q)
  : Q :=
  match index with
  | O => counter
  | S index' =>
      match ls with
      | [] => counter
      | line :: rest =>
          heightAtLineIndex_from rest index' (counter + line_height line)
      end
  end.

Definition heightAtLineIndex (node : Node) (index : nat) : Q :=
  heightAtLineIndex_from (lines node) index 0.

(** [node.box?.top || 0]. *)
Definition getTop (node : Node) : Q := num_or (Some (top (box node))) 0.

(** [getLineBreak]: the line index at which a text node is cut. *)
Definition getLineBreak (node : Node) (height : Q) : nat :=
  let top := getTop node in
  let widows := nat_or (widows (props node)) 2 in
  let orphans := nat_or (orphans (props node)) 2 in
  let linesQuantity := length (lines node) in
  let slicedLine := lineIndexAtHeight node (height - top) in
  if (slicedLine =? 0)%nat then 0%nat
  else if (linesQuantity <? orphans)%nat then linesQuantity
  else if ((slicedLine <? orphans) || (linesQuantity <? orphans + widows))%nat
       then 0%nat
  else if (linesQuantity =? orphans + widows)%nat then orphans
  else if (linesQuantity - slicedLine <? widows)%nat
       then (linesQuantity - widows)%nat
  else slicedLine.

(** The style of the fragment that stays: the bottom edge is cleared. *)
Definition clearBottom (s : Style) : Style :=
  mkStyle (s_height s) (s_marginTop s) (Some 0) (s_paddingTop s) (Some 0)
    (s_borderTopWidth s) (Some 0) (s_borderTopLeftRadius s)
    (s_borderTopRightRadius s) (Some 0) (Some 0).

(** The style of the fragment that moves: the top edge is cleared. *)
Definition clearTop (s : Style) : Style :=
  mkStyle (s_height s) (Some 0) (s_marginBottom s) (Some 0) (s_paddingBottom s)
    (Some 0) (s_borderBottomWidth s) (Some 0) (Some 0)
    (s_borderBottomLeftRadius s) (s_borderBottomRightRadius s).

Definition set_s_height (h : option Q) (s : Style) : Style :=
  mkStyle h (s_marginTop s) (s_marginBottom s) (s_paddingTop s)
    (s_paddingBottom s) (s_borderTopWidth s) (s_borderBottomWidth s)
    (s_borderTopLeftRadius s) (s_borderTopRightRadius s)
    (s_borderBottomLeftRadius s) (s_borderBottomRightRadius s).

(** [splitText]: cut a text node at the line given by [getLineBreak]. *)
Definition splitText (node : Node) (height : Q) : Node * Node :=
  let slicedLineIndex := getLineBreak node height in
  let currentHeight := heightAtLineIndex node slicedLineIndex in
  let nextHeight := Layout.height (box node) - currentHeight in
  let b := box node in
  let current :=
    mkNode (type node) (props node) (clearBottom (style node))
      (mkBox (top b) currentHeight (marginTop b) (marginBottom b)
         (borderTopWidth b) 0)
      (take slicedLineIndex (lines node)) (children node) in
  let next :=
    mkNode (type node) (props node) (clearTop (style node))
      (mkBox 0 nextHeight (marginTop b) (marginBottom b) 0
         (borderBottomWidth b))
      (drop slicedLineIndex (lines node)) (children node) in
  (current, next).

(** [hasFixedHeight]: [!isNil(node.style?.height)]. *)
Definition hasFixedHeight (node : Node) : bool :=
  match s_height (style node) with Some _ => true | None => false end.

(** [splitNode]: the two shells of a split container (children are set by
    [splitView]). *)
Definition splitNode (node : Node) (height : Q) : Node * Node :=
  let nodeTop := getTop node in
  let b := box node in
  let current :=
    mkNode (type node) (props node)
      (set_s_height (Some (height - nodeTop)) (clearBottom (style node)))
      (mkBox (top b) (Layout.height b) (marginTop b) (marginBottom b)
         (borderTopWidth b) 0)
      (lines node) (children node) in
  let nextHeight :=
    if hasFixedHeight node
    then Some (Layout.height b - (height - nodeTop)) else None in
  let nextStyle :=
    match nextHeight with
    | Some h =>
        if Qeq_bool h 0 then clearTop (style node)
        else set_s_height (Some h) (clearTop (style node))
    | None => clearTop (style node)
    end in
  let next :=
    mkNode (type node) (props node) nextStyle
      (mkBox 0 (Layout.height b) (marginTop b) (marginBottom b) 0
         (borderBottomWidth b))
      (lines node) (children node) in
  (current, next).

(** [getWrap]: images, notes, svg and canvas never wrap. *)
Definition getWrap (node : Node) : bool :=
  match type node with
  | Svg | Note | Image | Canvas => false
  | _ => match wrap (props node) with Some b => b | None => true end
  end.

Definition getBreak (node : Node) : bool :=
  match break (props node) with Some b => b | None => false end.

Definition getMinPresenceAhead (node : Node) : Q :=
  match minPresenceAhead (props node) with Some q => q | None => 0 end.

(** ['fixed' in node.props]. *)
Definition hasFixedKey (node : Node) : bool :=
  match fixed (props node) with Some _ => true | None => false end.

(** [getFurthestEnd]: [Math.max] over the ends; [None] is [-Infinity]. *)
Definition getFurthestEnd (elements : list Node) : option Q :=
  fold_left
    (fun acc node =>
       let e := top (box node) + height (box node) in
       match acc with
       | None => Some e
       | Some m => Some (if Qltb m e then e else m)
       end)
    elements None.

Definition getEndOfMinPresenceAhead (child : Node) : Q :=
  top (box child) + height (box child) + marginBottom (box child)
  + getMinPresenceAhead child.

(** [getEndOfPresence]: [Math.min] of the two ends. *)
Definition getEndOfPresence (child : Node) (futureElements : list Node)
  : option Q :=
  let afterMinPresenceAhead := getEndOfMinPresenceAhead child in
  let endOfFurthestFutureElement :=
    getFurthestEnd (List.filter (fun n => negb (hasFixedKey n)) futureElements) in
  match endOfFurthestFutureElement with
  | None => None
  | Some e =>
      Some (if Qltb e afterMinPresenceAhead then e else afterMinPresenceAhead)
  end.

(** [shouldBreak]: whether the child is better moved to the next page. *)
Definition shouldBreak (child : Node) (futureElements : list Node) (height : Q)
  : bool :=
  if hasFixedKey child then false
  else
    let shouldSplit :=
      Qltb height (top (box child) + Layout.height (box child)) in
    let canWrap := getWrap child in
    let endOfPresence := getEndOfPresence child futureElements in
    let breakingImprovesPresence :=
      Qltb (marginTop (box child)) (top (box child)) in
    getBreak child
    || (shouldSplit && negb canWrap)
    || (negb shouldSplit
        && match endOfPresence with
           | Some e => Qltb height e
           | None => false
           end
        && breakingImprovesPresence).

Definition SAFETY_THRESHOLD : Q := 0.001.

Definition isText (node : Node) : bool := NodeType_eqb (type node) Text.

(** The child moved whole to the next page: its top is made relative to
    the page cut. *)
Definition moveDown (height : Q) (child : Node) : Node :=
  let b := box child in
  set_box (mkBox (top b - height) (Layout.height b) (marginTop b)
             (marginBottom b) (borderTopWidth b) (borderBottomWidth b))
    child.

(** The props of a child moved by a break: [wrap: true, break: false]. *)
Definition breakProps (p : Props) : Props :=
  mkProps (fixed p) (Some true) (Some false) (minPresenceAhead p) (orphans p)
    (widows p) (bookmark p).

(** [splitNodes], with the function that splits one child as a parameter:
    the loop over [nodes] with its two output arrays. *)
Definition splitNodes_with (split : Node -> Q -> Q -> Node * Node)
    (height contentArea : Q)
  : list Node -> list Node -> list Node -> list Node * list Node :=
  fix go (nodes currentChildren nextChildren : list Node) :=
    match nodes with
    | [] => (currentChildren, nextChildren)
    | child :: futureNodes =>
        let futureFixedNodes := List.filter isFixed futureNodes in
        let nodeTop := getTop child in
        let nodeHeight := Layout.height (box child) in
        let isOutside := Qleb height nodeTop in
        let shouldBreak1 := shouldBreak child futureNodes height in
        let shouldSplit :=
          Qltb (height + SAFETY_THRESHOLD) (nodeTop + nodeHeight) in
        let canWrap := getWrap child in
        let fitsInsidePage := Qleb nodeHeight contentArea in
        if isFixed child then
          go futureNodes (currentChildren ++ [child]) (nextChildren ++ [child])
        else if isOutside then
          go futureNodes currentChildren
            (nextChildren ++ [moveDown height child])
        else if negb fitsInsidePage && negb canWrap then
          (currentChildren ++ [child], nextChildren ++ futureNodes)
        else if shouldBreak1 then
          let next := set_props (breakProps (props child))
                        (moveDown height child) in
          (currentChildren ++ futureFixedNodes,
           nextChildren ++ next :: futureNodes)
        else if shouldSplit then
          let '(currentChild, nextChild) := split child height contentArea in
          if (0 <? length (children child))%nat
             && (length (children currentChild) =? 0)%nat
          then
            if (length currentChildren =? 0)%nat then
              (currentChildren ++ child :: futureFixedNodes,
               nextChildren ++ futureNodes)
            else
              (currentChildren ++ futureFixedNodes,
               nextChildren ++ moveDown height child :: futureNodes)
          else
            go futureNodes (currentChildren ++ [currentChild])
              (nextChildren ++ [nextChild])
        else
          go futureNodes (currentChildren ++ [child]) nextChildren
    end.

(** [split]: a text node is cut between lines ([splitText]); any other
    node is cut as a view ([splitView]: [splitNode] for the shells,
    [splitChildren] for the children). *)
Fixpoint split (node : Node) (height contentArea : Q) {struct node}
  : Node * Node :=
  if isText node then splitText node height
  else
    let '(currentNode, nextNode) := splitNode node height in
    let availableHeight := height - getTop node in
    let '(currentChilds, nextChildren) :=
      splitNodes_with split availableHeight contentArea (children node) [] []
    in
    (set_children currentChilds currentNode,
     set_children nextChildren nextNode).

Definition splitNodes (height contentArea : Q) (nodes : list Node)
  : list Node * list Node :=
  splitNodes_with split height contentArea nodes [] [].

Definition allFixed (nodes : list Node) : bool := forallb isFixed nodes.

(** *** Pages *)

Record PageProps := mkPageProps {
  page_wrap : option bool;
  page_bookmark : option string;
}.

(** [page.box]; [height] is dropped from the box of a continuation page. *)
Record PageBox := mkPageBox {
  pb_height : option Q;
  pb_paddingTop : option Q;
  pb_paddingBottom : option Q;
}.

Record PageStyle := mkPageStyle {
  ps_height : Q;
  ps_paddingTop : option Q;
  ps_paddingBottom : option Q;
}.

(** A page: the root given to [splitPage].  [page_yogaPadding] holds the
    paddings computed by the geometry solver while its handle is attached
    to the page (top, bottom). *)
Record PageNode := mkPage {
  page_props : PageProps;
  page_style : PageStyle;
  page_box : PageBox;
  page_yogaPadding : option (Q * Q);
  page_children : list Node;
}.

(** [a || b || c || 0] as [getPadding] writes it. *)
Definition padding_or (computed boxed styled : option Q) : Q :=
  num_or computed (num_or boxed (num_or styled 0)).

Definition getPaddingTop (page : PageNode) : Q :=
  padding_or (fst <$> page_yogaPadding page) (pb_paddingTop (page_box page))
    (ps_paddingTop (page_style page)).

Definition getPaddingBottom (page : PageNode) : Q :=
  padding_or (snd <$> page_yogaPadding page)
    (pb_paddingBottom (page_box page)) (ps_paddingBottom (page_style page)).

Definition getWrapArea (page : PageNode) : Q :=
  ps_height (page_style page) - getPaddingBottom page.

Definition getContentArea (page : PageNode) : Q :=
  ps_height (page_style page) - getPaddingBottom page - getPaddingTop page.

Section Pagination.

(** The collaborators of pagination: the relayout of a page (style,
    inheritance, geometry solver, text layout) and the evaluation of the
    render callbacks of dynamic nodes for a page number. *)
Variable relayoutPage : PageNode -> PageNode.
Variable resolveDynamicPage : nat -> PageNode -> PageNode.

(** The children [splitPage] assigns to the next page. *)
Definition nextChildsOf (page : PageNode) (pageNumber : nat) : list Node :=
  snd (splitNodes (getWrapArea page) (getContentArea page)
         (page_children (resolveDynamicPage pageNumber page))).

(** [splitPage]: the page that stays and, unless nothing but fixed nodes
    would be on it, the continuation page. *)
Definition splitPage (page : PageNode) (pageNumber : nat)
  : PageNode * option PageNode :=
  let wrapArea := getWrapArea page in
  let contentArea := getContentArea page in
  let dynamicPage := resolveDynamicPage pageNumber page in
  let height := ps_height (page_style page) in
  let '(currentChilds, nextChilds) :=
    splitNodes wrapArea contentArea (page_children dynamicPage) in
  let currentBox :=
    mkPageBox (Some height) (pb_paddingTop (page_box page))
      (pb_paddingBottom (page_box page)) in
  let currentPage :=
    relayoutPage
      (mkPage (page_props page) (page_style page) currentBox
         (page_yogaPadding page) currentChilds) in
  if (length nextChilds =? 0)%nat || allFixed nextChilds
  then (currentPage, None)
  else
    let nextBox :=
      mkPageBox None (pb_paddingTop (page_box page))
        (pb_paddingBottom (page_box page)) in
    let nextProps := mkPageProps (page_wrap (page_props page)) None in
    let nextPage :=
      relayoutPage
        (mkPage nextProps (page_style page) nextBox (page_yogaPadding page)
           nextChilds) in
    (currentPage, Some nextPage).

(** The [while (nextPage !== null)] loop of [paginate]; [None] when the
    fuel runs out before the loop ends. *)
Fixpoint paginate_loop (fuel : nat) (pageNumber : nat)
    (pages : list PageNode) (nextPage : option PageNode)
  : option (list PageNode) :=
  match nextPage with
  | None => Some pages
  | Some np =>
      match fuel with
      | O => None
      | S fuel' =>
          let splittedPage := splitPage np (pageNumber + length pages) in
          paginate_loop fuel' pageNumber (pages ++ [fst splittedPage])
            (snd splittedPage)
      end
  end.

(** [paginate]: the pages a source page is split into. *)
Definition paginate (fuel : nat) (page : option PageNode) (pageNumber : nat)
  : option (list PageNode) :=
  match page with
  | None => Some []
  | Some page =>
      match page_wrap (page_props page) with
      | Some false => Some [page]
      | _ =>
          let splittedPage := splitPage page pageNumber in
          paginate_loop fuel pageNumber [fst splittedPage] (snd splittedPage)
      end
  end.

End Pagination.

(** *** Worked examples *)

(** The node of the worked example: five lines of height 10, orphans and
    widows 2. *)
Definition plainStyle : Style :=
  mkStyle None None None None None None None None None None None.

Definition textProps : Props :=
  mkProps None None None None (Some 2%nat) (Some 2%nat) None.

Definition fiveLines : Node :=
  mkNode Text textProps plainStyle (mkBox 0 50 0 0 0 0)
    [mkLine 10 "l0"; mkLine 10 "l1"; mkLine 10 "l2"; mkLine 10 "l3";
     mkLine 10 "l4"]
    [].

(** An image taller than the page, which cannot wrap, followed by a fixed
    footer. *)
Definition noProps : Props := mkProps None None None None None None None.

Definition fixedProps : Props :=
  mkProps (Some true) None None None None None None.

Definition bigImage : Node :=
  mkNode Image noProps plainStyle (mkBox 0 200 0 0 0 0) [] [].

Definition footer : Node :=
  mkNode View fixedProps plainStyle (mkBox 90 10 0 0 0 0) [] [].

(** A page whose only children are a fixed header and a fixed footer. *)
Definition header : Node :=
  mkNode View fixedProps plainStyle (mkBox 0 10 0 0 0 0) [] [].

Definition fixedOnlyPage : PageNode :=
  mkPage (mkPageProps None None) (mkPageStyle 100 None None)
    (mkPageBox (Some 100) None None) None [header; footer].

End Layout.

(** * Attributed strings and line breaking ([textkit.js]) *)

Module Textkit.

(** ** JavaScript arrays and strings *)

(** A number used as an index: an integer or [Infinity]. *)
Inductive Idx :=
  | Fin (z : Z)
  | Infinity.

(** The relative index of [Array.prototype.slice]: negative indices count
    from the end, and the result is clamped to [0, len]. *)
Definition rel_index (len : Z) (i : Idx) : Z :=
  match i with
  | Infinity => len
  | Fin z => if (z <? 0)%Z then Z.max (len + z) 0 else Z.min z len
  end.

(** [array.slice(s, e)] and [string.slice(s, e)]. *)
Definition js_slice {A : Type} (s : Z) (e : Idx) (l : list A) : list A :=
  let len := Z.of_nat (length l) in
  let k := rel_index len (Fin s) in
  let final := rel_index len e in
  take (Z.to_nat (final - k)) (drop (Z.to_nat k) l).

(** [array[i]]: [undefined] out of range. *)
Definition js_nth {A : Type} (l : list A) (i : Idx) : option A :=
  match i with
  | Fin z => if (z <? 0)%Z then None else l !! Z.to_nat z
  | Infinity => None
  end.

(** [array.findIndex(p)]: [-1] when no element satisfies [p]. *)
Fixpoint findIndex_from {A : Type} (p : A -> bool) (l : list A) (i : Z) : Z :=
  match l with
  | [] => (-1)%Z
  | x :: rest => if p x then i else findIndex_from p rest (i + 1)%Z
  end.

Definition findIndex {A : Type} (p : A -> bool) (l : list A) : Z :=
  findIndex_from p l 0.

(** A stable sort by a comparator ([Array.prototype.sort]): an element is
    put before the first one it does not compare greater than. *)
Fixpoint sort_insert {A : Type} (cmp : A -> A -> Z) (x : A) (l : list A)
  : list A :=
  match l with
  | [] => [x]
  | y :: rest =>
      if (cmp x y <=? 0)%Z then x :: y :: rest
      else y :: sort_insert cmp x rest
  end.

Definition js_sort {A : Type} (cmp : A -> A -> Z) (l : list A) : list A :=
  foldr (sort_insert cmp) [] l.

(** A string: its UTF-16 code units. *)
Definition jsstring := list N.

(** The code units of a Rocq string (one per byte), for examples. *)
Fixpoint str (s : string) : jsstring :=
  match s with
  | EmptyString => []
  | String c rest => N_of_ascii c :: str rest
  end.

(** White space and line terminators: what [trim] strips and what [\s]
    matches. *)
Definition isSpaceUnit (c : N) : bool :=
  ((9 <=? c) && (c <=? 13) || (c =? 32) || (c =? 160) || (c =? 5760)
   || (8192 <=? c) && (c <=? 8202) || (c =? 8232) || (c =? 8233)
   || (c =? 8239) || (c =? 8287) || (c =? 12288) || (c =? 65279))%N.

(** [s.trim() === '']. *)
Definition isBlank (s : jsstring) : bool := forallb isSpaceUnit s.

(** [String.fromCodePoint]: a code point above the basic plane gives a
    surrogate pair. *)
Definition unitsOfCodePoint (cp : N) : jsstring :=
  (if cp <? 65536 then [cp]
   else [55296 + (cp - 65536) / 1024; 56320 + (cp - 65536) mod 1024])%N.

Definition stringFromCodePoints (codePoints : list N) : jsstring :=
  concat (map unitsOfCodePoint codePoints).

(** ** Glyphs, fonts, runs *)

Record Glyph := mkGlyph {
  glyph_id : Z;
  codePoints : list N;
  advanceWidth : Q;
  isLigature : bool;
  isMark : bool;
}.

Record Position := mkPosition {
  xAdvance : Q;
  yAdvance : Q;
  xOffset : Q;
  yOffset : Q;
}.

(** The shaping collaborator: what the run algebra calls on a font. *)
Record Font := mkFont {
  layout : jsstring -> list Glyph;
  glyphForCodePoint : N -> Glyph;
  unitsPerEm : Q;
}.

(** The value of an attribute. *)
Inductive AttrValue :=
  | ANum (q : Q)
  | AStr (s : string)
  | ABool (b : bool)
  | AFont (fonts : list Font)
  | ANull.

(** [run.attributes]: an object from attribute names to values. *)
Abbreviation Attrs := (gmap string AttrValue).

(** [Object.assign({}, a, b)]: the keys of [b] override those of [a]. *)
Definition assign (a b : Attrs) : Attrs := b ∪ a.

Record Run := mkRun {
  start : Z;
  end_ : Z;
  attributes : Attrs;
  glyphIndices : option (list Z);
  glyphs : option (list Glyph);
  positions : option (list Position);
}.

(** A rectangle: the [box] of a laid out line. *)
Record Rect := mkRect {
  rect_x : Q;
  rect_y : Q;
  rect_width : Q;
  rect_height : Q;
}.

Record AttributedString := mkAttributedString {
  string_ : jsstring;
  runs : list Run;
  syllables : option (list jsstring);
  box : option Rect;
}.

(** [x || []]. *)
Definition or_nil {A : Type} (x : option (list A)) : list A :=
  match x with Some l => l | None => [] end.

Definition attr_num (a : Attrs) (k : string) : option Q :=
  match a !! k with Some (ANum q) => Some q | _ => None end.

Definition attr_str (a : Attrs) (k : string) : option string :=
  match a !! k with Some (AStr s) => Some s | _ => None end.

(** [run.attributes?.font?.[0] || null]. *)
Definition getFont (run : Run) : option Font :=
  match attributes run !! "font"%string with
  | Some (AFont (f :: _)) => Some f
  | _ => None
  end.

(** [calculateScale]: [fontSize / unitsPerEm], or [0] without a font. *)
Definition calculateScale (run : Run) : Q :=
  let fontSize := num_or (attr_num (attributes run) "fontSize") 12 in
  match getFont run with
  | Some font =>
      if Qeq_bool (unitsPerEm font) 0 then 0 else fontSize / unitsPerEm font
  | None => 0
  end.

(** [scale]: [run.attributes?.scale || calculateScale(run)]. *)
Definition scale (run : Run) : Q :=
  num_or (attr_num (attributes run) "scale") (calculateScale run).

(** [offset]: the rank of the character [index] inside its ligature. *)
Definition offset (index : Idx) (run : Run) : Z :=
  let glyphIndices := or_nil (glyphIndices run) in
  match js_nth glyphIndices index with
  | Some value =>
      Z.of_nat
        (length (List.filter (fun i => (i =? value)%Z)
                   (js_slice 0 index glyphIndices)))
  | None => 0%Z
  end.

(** [slice$2]: the part of a glyph between two code point indices; a
    ligature cut inside is shaped again from its code points. *)
Definition slice2 (start : Z) (e : Idx) (font : option Font)
    (glyph : option Glyph) : list Glyph :=
  match glyph with
  | None => []
  | Some glyph =>
      let whole :=
        match e with
        | Fin z => (start =? 0)%Z && (z =? Z.of_nat (length (codePoints glyph)))%Z
        | Infinity => false
        end in
      let same := match e with Fin z => (start =? z)%Z | Infinity => false end in
      if same then []
      else if whole then [glyph]
      else
        let codePoints := js_slice start e (codePoints glyph) in
        let string := stringFromCodePoints codePoints in
        match font with
        | Some font => layout font string
        | None => [glyph]
        end
  end.

(** [glyphIndexAt]: the glyph index of a string index, or the string
    index itself when the run has no glyph index for it. *)
Definition glyphIndexAt (index : Idx) (run : Run) : Idx :=
  match glyphIndices run with
  | Some gi =>
      match js_nth gi index with
      | Some result => Fin result
      | None => index
      end
  | None => index
  end.

(** [normalize]: shift the values so that the first one is zero. *)
Definition normalize (array : list Z) : list Z :=
  match array with
  | [] => []
  | head :: _ => map (fun value => (value - head)%Z) array
  end.

Definition glyphPosition (runScale : Q) (g : Glyph) : Position :=
  mkPosition (advanceWidth g * runScale) 0 0 0.

(** [Math.min(run.end, run.start + end)]. *)
Definition min_end (run_end : Z) (run_start : Z) (e : Idx) : Z :=
  match e with
  | Fin z => Z.min run_end (run_start + z)
  | Infinity => run_end
  end.

(** [slice$1]: the run between two string indices relative to it. *)
Definition slice1 (start : Z) (e : Idx) (run : Run) : Run :=
  let runScale := scale run in
  let font := getFont run in
  let startIndex := glyphIndexAt (Fin start) run in
  let endIndex := glyphIndexAt e run in
  let startGlyph := js_nth (or_nil (glyphs run)) startIndex in
  let endGlyph := js_nth (or_nil (glyphs run)) endIndex in
  let startOffset := offset (Fin start) run in
  let startGlyphs :=
    if (0 <? startOffset)%Z then slice2 startOffset Infinity font startGlyph
    else [] in
  let endOffset := offset e run in
  let endGlyphs := slice2 0 (Fin endOffset) font endGlyph in
  let sliceStart :=
    match startIndex with
    | Fin z => (z + Z.min 1 startOffset)%Z
    | Infinity => 0%Z
    end in
  let glyphs' := js_slice sliceStart endIndex (or_nil (glyphs run)) in
  let startPositions := map (glyphPosition runScale) startGlyphs in
  let positions' := js_slice sliceStart endIndex (or_nil (positions run)) in
  let endPositions := map (glyphPosition runScale) endGlyphs in
  mkRun (Textkit.start run + start)
    (min_end (end_ run) (Textkit.start run) e)
    (attributes run)
    (Some (normalize (js_slice start e (or_nil (glyphIndices run)))))
    (Some (startGlyphs ++ glyphs' ++ endGlyphs))
    (Some (startPositions ++ positions' ++ endPositions)).

(** [runIndexAt$1]: the index of the run that contains a string index. *)
Definition runIndexAt1 (index : Z) (runs : list Run) : Z :=
  findIndex (fun run => (Textkit.start run <=? index)%Z && (index <? end_ run)%Z)
    runs.

(** [filter]: the runs that meet the range. *)
Definition filter (start e : Z) (runs : list Run) : list Run :=
  let startIndex := runIndexAt1 start runs in
  let endIndex := Z.max (runIndexAt1 (e - 1) runs) startIndex in
  js_slice startIndex (Fin (endIndex + 1)) runs.

Definition subtract (index : Z) (run : Run) : Run :=
  mkRun (start run - index) (end_ run - index) (attributes run)
    (glyphIndices run) (glyphs run) (positions run).

Definition add (index : Z) (run : Run) : Run :=
  mkRun (start run + index) (end_ run + index) (attributes run)
    (glyphIndices run) (glyphs run) (positions run).

(** [sliceRuns]: the first and the last run are cut, every run is made
    relative to [start]. *)
Definition sliceRuns (start e : Z) (runs : list Run) : list Run :=
  imap
    (fun i run =>
       let isFirst := (i =? 0)%nat in
       let isLast := negb isFirst && (i =? length runs - 1)%nat in
       let result :=
         if isFirst
         then slice1 (start - Textkit.start run) (Fin (e - Textkit.start run)) run
         else run in
       let result :=
         if isLast then slice1 0 (Fin (e - Textkit.start run)) run else result in
       subtract start result)
    runs.

(** [slice]: the attributed string between two string indices. *)
Definition slice (start e : Z) (attributedString : AttributedString)
  : AttributedString :=
  if (length (string_ attributedString) =? 0)%nat then attributedString
  else
    let string := js_slice start (Fin e) (string_ attributedString) in
    let filteredRuns := filter start e (runs attributedString) in
    let slicedRuns := sliceRuns start e filteredRuns in
    mkAttributedString string slicedRuns (syllables attributedString)
      (box attributedString).

(** [findCharIndex]: the index of the first character that is not white
    space, or [-1]. *)
Definition findCharIndex (string : jsstring) : Z :=
  findIndex (fun c => negb (isSpaceUnit c)) string.

(** [findLastCharIndex]: the index of the last such character, or [-1]. *)
Definition findLastCharIndex (string : jsstring) : Z :=
  match findIndex (fun c => negb (isSpaceUnit c)) (rev string) with
  | (-1)%Z => (-1)%Z
  | k => (Z.of_nat (length string) - 1 - k)%Z
  end.

(** [trim]: strip white space from both ends. *)
Definition trim (attributedString : AttributedString) : AttributedString :=
  let start := findCharIndex (string_ attributedString) in
  let e := findLastCharIndex (string_ attributedString) in
  slice start (e + 1) attributedString.

(** [empty$1]: the empty run. *)
Definition empty1 : Run := mkRun 0 0 ∅ (Some []) (Some []) (Some []).

(** [empty]: the empty attributed string. *)
Definition empty : AttributedString := mkAttributedString [] [] None None.

(** A value given to [append] and [insertGlyph]: a code point, a glyph,
    or [null]. *)
Inductive GlyphOrCode :=
  | Code (n : N)
  | AGlyph (g : Glyph)
  | Null.

(** [appendIndices]. *)
Definition appendIndices (length : nat) (indices : list Z) : list Z :=
  let value :=
    match last indices with
    | Some lastIndex => (lastIndex + 1)%Z
    | None => 0%Z
    end in
  indices ++ replicate length value.

(** [fromCodePoint]: [font && value ? font.glyphForCodePoint(value) : null]. *)
Definition fromCodePoint (value : N) (font : option Font) : option Glyph :=
  match font with
  | Some font => if (value =? 0)%N then None else Some (glyphForCodePoint font value)
  | None => None
  end.

(** [appendGlyph]; [None] is the [TypeError] raised on a [null] glyph or
    on a run without glyph arrays. *)
Definition appendGlyph (glyph : option Glyph) (run : Run) : option Run :=
  match glyph, glyphs run, glyphIndices run with
  | Some glyph, Some runGlyphs, Some runIndices =>
      let glyphLength := length (codePoints glyph) in
      let e := (end_ run + Z.of_nat glyphLength)%Z in
      let glyphs' := runGlyphs ++ [glyph] in
      let glyphIndices' := appendIndices glyphLength runIndices in
      match positions run with
      | None =>
          Some (mkRun (start run) e (attributes run) (Some glyphIndices')
                  (Some glyphs') None)
      | Some runPositions =>
          let positions' :=
            runPositions ++ [mkPosition (advanceWidth glyph * scale run) 0 0 0]
          in
          Some (mkRun (start run) e (attributes run) (Some glyphIndices')
                  (Some glyphs') (Some positions'))
      end
  | _, _, _ => None
  end.

(** [!value]: [null] and the code point [0] are falsy. *)
Definition isFalsy (value : GlyphOrCode) : bool :=
  match value with
  | Null => true
  | Code n => (n =? 0)%N
  | AGlyph _ => false
  end.

(** A glyph or the glyph of a code point in the run's font. *)
Definition resolveGlyph (value : GlyphOrCode) (font : option Font)
  : option Glyph :=
  match value with
  | Code n => fromCodePoint n font
  | AGlyph g => Some g
  | Null => None
  end.

(** [append$1]: append a glyph or a code point to a run. *)
Definition append1 (value : GlyphOrCode) (run : Run) : option Run :=
  if isFalsy value then Some run
  else appendGlyph (resolveGlyph value (getFont run)) run.

(** [append]: append a glyph to the last run of an attributed string. *)
Definition append (glyph : GlyphOrCode) (attributedString : AttributedString)
  : option AttributedString :=
  let codePoints :=
    match glyph with
    | Code n => [n]
    | AGlyph g => Textkit.codePoints g
    | Null => []
    end in
  let codePointsString := stringFromCodePoints codePoints in
  let string := string_ attributedString ++ codePointsString in
  let firstRuns := js_slice 0 (Fin (-1)) (runs attributedString) in
  let lastRun :=
    match last (runs attributedString) with
    | Some r => r
    | None => empty1
    end in
  match append1 glyph lastRun with
  | Some r =>
      Some (mkAttributedString string (firstRuns ++ [r])
              (syllables attributedString) (box attributedString))
  | None => None
  end.

(** [length]: the length of a run. *)
Definition length_run (run : Run) : Z := (end_ run - start run)%Z.

(** [concat]: two runs into one. *)
Definition concat_run (runA runB : Run) : Run :=
  let e := (end_ runA + length_run runB)%Z in
  let glyphs' := or_nil (glyphs runA) ++ or_nil (glyphs runB) in
  let positions' := or_nil (positions runA) ++ or_nil (positions runB) in
  let attributes' := assign (attributes runA) (attributes runB) in
  let runAIndices := or_nil (glyphIndices runA) in
  let runALastIndex :=
    match last runAIndices with Some i => i | None => 0%Z end in
  let runBIndices :=
    map (fun i => (i + runALastIndex + 1)%Z) (or_nil (glyphIndices runB)) in
  let glyphIndices' := normalize (runAIndices ++ runBIndices) in
  mkRun (start runA) e attributes' (Some glyphIndices') (Some glyphs')
    (Some positions').

(** [insertGlyph$1]: cut the run at [index] and put the glyph between. *)
Definition insertGlyph1 (index : Z) (glyph : option Glyph) (run : Run)
  : option Run :=
  match glyph with
  | None => Some run
  | Some g =>
      let leadingRun := slice1 0 (Fin index) run in
      let trailingRun := slice1 index Infinity run in
      match append1 (AGlyph g) leadingRun with
      | Some r => Some (concat_run r trailingRun)
      | None => None
      end
  end.

(** [insert]: a glyph or a code point into a run. *)
Definition insert (index : Z) (value : GlyphOrCode) (run : Run) : option Run :=
  insertGlyph1 index (resolveGlyph value (getFont run)) run.

Definition runIndexAt (index : Z) (attributedString : AttributedString) : Z :=
  runIndexAt1 index (runs attributedString).

(** [mapM] over the runs with their index. *)
Fixpoint imapM_from {A B : Type} (f : nat -> A -> option B) (l : list A)
    (i : nat) : option (list B) :=
  match l with
  | [] => Some []
  | x :: rest =>
      match f i x, imapM_from f rest (S i) with
      | Some y, Some ys => Some (y :: ys)
      | _, _ => None
      end
  end.

(** [insertGlyph]: a code point into an attributed string at [index]; at
    the end of the runs it is appended. *)
Definition insertGlyph (index : Z) (glyph : N)
    (attributedString : AttributedString) : option AttributedString :=
  let runIndex := runIndexAt index attributedString in
  if (runIndex =? -1)%Z then append (Code glyph) attributedString
  else
    let codePoints := [glyph] in
    let string :=
      js_slice 0 (Fin index) (string_ attributedString)
      ++ stringFromCodePoints codePoints
      ++ js_slice index Infinity (string_ attributedString) in
    match
      imapM_from
        (fun i run =>
           if (Z.of_nat i =? runIndex)%Z
           then insert (index - start run) (Code glyph) run
           else if (runIndex <? Z.of_nat i)%Z
                then Some (add (Z.of_nat (length codePoints)) run)
                else Some run)
        (runs attributedString) 0
    with
    | Some runs' =>
        Some (mkAttributedString string runs' (syllables attributedString)
                (box attributedString))
    | None => None
    end.

(** [advanceWidth$2]: the sum of the advances. *)
Definition advanceWidth2 (positions : list Position) : Q :=
  fold_left (fun acc pos => acc + xAdvance pos) positions 0.

Definition advanceWidth1 (run : Run) : Q :=
  advanceWidth2 (or_nil (positions run)).

Definition advanceWidth_as (attributedString : AttributedString) : Q :=
  fold_left (fun acc run => acc + advanceWidth1 run) (runs attributedString) 0.

(** [Math.max(0, i)] on an index. *)
Definition max0 (i : Idx) : Idx :=
  match i with
  | Fin z => Fin (Z.max 0 z)
  | Infinity => Infinity
  end.

Definition idx_to_Z (i : Idx) : Z :=
  match i with Fin z => z | Infinity => 0%Z end.

(** [advanceWidthBetween$1]: the advance of a run between two string
    indices. *)
Definition advanceWidthBetween1 (start e : Z) (run : Run) : Q :=
  let runStart := Textkit.start run in
  let glyphStartIndex := max0 (glyphIndexAt (Fin (start - runStart)) run) in
  let glyphEndIndex := max0 (glyphIndexAt (Fin (e - runStart)) run) in
  advanceWidth2
    (js_slice (idx_to_Z glyphStartIndex) glyphEndIndex
       (or_nil (positions run))).

(** [advanceWidthBetween]: the advance between two string indices. *)
Definition advanceWidthBetween (start e : Z)
    (attributedString : AttributedString) : Q :=
  fold_left (fun acc run => acc + advanceWidthBetween1 start e run)
    (filter start e (runs attributedString)) 0.

(** ** Breakpoint nodes *)

(** A node of the stream given to the line breaker: a box (a word or a
    syllable), a glue (white space) or a penalty (a place where the line
    may be cut at a cost). *)
Inductive Node :=
  | Box (width : Q) (start e : Z) (hyphenated : bool)
  | Glue (width : Q) (start e : Z) (stretch shrink : Q)
  | Penalty (width penalty flagged : Q).

Definition isBox (n : Node) : bool :=
  match n with Box _ _ _ _ => true | _ => false end.
Definition isGlue (n : Node) : bool :=
  match n with Glue _ _ _ _ _ => true | _ => false end.
Definition isPenalty (n : Node) : bool :=
  match n with Penalty _ _ _ => true | _ => false end.

Definition node_width (n : Node) : Q :=
  match n with
  | Box w _ _ _ | Glue w _ _ _ _ | Penalty w _ _ => w
  end.

(** [node.end]: a penalty has none. *)
Definition node_end (n : Node) : option Z :=
  match n with
  | Box _ _ e _ | Glue _ _ e _ _ => Some e
  | Penalty _ _ _ => None
  end.

(** [linebreak.infinity] and [INFINITY]. *)
Definition infinity : Q := 10000.

(** Running totals of width, stretch and shrink. *)
Record Totals := mkTotals {
  t_width : Q;
  t_stretch : Q;
  t_shrink : Q;
}.

(** [widths[Math.min(lineNumber, widths.length - 1)]]. *)
Definition lineLengthAt (widths : list Q) (lineNumber : nat) : option Q :=
  match widths with
  | [] => None
  | _ => widths !! Nat.min lineNumber (length widths - 1)
  end.

(** [a > l] where [l] may be [undefined]: then it is false. *)
Definition gt_opt (a : Q) (l : option Q) : bool :=
  match l with Some l => Qltb l a | None => false end.

Definition lt_opt (a : Q) (l : option Q) : bool :=
  match l with Some l => Qltb a l | None => false end.

Definition Qcube (x : Q) : Q := x * x * x.
Definition Qsquare (x : Q) : Q := x * x.

(** ** Best fit *)

(** [calculateRatio] of [getNextBreakpoint]. *)
Definition calculateRatio (sum : Totals) (lineLength : option Q) (node : Node)
  : Q :=
  let stretch := match node with Glue _ _ _ st _ => Some st | _ => None end in
  let shrink := match node with Glue _ _ _ _ sh => Some sh | _ => None end in
  match lineLength with
  | None => 0
  | Some lineLength =>
      if Qltb (t_width sum) lineLength then
        match stretch with
        | None => infinity
        | Some stretch =>
            if Qeq_bool stretch 0 then infinity
            else if Qltb 0 (t_stretch sum - stretch)
                 then (lineLength - t_width sum) / t_stretch sum
                 else infinity
        end
      else if Qltb lineLength (t_width sum) then
        match shrink with
        | None => infinity
        | Some shrink =>
            if Qeq_bool shrink 0 then infinity
            else if Qltb 0 (t_shrink sum - shrink)
                 then (lineLength - t_width sum) / t_shrink sum
                 else infinity
        end
      else 0
  end.

(** The scan [while (j < subnodes.length && (glue || penalty)) j++]. *)
Fixpoint skipBreakable (l : list Node) (j : nat) : nat :=
  match l with
  | Glue _ _ _ _ _ :: rest | Penalty _ _ _ :: rest => skipBreakable rest (S j)
  | _ => j
  end.

(** The [for] loop of [getNextBreakpoint] from index [i] on, with the
    state [position], [minimumBadness] ([None] is [Infinity]) and [sum]. *)
Fixpoint getNextBreakpoint_from (rest : list Node) (i : nat)
    (lineLength : option Q) (position : option nat)
    (minimumBadness : option Q) (sum : Totals) : option nat :=
  match rest with
  | [] =>
      if gt_opt (t_width sum - t_shrink sum) lineLength then position else None
  | node :: tail =>
      let sum :=
        match node with
        | Box w _ _ _ => mkTotals (t_width sum + w) (t_stretch sum) (t_shrink sum)
        | Glue w _ _ st sh =>
            mkTotals (t_width sum + w) (t_stretch sum + st) (t_shrink sum + sh)
        | Penalty _ _ _ => sum
        end in
      if gt_opt (t_width sum - t_shrink sum) lineLength then
        match position with
        | None =>
            let j :=
              match i with
              | O => skipBreakable tail 1
              | _ => skipBreakable rest i
              end in
            Some (j - 1)%nat
        | Some p => Some p
        end
      else
        match node with
        | Box _ _ _ _ =>
            getNextBreakpoint_from tail (S i) lineLength position
              minimumBadness sum
        | _ =>
            let ratio := calculateRatio sum lineLength node in
            let penalty :=
              match node with Penalty _ p _ => p | _ => 0 end in
            let badness := 100 * Qcube (Qabs ratio) + penalty in
            let better :=
              match minimumBadness with
              | None => true
              | Some m => Qleb badness m
              end in
            if better
            then getNextBreakpoint_from tail (S i) lineLength (Some i)
                   (Some badness) sum
            else getNextBreakpoint_from tail (S i) lineLength position
                   minimumBadness sum
        end
  end.

(** [getNextBreakpoint]: the index in [subnodes] of the next break, or
    [null] when the rest fits the line. *)
Definition getNextBreakpoint (subnodes : list Node) (widths : list Q)
    (lineNumber : nat) : option nat :=
  getNextBreakpoint_from subnodes 0 (lineLengthAt widths lineNumber) None None
    (mkTotals 0 0 0).

(** The [while (subnodes.length > 0)] loop of [applyBestFit]; [None] when
    the fuel runs out. *)
Fixpoint applyBestFit_loop (fuel : nat) (subnodes : list Node)
    (widths : list Q) (count lineNumber : nat) (breakpoints : list nat)
  : option (list nat) :=
  match subnodes with
  | [] => Some breakpoints
  | _ =>
      match fuel with
      | O => None
      | S fuel' =>
          match getNextBreakpoint subnodes widths lineNumber with
          | Some breakpoint =>
              applyBestFit_loop fuel' (drop (breakpoint + 1) subnodes) widths
                (count + breakpoint + 1) (lineNumber + 1)
                (breakpoints ++ [(count + breakpoint)%nat])
          | None => Some breakpoints
          end
      end
  end.

(** [applyBestFit]: greedy breaks; every turn of the loop drops at least
    one node, so [length nodes] turns are enough. *)
Definition applyBestFit (nodes : list Node) (widths : list Q)
  : option (list nat) :=
  applyBestFit_loop (length nodes) nodes widths 0 0 [0%nat].

(** ** Knuth and Plass *)

(** A breakpoint of the active list ([breakpoint]); [previous] is the
    active node it was reached from. *)
Inductive Breakpoint := mkBreakpoint {
  position : nat;
  demerits : Q;
  line : nat;
  fitnessClass : nat;
  totals : Totals;
  previous : option Breakpoint;
}.

(** The line length of [computeCost]:
    [currentLine < lineLengths.length ? lineLengths[currentLine - 1]
     : lineLengths[lineLengths.length - 1]]. *)
Definition lineLengthOf (lineLengths : list Q) (currentLine : nat) : option Q :=
  if (currentLine <? length lineLengths)%nat
  then match currentLine with
       | O => None
       | S k => lineLengths !! k
       end
  else match length lineLengths with
       | O => None
       | S k => lineLengths !! k
       end.

(** [computeCost]: the adjustment ratio of the line from [active] to the
    node at [e]. *)
Definition computeCost (nodes : list Node) (lineLengths : list Q)
    (sum : Totals) (e : nat) (active : Breakpoint) (currentLine : nat) : Q :=
  let width := t_width sum - t_width (totals active) in
  let lineLength := lineLengthOf lineLengths currentLine in
  let width :=
    match nodes !! e with
    | Some (Penalty w _ _) => width + w
    | _ => width
    end in
  match lineLength with
  | None => 0
  | Some lineLength =>
      if Qltb width lineLength then
        let stretch := t_stretch sum - t_stretch (totals active) in
        if Qltb 0 stretch then (lineLength - width) / stretch else infinity
      else if Qltb lineLength width then
        let shrink := t_shrink sum - t_shrink (totals active) in
        if Qltb 0 shrink then (lineLength - width) / shrink else infinity
      else 0
  end.

(** The loop of [computeSum] over the nodes from [breakPointIndex] on;
    [first] tells whether the node is the one at [breakPointIndex]. *)
Fixpoint computeSum_from (rest : list Node) (first : bool) (result : Totals)
  : Totals :=
  match rest with
  | [] => result
  | node :: tail =>
      match node with
      | Glue w _ _ st sh =>
          computeSum_from tail false
            (mkTotals (t_width result + w) (t_stretch result + st)
               (t_shrink result + sh))
      | Box _ _ _ _ => result
      | Penalty _ p _ =>
          if Qeq_bool p (- infinity) && negb first then result
          else computeSum_from tail false result
      end
  end.

(** [computeSum]: the totals up to the next box or forced break. *)
Definition computeSum (nodes : list Node) (sum : Totals) (breakPointIndex : nat)
  : Totals :=
  computeSum_from (drop breakPointIndex nodes) true sum.

(** The best candidate of each of the four fitness classes: the active
    node and the demerits; [None] is [{ active: undefined, demerits:
    Infinity }]. *)
Abbreviation Candidates := (list (option (Breakpoint * Q))).

Definition noCandidates : Candidates := [None; None; None; None].

(** The demerits [line], [flagged] and [fitness] of [options.demerits]. *)
Definition demerits_line : Q := 10.
Definition demerits_flagged : Q := 100.
Definition demerits_fitness : Q := 3000.

Definition isForcedBreak (node : Node) : bool :=
  match node with
  | Penalty _ p _ => Qeq_bool p (- infinity)
  | _ => false
  end.

(** The fitness class of a ratio. *)
Definition fitnessClassOf (ratio : Q) : nat :=
  if Qltb ratio (-0.5) then 0%nat
  else if Qleb ratio 0.5 then 1%nat
  else if Qleb ratio 1 then 2%nat
  else 3%nat.

(** The total demerits of a break at [node] after [active], for a ratio
    in range. *)
Definition demeritsOf (nodes : list Node) (node : Node) (active : Breakpoint)
    (ratio : Q) : Q :=
  let badness := 100 * Qcube (Qabs ratio) in
  let base := Qsquare (demerits_line + badness) in
  let demerits :=
    match node with
    | Penalty _ p _ =>
        if Qleb 0 p then base + Qsquare p
        else if negb (Qeq_bool p (- infinity)) then base - Qsquare p
        else base
    | _ => base
    end in
  let demerits :=
    match node, nodes !! position active with
    | Penalty _ _ f, Some (Penalty _ _ f') =>
        demerits + demerits_flagged * f * f'
    | _, _ => demerits
    end in
  let currentClass := fitnessClassOf ratio in
  let demerits :=
    if (1 <? Z.abs (Z.of_nat currentClass - Z.of_nat (fitnessClass active)))%Z
    then demerits + demerits_fitness
    else demerits in
  demerits + Textkit.demerits active.

(** One active node seen by the inner loop: the candidates after it. *)
Definition considerActive (nodes : list Node) (node : Node) (tolerance : Q)
    (active : Breakpoint) (ratio : Q) (candidates : Candidates) : Candidates :=
  if Qleb (-1) ratio && Qleb ratio tolerance then
    let demerits := demeritsOf nodes node active ratio in
    let currentClass := fitnessClassOf ratio in
    match candidates !! currentClass with
    | Some (Some (_, best)) =>
        if Qltb demerits best
        then <[currentClass := Some (active, demerits)]> candidates
        else candidates
    | _ => <[currentClass := Some (active, demerits)]> candidates
    end
  else candidates.

(** The new active nodes made from the candidates of a line. *)
Fixpoint newActiveNodes_from (candidates : Candidates) (fitnessClass : nat)
    (index : nat) (tmpSum : Totals) : list Breakpoint :=
  match candidates with
  | [] => []
  | None :: rest => newActiveNodes_from rest (S fitnessClass) index tmpSum
  | Some (active, demerits) :: rest =>
      mkBreakpoint index demerits (line active + 1) fitnessClass tmpSum
        (Some active)
      :: newActiveNodes_from rest (S fitnessClass) index tmpSum
  end.

Definition newActiveNodes (candidates : Candidates) (index : nat)
    (tmpSum : Totals) : list Breakpoint :=
  newActiveNodes_from candidates 0 index tmpSum.

(** [mainLoop]: the active list after the node at [index] was tried as a
    break.  The active nodes are visited in order; a node is removed when
    the line from it is too long or the break is forced; when the next
    node belongs to a later line, or at the end of the list, the new
    active nodes of the line are put there and the candidates start
    afresh. *)
Fixpoint mainLoop_from (nodes : list Node) (lineLengths : list Q)
    (tolerance : Q) (sum : Totals) (node : Node) (index : nat)
    (actives : list Breakpoint) (candidates : Candidates)
  : list Breakpoint :=
  match actives with
  | [] => []
  | active :: rest =>
      let currentLine := (line active + 1)%nat in
      let ratio := computeCost nodes lineLengths sum index active currentLine in
      let kept :=
        if Qltb ratio (-1) || isForcedBreak node then [] else [active] in
      let candidates :=
        considerActive nodes node tolerance active ratio candidates in
      let tmpSum := computeSum nodes sum index in
      match rest with
      | [] => kept ++ newActiveNodes candidates index tmpSum
      | next :: _ =>
          if (currentLine <=? line next)%nat
          then kept ++ newActiveNodes candidates index tmpSum
               ++ mainLoop_from nodes lineLengths tolerance sum node index
                    rest noCandidates
          else kept
               ++ mainLoop_from nodes lineLengths tolerance sum node index
                    rest candidates
      end
  end.

Definition mainLoop (nodes : list Node) (lineLengths : list Q) (tolerance : Q)
    (sum : Totals) (node : Node) (index : nat) (actives : list Breakpoint)
  : list Breakpoint :=
  mainLoop_from nodes lineLengths tolerance sum node index actives noCandidates.

(** The [forEach] of [linebreak] over the nodes from [index] on. *)
Fixpoint linebreak_from (nodes : list Node) (lineLengths : list Q)
    (tolerance : Q) (rest : list Node) (index : nat) (previousIsBox : bool)
    (sum : Totals) (actives : list Breakpoint) : list Breakpoint :=
  match rest with
  | [] => actives
  | node :: tail =>
      match node with
      | Box w _ _ _ =>
          linebreak_from nodes lineLengths tolerance tail (S index) true
            (mkTotals (t_width sum + w) (t_stretch sum) (t_shrink sum)) actives
      | Glue w _ _ st sh =>
          let actives :=
            if previousIsBox
            then mainLoop nodes lineLengths tolerance sum node index actives
            else actives in
          linebreak_from nodes lineLengths tolerance tail (S index) false
            (mkTotals (t_width sum + w) (t_stretch sum + st)
               (t_shrink sum + sh))
            actives
      | Penalty _ p _ =>
          let actives :=
            if negb (Qeq_bool p infinity)
            then mainLoop nodes lineLengths tolerance sum node index actives
            else actives in
          linebreak_from nodes lineLengths tolerance tail (S index) false sum
            actives
      end
  end.

(** The active node with the least demerits: the first one that is
    smaller than all those before it. *)
Definition bestActive (activeNodes : list Breakpoint) : option Breakpoint :=
  fold_left
    (fun tmp node =>
       match tmp with
       | None => Some node
       | Some t => if Qltb (demerits node) (demerits t) then Some node else tmp
       end)
    activeNodes None.

(** The positions from a breakpoint back to the start of the paragraph. *)
Fixpoint positionsBack (b : Breakpoint) : list nat :=
  position b
  :: match previous b with
     | Some p => positionsBack p
     | None => []
     end.

(** [findBestBreakpoints]. *)
Definition findBestBreakpoints (activeNodes : list Breakpoint) : list nat :=
  match bestActive activeNodes with
  | None => []
  | Some tmp => rev (positionsBack tmp)
  end.

(** The active list at the end of [linebreak]. *)
Definition activeNodesOf (nodes : list Node) (availableWidths : list Q)
    (tolerance : Q) : list Breakpoint :=
  linebreak_from nodes availableWidths (num_or (Some tolerance) 3) nodes 0
    false (mkTotals 0 0 0)
    [mkBreakpoint 0 0 0 0 (mkTotals 0 0 0) None].

(** [linebreak]: the positions of the best breaks, or [[]]. *)
Definition linebreak (nodes : list Node) (availableWidths : list Q)
    (tolerance : Q) : list nat :=
  findBestBreakpoints (activeNodesOf nodes availableWidths tolerance).

(** ** The line breaker *)

Definition HYPHEN : N := 45.
Definition TOLERANCE_STEPS : Q := 5.
Definition TOLERANCE_LIMIT : Q := 50.

(** A factor of the justification engine, and the part of it that the
    options may override. *)
Inductive Priority :=
  | KASHIDA_PRIORITY | WHITESPACE_PRIORITY | LETTER_PRIORITY | NULL_PRIORITY.

Record Factor := mkFactor {
  before : Q;
  after : Q;
  priority : Priority;
  unconstrained : bool;
}.

Record FactorOptions := mkFactorOptions {
  o_before : option Q;
  o_after : option Q;
  o_priority : option Priority;
  o_unconstrained : option bool;
}.

(** [LayoutOptions]. *)
Record LayoutOptions := mkLayoutOptions {
  tolerance : option Q;
  hyphenationPenalty : option Q;
  expandCharFactor : option FactorOptions;
  shrinkCharFactor : option FactorOptions;
  expandWhitespaceFactor : option FactorOptions;
  shrinkWhitespaceFactor : option FactorOptions;
}.

Definition defaultOptions : LayoutOptions :=
  mkLayoutOptions None None None None None None.

Definition zlength {A : Type} (l : list A) : Z := Z.of_nat (length l).

(** The [reduce] of [getNodes] over the syllables from [start] on. *)
Fixpoint getNodes_from (attributedString : AttributedString)
    (hyphenPenalty : Q) (syllables : list jsstring) (start : Z)
  : list Node * Z :=
  match syllables with
  | [] => ([], start)
  | s :: rest =>
      let width :=
        advanceWidthBetween start (start + zlength s) attributedString in
      let e := (start + zlength s)%Z in
      let here :=
        if isBlank s then
          let stretch := (width * 3) / 6 in
          let shrink := (width * 3) / 9 in
          [Glue width start e stretch shrink]
        else
          let next := head rest in
          let hyphenated :=
            match next with
            | Some [32%N] => false
            | _ => true
            end in
          let nextTruthy :=
            match next with
            | Some (_ :: _) => true
            | _ => false
            end in
          Box width start e hyphenated
          :: (if nextTruthy && hyphenated
              then [Penalty 5 hyphenPenalty 1] else []) in
      let '(more, final) :=
        getNodes_from attributedString hyphenPenalty rest e in
      (here ++ more, final)
  end.

(** [getAttributes]: the attributes of the first run, or [{}]. *)
Definition getAttributes (attributedString : AttributedString) : Attrs :=
  match runs attributedString with
  | r :: _ => attributes r
  | [] => ∅
  end.

(** [getNodes]: the node stream of a paragraph, closed by the final glue
    and the forced break; [None] is the [TypeError] raised when the
    paragraph has no [syllables]. *)
Definition getNodes (attributedString : AttributedString) (attributes : Attrs)
    (options : LayoutOptions) : option (list Node) :=
  match syllables attributedString with
  | None => None
  | Some syllables =>
      let align := attr_str attributes "align" in
      let hyphenPenalty :=
        num_or (hyphenationPenalty options)
          (match align with
           | Some "justify"%string => 100
           | _ => 600
           end) in
      let '(result, start) :=
        getNodes_from attributedString hyphenPenalty syllables 0 in
      Some (result ++ [Glue 0 start start infinity 0;
                       Penalty 0 (- infinity) 1])
  end.

(** One break of [breakLines]: the state is the lines so far and the
    [start] of the next line.  [None] is a [TypeError] ([nodes[breakPoint]]
    undefined, or the hyphen cannot be appended) or a penalty whose
    previous node has no [end]. *)
Definition breakLine (attributedString : AttributedString) (nodes : list Node)
    (state : list AttributedString * Z) (breakPoint : nat)
  : option (list AttributedString * Z) :=
  let '(acc, start) := state in
  if (breakPoint =? length nodes - 1)%nat && (0 <? length nodes)%nat
  then Some (acc, start)
  else
    match nodes !! breakPoint with
    | None => None
    | Some (Penalty _ _ _) =>
        let prevNode :=
          match breakPoint with
          | O => None
          | S k => nodes !! k
          end in
        match prevNode with
        | Some prev =>
            match node_end prev with
            | Some e =>
                let line := slice start e attributedString in
                match insertGlyph (zlength (string_ line)) HYPHEN line with
                | Some line => Some (acc ++ [line], e)
                | None => None
                end
            | None => None
            end
        | None => None
        end
    | Some node =>
        match node_end node with
        | Some e => Some (acc ++ [slice start e attributedString], e)
        | None => None
        end
    end.

Fixpoint breakLines_from (attributedString : AttributedString)
    (nodes : list Node) (breaks : list nat)
    (state : list AttributedString * Z)
  : option (list AttributedString * Z) :=
  match breaks with
  | [] => Some state
  | breakPoint :: rest =>
      match breakLine attributedString nodes state breakPoint with
      | Some state' => breakLines_from attributedString nodes rest state'
      | None => None
      end
  end.

(** [breakLines]: the lines of a paragraph cut at the breaks. *)
Definition breakLines (attributedString : AttributedString)
    (nodes : list Node) (breaks : list nat)
  : option (list AttributedString) :=
  match breakLines_from attributedString nodes breaks ([], 0%Z) with
  | Some (lines, start) =>
      Some (lines
            ++ [slice start (zlength (string_ attributedString))
                  attributedString])
  | None => None
  end.

(** The loop [while (breaks.length === 0 && tolerance < TOLERANCE_LIMIT)]
    of [linebreaker]: the breaks and the tolerance it ends with. *)
Fixpoint escalate (fuel : nat) (nodes : list Node) (availableWidths : list Q)
    (tolerance : Q) (breaks : list nat) : list nat * Q :=
  match fuel with
  | O => (breaks, tolerance)
  | S fuel' =>
      if (length breaks =? 0)%nat && Qltb tolerance TOLERANCE_LIMIT then
        let tolerance := tolerance + TOLERANCE_STEPS in
        escalate fuel' nodes availableWidths tolerance
          (linebreak nodes availableWidths tolerance)
      else (breaks, tolerance)
  end.

(** The number of turns after which [tolerance] has reached the limit. *)
Definition escalationFuel (tolerance : Q) : nat :=
  Z.to_nat (Qceiling ((TOLERANCE_LIMIT - tolerance) / TOLERANCE_STEPS)).

(** The breaks [linebreaker] cuts the paragraph at: those of [linebreak]
    at the first tolerance that gives any, else those of
    [applyBestFit]. *)
Definition chooseBreaks (options : LayoutOptions) (nodes : list Node)
    (availableWidths : list Q) : option (list nat) :=
  let tolerance := num_or (Textkit.tolerance options) 4 in
  let breaks := linebreak nodes availableWidths tolerance in
  let '(breaks, _) :=
    escalate (escalationFuel tolerance) nodes availableWidths tolerance breaks
  in
  match breaks with
  | [] | [O] => applyBestFit nodes availableWidths
  | _ => Some breaks
  end.

(** [linebreaker]: the lines of a paragraph for the available widths. *)
Definition linebreaker (options : LayoutOptions)
    (attributedString : AttributedString) (availableWidths : list Q)
  : option (list AttributedString) :=
  let attributes := getAttributes attributedString in
  match getNodes attributedString attributes options with
  | None => None
  | Some nodes =>
      match chooseBreaks options nodes availableWidths with
      | Some breaks => breakLines attributedString nodes (drop 1 breaks)
      | None => None
      end
  end.

(** ** The justification engine *)

Inductive Direction := GROW | SHRINK.

Definition EXPAND_WHITESPACE_FACTOR : Factor :=
  mkFactor 0.5 0.5 WHITESPACE_PRIORITY false.
Definition EXPAND_CHAR_FACTOR : Factor :=
  mkFactor 0.14453125 0.14453125 LETTER_PRIORITY false.
Definition SHRINK_WHITESPACE_FACTOR : Factor :=
  mkFactor (-0.04296875) (-0.04296875) WHITESPACE_PRIORITY false.
Definition SHRINK_CHAR_FACTOR : Factor :=
  mkFactor (-0.04296875) (-0.04296875) LETTER_PRIORITY false.

(** [Object.assign({}, base, override || {})]. *)
Definition assignFactor (base : Factor) (override : option FactorOptions)
  : Factor :=
  match override with
  | None => base
  | Some o =>
      mkFactor
        (match o_before o with Some v => v | None => before base end)
        (match o_after o with Some v => v | None => after base end)
        (match o_priority o with Some v => v | None => priority base end)
        (match o_unconstrained o with
         | Some v => v
         | None => unconstrained base
         end)
  end.

Definition getCharFactor (direction : Direction) (options : LayoutOptions)
  : Factor :=
  match direction with
  | GROW => assignFactor EXPAND_CHAR_FACTOR (expandCharFactor options)
  | SHRINK => assignFactor SHRINK_CHAR_FACTOR (shrinkCharFactor options)
  end.

Definition getWhitespaceFactor (direction : Direction)
    (options : LayoutOptions) : Factor :=
  match direction with
  | GROW =>
      assignFactor EXPAND_WHITESPACE_FACTOR (expandWhitespaceFactor options)
  | SHRINK =>
      assignFactor SHRINK_WHITESPACE_FACTOR (shrinkWhitespaceFactor options)
  end.

(** [isWhiteSpace]: the code points of the glyph include the space. *)
Definition isWhiteSpace (glyph : Glyph) : bool :=
  existsb (fun c => (c =? 32)%N) (codePoints glyph).

Definition set_before (v : Q) (f : Factor) : Factor :=
  mkFactor v (after f) (priority f) (unconstrained f).
Definition set_after (v : Q) (f : Factor) : Factor :=
  mkFactor (before f) v (priority f) (unconstrained f).

(** [factors[factors.length - 1].after = 0], when there is a last one. *)
Definition clearLastAfter (factors : list Factor) : list Factor :=
  match last factors with
  | Some f => js_slice 0 (Fin (-1)) factors ++ [set_after 0 f]
  | None => factors
  end.

(** The loop of [factor] over the glyphs from [index] on; [factors] are
    those made so far, [n] is [glyphs.length]. *)
Fixpoint factor_from (charFactor whitespaceFactor : Factor) (n : nat)
    (glyphs : list Glyph) (index : nat) (factors : list Factor)
  : list Factor :=
  match glyphs with
  | [] => factors
  | glyph :: rest =>
      let '(factors, f) :=
        if isWhiteSpace glyph then
          if (index =? n - 1)%nat then
            ((if (0 <? index)%nat then clearLastAfter factors else factors),
             set_before 0 whitespaceFactor)
          else (factors, whitespaceFactor)
        else if isMark glyph && (0 <? index)%nat then
          match last factors with
          | Some prev => (clearLastAfter factors, set_before 0 prev)
          | None => (factors, charFactor)
          end
        else (factors, charFactor) in
      factor_from charFactor whitespaceFactor n rest (S index) (factors ++ [f])
  end.

(** [factor]: the factors of the glyphs of one run. *)
Definition factor (direction : Direction) (options : LayoutOptions)
    (glyphs : list Glyph) : list Factor :=
  factor_from (getCharFactor direction options)
    (getWhitespaceFactor direction options) (length glyphs) glyphs 0 [].

(** [mapM] in the option monad. *)
Fixpoint mapM_option {A B : Type} (f : A -> option B) (l : list A)
  : option (list B) :=
  match l with
  | [] => Some []
  | x :: rest =>
      match f x, mapM_option f rest with
      | Some y, Some ys => Some (y :: ys)
      | _, _ => None
      end
  end.

(** [getFactors]: the factors of all the glyphs of the line, the outer
    edges cleared; [None] is the [TypeError] raised for a run without
    glyphs or a line without any glyph. *)
Definition getFactors (gap : Q) (line : AttributedString)
    (options : LayoutOptions) : option (list Factor) :=
  let direction := if Qltb 0 gap then GROW else SHRINK in
  match
    mapM_option (fun run => factor direction options <$> glyphs run)
      (runs line)
  with
  | None => None
  | Some perRun =>
      match concat perRun with
      | [] => None
      | first :: rest => Some (clearLastAfter (set_before 0 first :: rest))
      end
  end.

(** The arrays [priorities] and [unconstrained], indexed by priority. *)
Abbreviation PriorityArray := (Priority -> Q).

Definition Priority_eqb (a b : Priority) : bool :=
  match a, b with
  | KASHIDA_PRIORITY, KASHIDA_PRIORITY
  | WHITESPACE_PRIORITY, WHITESPACE_PRIORITY
  | LETTER_PRIORITY, LETTER_PRIORITY
  | NULL_PRIORITY, NULL_PRIORITY => true
  | _, _ => false
  end.

(** [array[p] = v]. *)
Definition pset (array : PriorityArray) (p : Priority) (v : Q)
  : PriorityArray :=
  fun q => if Priority_eqb q p then v else array q.

(** The priorities from [KASHIDA_PRIORITY] to [NULL_PRIORITY]. *)
Definition allPriorities : list Priority :=
  [KASHIDA_PRIORITY; WHITESPACE_PRIORITY; LETTER_PRIORITY; NULL_PRIORITY].

(** The sums of the factors at each priority: [total], [priorities] and
    [unconstrained]. *)
Definition sumFactors (factors : list Factor)
  : Q * PriorityArray * PriorityArray :=
  fold_left
    (fun '(total, priorities, unconstrained) f =>
       let sum := before f + after f in
       (total + sum,
        pset priorities (priority f) (priorities (priority f) + sum),
        if Textkit.unconstrained f
        then pset unconstrained (priority f)
               (unconstrained (priority f) + sum)
        else unconstrained))
    factors (0, (fun _ => 0), (fun _ => 0)).

(** The state of the loop that chooses the priorities to apply. *)
Record Chosen := mkChosen {
  c_priorities : PriorityArray;
  c_unconstrained : PriorityArray;
  c_highest : option (Priority * Q);
  c_remainingGap : Q;
}.

(** [priorities[p] = 0; unconstrained[p] = 0] for the priorities left. *)
Definition zeroOut (ps : list Priority) (c : Chosen) : Chosen :=
  mkChosen
    (fold_left (fun a p => pset a p 0) ps (c_priorities c))
    (fold_left (fun a p => pset a p 0) ps (c_unconstrained c))
    (c_highest c) (c_remainingGap c).

(** The loop over the priorities: a priority that covers the remaining
    gap takes it and ends the loop; else it is used in full. *)
Fixpoint choosePriorities (ps : list Priority) (c : Chosen) : Chosen :=
  match ps with
  | [] => c
  | priority :: rest =>
      let prioritySum := c_priorities c priority in
      if negb (Qeq_bool prioritySum 0) then
        let highest :=
          match c_highest c with
          | None => Some (priority, prioritySum)
          | Some h => Some h
          end in
        if Qleb (Qabs (c_remainingGap c)) (Qabs prioritySum) then
          zeroOut rest
            (mkChosen
               (pset (c_priorities c) priority
                  (c_remainingGap c / prioritySum))
               (pset (c_unconstrained c) priority 0) highest 0)
        else
          let remainingGap := c_remainingGap c - prioritySum in
          let priorities := pset (c_priorities c) priority 1 in
          if negb (Qeq_bool (c_unconstrained c priority) 0) then
            zeroOut rest
              (mkChosen priorities
                 (pset (c_unconstrained c) priority
                    (remainingGap / c_unconstrained c priority))
                 highest 0)
          else
            choosePriorities rest
              (mkChosen priorities (c_unconstrained c) highest remainingGap)
      else choosePriorities rest c
  end.

(** The distance to add to each glyph: the space after it and the space
    before the next one. *)
Fixpoint distancesOf (priorities unconstrained : PriorityArray)
    (factors : list Factor) : list Q :=
  match factors with
  | [] => []
  | f :: rest =>
      let next := head rest in
      let dist := after f * priorities (priority f) in
      let dist :=
        match next with
        | Some next => dist + before next * priorities (priority next)
        | None => dist
        end in
      let dist :=
        if Textkit.unconstrained f then
          let dist := dist + after f * unconstrained (priority f) in
          match next with
          | Some next => dist + before next * unconstrained (priority next)
          | None => dist
          end
        else dist in
      dist :: distancesOf priorities unconstrained rest
  end.

(** [getDistances]. *)
Definition getDistances (gap : Q) (factors : list Factor) : list Q :=
  let '(total, priorities, unconstrained) := sumFactors factors in
  let c :=
    choosePriorities allPriorities
      (mkChosen priorities unconstrained None gap) in
  let priorities :=
    match c_highest c with
    | Some (highestPriority, highestPrioritySum) =>
        if Qltb 0 (c_remainingGap c)
        then pset (c_priorities c) highestPriority
               ((highestPrioritySum + (gap - total)) / highestPrioritySum)
        else c_priorities c
    | None => c_priorities c
    end in
  distancesOf priorities (c_unconstrained c) factors.

Definition add_xAdvance (d : Q) (p : Position) : Position :=
  mkPosition (xAdvance p + d) (yAdvance p) (xOffset p) (yOffset p).

(** The inner loop of [justifyLine] over the positions of a run; [None]
    when the distances run out (the advance would not be a number). *)
Fixpoint justifyPositions (distances : list Q) (positions : list Position)
  : option (list Position * list Q) :=
  match positions with
  | [] => Some ([], distances)
  | p :: rest =>
      match distances with
      | [] => None
      | d :: distances' =>
          match justifyPositions distances' rest with
          | Some (ps, remaining) => Some (add_xAdvance d p :: ps, remaining)
          | None => None
          end
      end
  end.

(** The outer loop of [justifyLine] over the runs; [None] also for a run
    without positions (a [TypeError]). *)
Fixpoint justifyRuns (distances : list Q) (runs : list Run)
  : option (list Run) :=
  match runs with
  | [] => Some []
  | run :: rest =>
      match positions run with
      | None => None
      | Some ps =>
          match justifyPositions distances ps with
          | None => None
          | Some (ps', remaining) =>
              match justifyRuns remaining rest with
              | Some rest' =>
                  Some (mkRun (start run) (end_ run) (attributes run)
                          (glyphIndices run) (glyphs run) (Some ps')
                        :: rest')
              | None => None
              end
          end
      end
  end.

(** [justifyLine]: add the distances to the advances of the line. *)
Definition justifyLine (distances : list Q) (line : AttributedString)
  : option AttributedString :=
  match justifyRuns distances (runs line) with
  | Some runs' =>
      Some (mkAttributedString (string_ line) runs' (syllables line)
              (box line))
  | None => None
  end.

(** [justification]: make the advance width of the line that of its
    box; [None] is a [TypeError] (a line without box or without glyphs). *)
Definition justification (options : LayoutOptions) (line : AttributedString)
  : option AttributedString :=
  match box line with
  | None => None
  | Some b =>
      let gap := rect_width b - advanceWidth_as line in
      if Qeq_bool gap 0 then Some line
      else
        match getFactors gap line options with
        | None => None
        | Some factors =>
            let distances := getDistances gap factors in
            justifyLine distances line
        end
  end.

(** ** Flattening runs *)

(** A run given to [flatten], with the identity of its [attributes]
    object: [flattenRegularRuns] compares attributes by reference. *)
Abbreviation RunRef := (nat * Run)%type.

(** The comparator of [sort]: by start, then by end. *)
Definition compareRuns (a b : Run) : Z :=
  if (start a - start b =? 0)%Z then (end_ a - end_ b)%Z
  else (start a - start b)%Z.

(** [sort]. *)
Definition sort (runs : list Run) : list Run := js_sort compareRuns runs.

(** [isEmpty]. *)
Definition isEmpty (run : Run) : bool := (start run =? end_ run)%Z.

Inductive PointType := PStart | PEnd.

(** A point [[type, offset, attributes, index]]. *)
Record Point := mkPoint {
  p_type : PointType;
  p_offset : Z;
  p_attributes : nat * Attrs;
  p_index : nat;
}.

(** [sortPoints]: by offset, then by the index of the run. *)
Definition sortPoints (a b : Point) : Z :=
  if (p_offset a - p_offset b =? 0)%Z
  then (Z.of_nat (p_index a) - Z.of_nat (p_index b))%Z
  else (p_offset a - p_offset b)%Z.

(** The points of the runs from index [i] on, in the order of the runs. *)
Fixpoint points_from (i : nat) (runs : list RunRef) : list Point :=
  match runs with
  | [] => []
  | (ref, run) :: rest =>
      mkPoint PStart (start run) (ref, attributes run) i
      :: mkPoint PEnd (end_ run) (ref, attributes run) i
      :: points_from (S i) rest
  end.

(** [generatePoints]. *)
Definition generatePoints (runs : list RunRef) : list Point :=
  js_sort sortPoints (points_from 0 runs).

(** [mergeRuns]: the last run, with the attributes of all of them;
    [None] is the object without fields that an empty list gives. *)
Definition mergeRuns (runs : list Run) : option Run :=
  fold_left
    (fun acc run =>
       let attributes :=
         assign
           (match acc with Some a => attributes a | None => ∅ end)
           (attributes run) in
       Some (mkRun (start run) (end_ run) attributes (glyphIndices run)
               (glyphs run) (positions run)))
    runs None.

(** [acc[run.start].push(run)], on the entries of [acc] in the order of
    their creation. *)
Fixpoint pushToGroup (run : Run) (groups : list (Z * list Run))
  : list (Z * list Run) :=
  match groups with
  | [] => [(start run, [run])]
  | (k, g) :: rest =>
      if (k =? start run)%Z then (k, g ++ [run]) :: rest
      else (k, g) :: pushToGroup run rest
  end.

(** The keys that are indices of an array. *)
Definition isArrayIndex (k : Z) : bool :=
  (0 <=? k)%Z && (k <? 4294967295)%Z.

(** [Object.values] of an array: the elements in the order of their
    indices, then the other properties in the order of their creation. *)
Definition objectValues {A : Type} (entries : list (Z * A)) : list A :=
  (js_sort (fun a b => (a.1 - b.1)%Z)
     (List.filter (fun e => isArrayIndex e.1) entries)
   ++ List.filter (fun e => negb (isArrayIndex e.1)) entries).*2.

(** [groupEmptyRuns]: the runs grouped by their start. *)
Definition groupEmptyRuns (runs : list Run) : list (list Run) :=
  objectValues (fold_left (fun acc run => pushToGroup run acc) runs []).

(** [flattenEmptyRuns] (no group is empty, so every one gives a run). *)
Definition flattenEmptyRuns (runs : list Run) : list Run :=
  omap mergeRuns (groupEmptyRuns runs).

(** The state of the loop of [flattenRegularRuns]. *)
Record FlattenState := mkFlattenState {
  fs_start : Z;
  fs_attrs : Attrs;
  fs_stack : list (nat * Attrs);
  fs_res : list Run;
}.

(** One turn of the loop of [flattenRegularRuns]. *)
Definition flattenPoint (st : FlattenState) (point : Point) : FlattenState :=
  let offset := p_offset point in
  let attributes := p_attributes point in
  let res :=
    if negb (fs_start st =? -1)%Z && (fs_start st <? offset)%Z then
      fs_res st
      ++ [mkRun (fs_start st) offset (fs_attrs st) (Some []) (Some [])
            (Some [])]
    else fs_res st in
  match p_type point with
  | PStart =>
      mkFlattenState offset (assign (fs_attrs st) attributes.2)
        (fs_stack st ++ [attributes]) res
  | PEnd =>
      let stack :=
        List.filter (fun s => negb (s.1 =? attributes.1)%nat) (fs_stack st) in
      mkFlattenState offset (fold_left (fun a s => assign a s.2) stack ∅)
        stack res
  end.

(** [flattenRegularRuns]. *)
Definition flattenRegularRuns (runs : list RunRef) : list Run :=
  fs_res
    (fold_left flattenPoint (generatePoints runs)
       (mkFlattenState (-1) ∅ [] [])).

(** [flatten]. *)
Definition flatten (runs : list RunRef) : list Run :=
  let emptyRuns := flattenEmptyRuns (List.filter isEmpty (runs.*2)) in
  let regularRuns :=
    flattenRegularRuns (List.filter (fun r => negb (isEmpty r.2)) runs) in
  sort (emptyRuns ++ regularRuns).

(** ** Rectangles and line fragments *)

(** [Math.max(a, b)] and [Math.min(a, b)]. *)
Definition js_max (a b : Q) : Q := if Qltb a b then b else a.
Definition js_min (a b : Q) : Q := if Qltb b a then b else a.

(** [partition]: cut a rectangle at [height] under its top. *)
Definition partition (rect : Rect) (height : Q) : Rect * Rect :=
  (mkRect (rect_x rect) (rect_y rect) (rect_width rect) height,
   mkRect (rect_x rect) (rect_y rect + height) (rect_width rect)
     (rect_height rect - height)).

(** [crop]: the rectangle without its upper part. *)
Definition crop (height : Q) (rect : Rect) : Rect := (partition rect height).2.

(** [intersects]: the rectangles meet (or touch). *)
Definition intersects (a b : Rect) : bool :=
  let x := js_max (rect_x a) (rect_x b) in
  let num1 := js_min (rect_x a + rect_width a) (rect_x b + rect_width b) in
  let y := js_max (rect_y a) (rect_y b) in
  let num2 := js_min (rect_y a + rect_height a) (rect_y b + rect_height b) in
  Qleb x num1 && Qleb y num2.

(** [getLineFragment]: what is left of a line rectangle beside an
    excluded rectangle. *)
Definition getLineFragment (lineRect excludeRect : Rect) : list Rect :=
  if negb (intersects excludeRect lineRect) then [lineRect]
  else
    let eStart := rect_x excludeRect in
    let eEnd := rect_x excludeRect + rect_width excludeRect in
    let lStart := rect_x lineRect in
    let lEnd := rect_x lineRect + rect_width lineRect in
    let a :=
      mkRect (rect_x lineRect) (rect_y lineRect) (eStart - lStart)
        (rect_height lineRect) in
    let b :=
      mkRect eEnd (rect_y lineRect) (lEnd - eEnd) (rect_height lineRect) in
    List.filter (fun r => Qltb 0 (rect_width r)) [a; b].

(** [getLineFragments]: the same for every excluded rectangle in turn. *)
Definition getLineFragments (rect : Rect) (excludeRects : list Rect)
  : list Rect :=
  fold_left
    (fun fragments excludeRect =>
       flat_map (fun fragment => getLineFragment fragment excludeRect)
         fragments)
    excludeRects [rect].

(** [Math.max(...excludeRects.map((r) => r.y + r.height))]; [None] is
    [-Infinity]. *)
Definition maxBottom (excludeRects : list Rect) : option Q :=
  fold_left
    (fun acc r =>
       let e := rect_y r + rect_height r in
       match acc with
       | None => Some e
       | Some m => Some (js_max m e)
       end)
    excludeRects None.

(** The loop of [generateLineRects]; [None] when the fuel runs out. *)
Fixpoint generateLineRects_loop (fuel : nat) (excludeRects : list Rect)
    (maxY : option Q) (height : Q) (currentRect : Rect)
    (lineRects : list Rect) : option (list Rect) :=
  if match maxY with
     | Some m => Qltb (rect_y currentRect) m
     | None => false
     end
  then
    match fuel with
    | O => None
    | S fuel' =>
        let '(lineRect, rest) := partition currentRect height in
        let lineRectFragments := getLineFragments lineRect excludeRects in
        generateLineRects_loop fuel' excludeRects maxY height rest
          (lineRects ++ lineRectFragments)
    end
  else Some (lineRects ++ [currentRect]).

(** [generateLineRects]: the rectangles of the lines of a container
    ([rect] and its [excludeRects]), for lines of the given height. *)
Definition generateLineRects (fuel : nat) (rect : Rect)
    (excludeRects : option (list Rect)) (height : Q) : option (list Rect) :=
  match excludeRects with
  | None => Some [rect]
  | Some excludeRects =>
      generateLineRects_loop fuel excludeRects (maxBottom excludeRects) height
        rect []
  end.

(** ** Fragments and words *)

(** A text fragment: a string with its attributes, and the glyph arrays
    that a run made into a fragment brings along. *)
Record Fragment := mkFragment {
  f_string : jsstring;
  f_attributes : option Attrs;
  f_glyphIndices : option (list Z);
  f_glyphs : option (list Glyph);
  f_positions : option (list Position);
}.

(** The [forEach] of [fromFragments] from the offset [offset] on. *)
Fixpoint fromFragments_from (fragments : list Fragment) (offset : Z)
  : list Run :=
  match fragments with
  | [] => []
  | fragment :: rest =>
      mkRun offset (offset + zlength (f_string fragment))
        (match f_attributes fragment with Some a => a | None => ∅ end)
        (f_glyphIndices fragment) (f_glyphs fragment) (f_positions fragment)
      :: fromFragments_from rest (offset + zlength (f_string fragment))
  end.

(** [fromFragments]: the attributed string of a list of fragments. *)
Definition fromFragments (fragments : list Fragment) : AttributedString :=
  mkAttributedString (concat (map f_string fragments))
    (fromFragments_from fragments 0) None None.

(** [string.split(/([ ]+)/g).filter(Boolean)]: the string cut into its
    stretches of spaces and of other characters. *)
Fixpoint splitSpaces (s : jsstring) : list jsstring :=
  match s with
  | [] => []
  | c :: rest =>
      match splitSpaces rest with
      | (d :: w) :: ws =>
          if Bool.eqb (c =? 32)%N (d =? 32)%N then (c :: d :: w) :: ws
          else [c] :: (d :: w) :: ws
      | ws => [c] :: ws
      end
  end.

(** The string that [wrapWords] gives to a run, and its syllables. *)
Definition wrapRun (hyphenateWord : jsstring -> list jsstring)
    (string : jsstring) (run : Run) : list jsstring :=
  flat_map hyphenateWord
    (splitSpaces (js_slice (start run) (Fin (end_ run)) string)).

(** [wrapWords], for the hyphenation callback in use: every run gets the
    string of its syllables. *)
Definition wrapWords (hyphenateWord : jsstring -> list jsstring)
    (attributedString : AttributedString) : AttributedString :=
  let parts :=
    map (wrapRun hyphenateWord (string_ attributedString))
      (runs attributedString) in
  let fragments :=
    map (fun '(run, p) =>
           mkFragment (concat p) (Some (attributes run)) (glyphIndices run)
             (glyphs run) (positions run))
      (zip (runs attributedString) parts) in
  let result := fromFragments fragments in
  mkAttributedString (string_ result) (runs result) (Some (concat parts)) None.

(** [defaultHyphenationEngine]. *)
Definition defaultHyphenationEngine (word : jsstring) : list jsstring := [word].

(** [DUMMY_CODEPOINT]. *)
Definition DUMMY_CODEPOINT : N := 123.

(** [resolve]: the glyph index of every character, from the code points
    of the glyphs ([None] is a glyph that is [null]). *)
Definition resolve (glyphs : list (option Glyph)) : list Z :=
  fold_left
    (fun acc glyph =>
       let codePoints :=
         match glyph with
         | Some g => codePoints g
         | None => [DUMMY_CODEPOINT]
         end in
       match last acc with
       | None => map (fun _ => 0%Z) codePoints
       | Some l => acc ++ map (fun _ => (l + 1)%Z) codePoints
       end)
    glyphs [].

(** ** Blocks of lines *)

(** [height$2]: the height of a block of lines; [None] is the
    [TypeError] of a line without box. *)
Definition height2 (paragraph : list AttributedString) : option Q :=
  fold_left
    (fun acc block =>
       match acc, box block with
       | Some a, Some b => Some (a + rect_height b)
       | _, _ => None
       end)
    paragraph (Some 0).

(** The loop of [sliceAtHeight], [counter] being the height of the lines
    seen. *)
Fixpoint sliceAtHeight_from (height : Q) (paragraph : list AttributedString)
    (counter : Q) : option (list AttributedString) :=
  match paragraph with
  | [] => Some []
  | line :: rest =>
      match box line with
      | None => None
      | Some b =>
          let counter := counter + rect_height b in
          if Qltb counter height then
            match sliceAtHeight_from height rest counter with
            | Some newBlock => Some (line :: newBlock)
            | None => None
            end
          else Some []
      end
  end.

(** [sliceAtHeight]: the lines of a block above a height. *)
Definition sliceAtHeight (height : Q) (paragraph : list AttributedString)
  : option (list AttributedString) :=
  sliceAtHeight_from height paragraph 0.

(** ** Paragraphs *)

(** [start], [end] and [length$1] of an attributed string: from the
    start of its first run to the end of its last one. *)
Definition start_as (attributedString : AttributedString) : Z :=
  match runs attributedString with
  | [] => 0%Z
  | r :: _ => start r
  end.

Definition end_as (attributedString : AttributedString) : Z :=
  match last (runs attributedString) with
  | Some r => end_ r
  | None => 0%Z
  end.

Definition length1 (attributedString : AttributedString) : Z :=
  (end_as attributedString - start_as attributedString)%Z.

(** The line feed. *)
Definition NEWLINE : N := 10.

(** [string.indexOf(c, position)] for one character: [-1] when it is not
    found at or after the position. *)
Definition indexOf (c : N) (string : jsstring) (position : Z) : Z :=
  let from := Z.max position 0 in
  findIndex_from (fun d => (d =? c)%N) (drop (Z.to_nat from) string) from.

(** The [while (breakPoint > 0)] loop of [splitParagraphs]: the
    paragraphs and the last [start]; [None] when the fuel runs out. *)
Fixpoint splitParagraphs_loop (fuel : nat)
    (attributedString : AttributedString) (start breakPoint : Z)
    (paragraphs : list AttributedString)
  : option (list AttributedString * Z) :=
  if (0 <? breakPoint)%Z then
    match fuel with
    | O => None
    | S fuel' =>
        splitParagraphs_loop fuel' attributedString breakPoint
          (indexOf NEWLINE (string_ attributedString) breakPoint + 1)%Z
          (paragraphs ++ [slice start breakPoint attributedString])
    end
  else Some (paragraphs, start).

(** [splitParagraphs]: the attributed string cut after every line feed;
    every turn of the loop moves [start] forward, so one turn for each
    character is enough. *)
Definition splitParagraphs (attributedString : AttributedString)
  : option (list AttributedString) :=
  match
    splitParagraphs_loop (S (length (string_ attributedString)))
      attributedString 0
      (indexOf NEWLINE (string_ attributedString) 0 + 1)%Z []
  with
  | None => None
  | Some (paragraphs, start) =>
      Some
        (if (start =? 0)%Z then paragraphs ++ [attributedString]
         else if (start <? zlength (string_ attributedString))%Z
              then paragraphs
                   ++ [slice start (length1 attributedString) attributedString]
              else paragraphs)
  end.

(** ** White space at the start of a line *)

(** [leadingPositions]: the positions of the white space glyphs before
    the first glyph that is not white space. *)
Definition leadingPositions (run : Run) : list Position :=
  let glyphs := or_nil (glyphs run) in
  let positions := or_nil (positions run) in
  let leadingWhitespaces :=
    findIndex (fun g => negb (isWhiteSpace g)) glyphs in
  js_slice 0 (Fin leadingWhitespaces) positions.

(** [leadingOffset$1]: the advance of the leading white space of a run. *)
Definition leadingOffset1 (run : Run) : Q :=
  fold_left (fun acc pos => acc + xAdvance pos) (leadingPositions run) 0.

(** [leadingOffset]: that of the first run; [None] is the [TypeError] of
    a line without runs. *)
Definition leadingOffset (attributedString : AttributedString) : option Q :=
  match runs attributedString with
  | r :: _ => Some (leadingOffset1 r)
  | [] => None
  end.

(** ** Vocabulary of the statements *)

(** The string offsets at which a break at each node cuts the paragraph:
    the end of the node, or for a penalty the end of the node before it
    ([prev]); [None] where the code finds no such offset. *)
Fixpoint cutsOf (prev : option Z) (nodes : list Node) : list (option Z) :=
  match nodes with
  | [] => []
  | node :: rest =>
      match node with
      | Penalty _ _ _ => prev
      | _ => node_end node
      end :: cutsOf (node_end node) rest
  end.

(** The offsets that are present never decrease and start at [lo]. *)
Fixpoint cutsFrom (lo : Z) (cuts : list (option Z)) : Prop :=
  match cuts with
  | [] => True
  | None :: rest => cutsFrom lo rest
  | Some c :: rest => (lo <= c)%Z /\ cutsFrom c rest
  end.

(** The positions on the way back from a breakpoint never increase. *)
Fixpoint chainDesc (b : Breakpoint) : Prop :=
  match previous b with
  | Some p => (position p <= position b)%nat /\ chainDesc p
  | None => True
  end.

(** A line as the line breaker cuts it: the characters of the paragraph
    it holds, and whether a hyphen was put after them. *)
Definition renderCut (cut : jsstring * bool) : jsstring :=
  cut.1 ++ (if cut.2 then [HYPHEN] else []).

(** Every character of the string lies in some run. *)
Definition covered (attributedString : AttributedString) : Prop :=
  forall i, (0 <= i < zlength (string_ attributedString))%Z ->
    exists run, run ∈ runs attributedString
                /\ (start run <= i < end_ run)%Z.

(** Every run has a font. *)
Definition fontsSet (attributedString : AttributedString) : Prop :=
  forall run, run ∈ runs attributedString -> is_Some (getFont run).

(** A property of the active nodes that every new active node has when
    the node it comes from has it. *)
Definition candidatesHave (P : Breakpoint -> Prop) (candidates : Candidates)
  : Prop :=
  Forall (fun o => match o with Some (a, _) => P a | None => True end)
    candidates.

(** The invariant of [linebreak]: before the node at [index] is seen,
    every active node lies before [max index 1] and the positions on the
    way back from it never increase and are indices of [nodes]. *)
Definition chainOK (n : nat) (index : nat) (b : Breakpoint) : Prop :=
  (position b <= index)%nat /\ chainDesc b
  /\ Forall (fun p => (p < n)%nat) (positionsBack b).

(** Two breakpoints that stand for the same break: the same position,
    line, fitness class and totals. *)
Definition sameBreak (a b : Breakpoint) : Prop :=
  position a = position b /\ line a = line b
  /\ fitnessClass a = fitnessClass b /\ totals a = totals b.

(** Every break of [A] is also in [A']. *)
Definition coveredBy (A A' : list Breakpoint) : Prop :=
  forall a, a ∈ A -> exists a', a' ∈ A' /\ sameBreak a a'.

(** The active list is ordered by line number. *)
Definition sortedByLine (A : list Breakpoint) : Prop :=
  StronglySorted (fun a b => (line a <= line b)%nat) A.

(** The adjustment ratio of the line from an active node to the node at
    [index]. *)
Definition ratioOf (nodes : list Node) (lineLengths : list Q) (sum : Totals)
    (index : nat) (a : Breakpoint) : Q :=
  computeCost nodes lineLengths sum index a (line a + 1).

(** The active node stays in the list. *)
Definition keptAt (node : Node) (ratio : Q) : bool :=
  negb (Qltb ratio (-1) || isForcedBreak node).

(** The break is admitted at a tolerance: [-1 <= ratio <= tolerance]. *)
Definition admitted (tolerance : Q) (ratio : Q) : bool :=
  Qleb (-1) ratio && Qleb ratio tolerance.

(** [b] is a new active node made at [index] from the active node [a]. *)
Definition newFrom (nodes : list Node) (lineLengths : list Q) (sum : Totals)
    (index : nat) (a b : Breakpoint) : Prop :=
  position b = index /\ line b = (line a + 1)%nat
  /\ fitnessClass b = fitnessClassOf (ratioOf nodes lineLengths sum index a)
  /\ totals b = computeSum nodes sum index.

(** Every candidate comes from an active node that has [P], is admitted
    and has the fitness class of its slot. *)
Definition candidatesSound (P : Breakpoint -> Prop) (nodes : list Node)
    (lineLengths : list Q) (sum : Totals) (index : nat) (tolerance : Q)
    (candidates : Candidates) : Prop :=
  forall i a d,
    candidates !! i = Some (Some (a, d)) ->
    P a /\ admitted tolerance (ratioOf nodes lineLengths sum index a) = true
    /\ fitnessClassOf (ratioOf nodes lineLengths sum index a) = i.

(** The candidates come from active nodes of line [L]. *)
Definition candidatesOfLine (L : nat) (candidates : Candidates) : Prop :=
  forall i a d, candidates !! i = Some (Some (a, d)) -> line a = L.

(** The tolerance after [k] escalations. *)
Definition escalated (k : nat) (tolerance : Q) : Q :=
  Nat.iter k (fun t => t + TOLERANCE_STEPS) tolerance.

(** The sum of a list of numbers. *)
Fixpoint sumQ (l : list Q) : Q :=
  match l with
  | [] => 0
  | x :: rest => x + sumQ rest
  end.

(** A factor of zero weight. *)
Definition weightless (f : Factor) : Prop := before f == 0 /\ after f == 0.

(** Every run has a glyph array and a position array of the same
    length. *)
Definition parallelArrays (line : AttributedString) : Prop :=
  Forall
    (fun r => exists gs ps,
         glyphs r = Some gs /\ positions r = Some ps /\ length gs = length ps)
    (runs line).

(** Two positions that differ at most in how the advance is written. *)
Definition samePosition (p p' : Position) : Prop :=
  xAdvance p == xAdvance p' /\ yAdvance p = yAdvance p'
  /\ xOffset p = xOffset p' /\ yOffset p = yOffset p'.

Definition sameRun (r r' : Run) : Prop :=
  start r = start r' /\ end_ r = end_ r' /\ attributes r = attributes r'
  /\ glyphIndices r = glyphIndices r' /\ glyphs r = glyphs r'
  /\ match positions r, positions r' with
     | Some ps, Some ps' => Forall2 samePosition ps ps'
     | None, None => True
     | _, _ => False
     end.

(** Two lines with the same content and the same advances. *)
Definition sameLine (a b : AttributedString) : Prop :=
  string_ a = string_ b /\ syllables a = syllables b /\ box a = box b
  /\ Forall2 sameRun (runs a) (runs b).

(** A factor that is constrained and does not shrink. *)
Definition expanding (f : Factor) : Prop :=
  unconstrained f = false /\ 0 <= before f /\ 0 <= after f.

(** The options give expanding factors to letters and to white space
    (the default ones are). *)
Definition expands (options : LayoutOptions) : Prop :=
  expanding (getCharFactor GROW options)
  /\ expanding (getWhitespaceFactor GROW options).

(** The number of glyphs of the line. *)
Definition glyphCount (line : AttributedString) : nat :=
  sum_list (map (fun r => length (or_nil (glyphs r))) (runs line)).

(** The number of positions of a list of runs. *)
Definition positionCount (rs : list Run) : nat :=
  sum_list (map (fun r => length (or_nil (positions r))) rs).


(** The weight a factor gets from the priorities chosen. *)
Definition weighted (P : PriorityArray) (f : Factor) : Q :=
  (before f + after f) * P (priority f).

(** The sum of a function over the four priorities. *)
Definition overPriorities (g : Priority -> Q) : Q :=
  g KASHIDA_PRIORITY + g WHITESPACE_PRIORITY + g LETTER_PRIORITY
  + g NULL_PRIORITY.

(** [x] is not sorted after [y] by the comparator. *)
Definition notAfter {A : Type} (cmp : A -> A -> Z) : relation A :=
  fun x y => (cmp x y <= 0)%Z.

(** A run as [flattenRegularRuns] makes them. *)
Definition segment (r : Run) : Prop :=
  (start r < end_ r)%Z /\ start r <> (-1)%Z
  /\ glyphIndices r = Some [] /\ glyphs r = Some [] /\ positions r = Some [].

(** A run that ends at [s], or at the offset -1 before [s]. *)
Definition endsAt (r : Run) (s : Z) : Prop :=
  (end_ r <= s)%Z /\ (end_ r = s \/ end_ r = (-1)%Z).

(** Segments one after the other, each starting where the one before
    ends (or later, when that one ends at -1). *)
Fixpoint runChain (l : list Run) : Prop :=
  match l with
  | [] => True
  | r :: rest =>
      segment r
      /\ match head rest with
         | Some r' => endsAt r (start r')
         | None => True
         end
      /\ runChain rest
  end.

(** What the loop of [flattenRegularRuns] keeps true, [points] being
    the points still to come. *)
Definition flattenInv (st : FlattenState) (points : list Point) : Prop :=
  runChain (fs_res st)
  /\ ((fs_res st = [] /\ fs_start st = (-1)%Z)
      \/ (Forall (fun p => (fs_start st <= p_offset p)%Z) points
          /\ forall r, last (fs_res st) = Some r -> endsAt r (fs_start st))).

(** The entries of the groups: no key twice, and under each key a
    group, not empty, of runs that start at the key. *)
Definition groupsOK (p : Run -> Prop) (groups : list (Z * list Run)) : Prop :=
  NoDup groups.*1
  /\ Forall (fun e => e.2 <> [] /\ Forall (fun r => start r = e.1 /\ p r) e.2)
       groups.

(** Fresh identities for the attributes of the runs of a list. *)
Definition withRefs (runs : list Run) : list RunRef :=
  imap (fun i r => (i, r)) runs.

(** The glyphs that [slice$1] puts at the end of a slice that ends at
    [e]: the first part of a ligature cut there. *)
Definition endGlyphsAt (e : Idx) (run : Run) : list Glyph :=
  slice2 0 (Fin (offset e run)) (getFont run)
    (js_nth (or_nil (glyphs run)) (glyphIndexAt e run)).

(** The string index [i] is where a glyph starts: the first index, the
    end of the string, or an index whose glyph is the one after the
    glyph of the index before. *)
Definition atGlyphStart (gi : list Z) (i : Z) : Prop :=
  i = 0%Z \/ i = zlength gi
  \/ exists v,
       gi !! Z.to_nat (i - 1) = Some v /\ gi !! Z.to_nat i = Some (v + 1)%Z.

(** Glyph indices in order, none beyond the length of the string. *)
Definition glyphsInOrder (gi : list Z) : Prop :=
  StronglySorted Z.le gi /\ Forall (fun v => (0 <= v <= zlength gi)%Z) gi.

(** The glyph index of the string index [k], as [glyphIndexAt] gives
    it. *)
Definition glyphAt (gi : list Z) (k : Z) : Z :=
  match gi !! Z.to_nat k with Some v => v | None => k end.

(** The fragment [f] lies in the line rectangle [r], with its height. *)
Definition withinLine (r f : Rect) : Prop :=
  rect_x r <= rect_x f
  /\ rect_x f + rect_width f <= rect_x r + rect_width r
  /\ rect_y f = rect_y r /\ rect_height f = rect_height r.

(** The rectangles are beside each other. *)
Definition beside (f e : Rect) : Prop :=
  rect_x f + rect_width f <= rect_x e \/ rect_x e + rect_width e <= rect_x f.

(** The rectangles meet (or touch) vertically. *)
Definition meetsY (a b : Rect) : bool :=
  Qleb (js_max (rect_y a) (rect_y b))
    (js_min (rect_y a + rect_height a) (rect_y b + rect_height b)).

(** A factor that is constrained and does not expand. *)
Definition shrinking (f : Factor) : Prop :=
  unconstrained f = false /\ before f <= 0 /\ after f <= 0.

(** The options give shrinking factors to letters and to white space
    (the default ones are). *)
Definition shrinks (options : LayoutOptions) : Prop :=
  shrinking (getCharFactor SHRINK options)
  /\ shrinking (getWhitespaceFactor SHRINK options).

(** The space the factors can give in all. *)
Definition room (factors : list Factor) : Q :=
  sumQ (map (fun f => before f + after f) factors).

(** A place where a line may end: the start of the paragraph, a glue
    that follows a box, or a penalty that does not forbid the break. *)
Definition legalBreak (nodes : list Node) (i : nat) : bool :=
  match i with
  | O => true
  | S k =>
      match nodes !! i with
      | Some (Glue _ _ _ _ _) =>
          match nodes !! k with
          | Some (Box _ _ _ _) => true
          | _ => false
          end
      | Some (Penalty _ p _) => negb (Qeq_bool p infinity)
      | _ => false
      end
  end.

(** The breaks on the way back from a breakpoint are legal and end at
    the start of the paragraph. *)
Definition legalChain (nodes : list Node) (b : Breakpoint) : Prop :=
  Forall (fun i => legalBreak nodes i = true) (positionsBack b)
  /\ last (positionsBack b) = Some 0%nat.

(** The offset [i] lies in the run. *)
Definition inRun (i : Z) (r : Run) : Prop := (start r <= i < end_ r)%Z.

(** The totals of [getNextBreakpoint] after the nodes of a list. *)
Definition measure (nodes : list Node) : Totals :=
  fold_left
    (fun sum node =>
       match node with
       | Box w _ _ _ => mkTotals (t_width sum + w) (t_stretch sum) (t_shrink sum)
       | Glue w _ _ st sh =>
           mkTotals (t_width sum + w) (t_stretch sum + st) (t_shrink sum + sh)
       | Penalty _ _ _ => sum
       end)
    nodes (mkTotals 0 0 0).

(** The nodes, shrunk in full, fit the line length at every node. *)
Definition fitsLine (nodes : list Node) (lineLength : Q) : Prop :=
  forall k, (k <= length nodes)%nat ->
    t_width (measure (take k nodes)) - t_shrink (measure (take k nodes))
    <= lineLength.

(** A string with no line feed but at its end. *)
Definition oneParagraph (s : jsstring) : Prop :=
  Forall (fun c => c <> NEWLINE) (removelast s).

(** ** Worked examples *)

(** A font whose glyphs all advance by 10, one glyph per code unit. *)
Definition plainGlyph (c : N) : Glyph := mkGlyph (Z.of_N c) [c] 10 false false.

Definition plainFont : Font := mkFont (fun s => map plainGlyph s) plainGlyph 1.

Definition plainAttrs : Attrs := {[ "font"%string := AFont [plainFont] ]}.

(** A paragraph of one run in [plainFont], with its syllables. *)
Definition paragraphOf (s : string) (syl : list string) : AttributedString :=
  let u := str s in
  mkAttributedString u
    [mkRun 0 (zlength u) plainAttrs
       (Some (map Z.of_nat (seq 0 (length u))))
       (Some (map plainGlyph u))
       (Some (map (fun _ => mkPosition 10 0 0 0) u))]
    (Some (map str syl)) None.

(** "The quickbrown fox", with a hyphenation point inside the long
    word. *)
Definition quickBrown : AttributedString :=
  paragraphOf "The quickbrown fox"
    ["The"; " "; "quick"; "brown"; " "; "fox"]%string.

(** A word wider than the line. *)
Definition longWord : AttributedString :=
  paragraphOf "aaaaaaaaaa" ["aaaaaaaaaa"]%string.

Definition longWordNodes : list Node :=
  [Box 100 0 10 true; Glue 0 10 10 infinity 0; Penalty 0 (- infinity) 1].

(** Three words with glue that stretches little. *)
Definition looseNodes : list Node :=
  [Box 10 0 1 false; Glue 2 1 2 1 0; Box 10 2 3 false; Glue 2 3 4 1 0;
   Box 10 4 5 true; Glue 0 5 5 infinity 0; Penalty 0 (- infinity) 1].

(** A line of one run in [plainFont] with a box of the given width. *)
Definition lineOf (s : string) (width : Q) : AttributedString :=
  let a := paragraphOf s [] in
  mkAttributedString (string_ a) (runs a) None (Some (mkRect 0 0 width 12)).

(** A line above the width of its box, one below it, and one of a single
    glyph. *)
Definition tightLine : AttributedString := lineOf "ab" 19.
Definition looseLine : AttributedString := lineOf "ab cd" 60.

(** Runs that overlap, with two empty runs at the same offset. *)
Definition redAttrs : Attrs := {[ "color"%string := AStr "red" ]}.
Definition bigAttrs : Attrs := {[ "fontSize"%string := ANum 12 ]}.
Definition overlapping : list RunRef :=
  [(0%nat, mkRun 0 10 redAttrs None None None);
   (1%nat, mkRun 5 15 bigAttrs None None None);
   (2%nat, mkRun 3 3 bigAttrs None None None);
   (0%nat, mkRun 3 3 redAttrs None None None);
   (0%nat, mkRun 20 25 redAttrs None None None)].

(** "afib" in one run, with a ligature for "fi": three glyphs for four
    characters. *)
Definition ligatureString : AttributedString :=
  let u := str "afib" in
  mkAttributedString u
    [mkRun 0 4 plainAttrs (Some [0; 1; 1; 2]%Z)
       (Some [plainGlyph 97; mkGlyph 64257 [102; 105]%N 18 true false;
              plainGlyph 98])
       (Some [mkPosition 10 0 0 0; mkPosition 18 0 0 0; mkPosition 10 0 0 0])]
    None None.

(** A container of width 100 and a picture in its upper left corner. *)
Definition column : Rect := mkRect 0 0 100 200.
Definition picture : Rect := mkRect 0 0 40 30.

End Textkit.

(** * Properties *)

(** ** Comparisons on numbers *)

Lemma Qltb_lt (a b : Q) : Qltb a b = true <-> a < b.
Proof.
  unfold Qltb. rewrite negb_true_iff. split.
  - intros H. apply Qnot_le_lt. intros Hle.
    apply Qle_bool_iff in Hle. congruence.
  - intros H. destruct (Qle_bool b a) eqn:E; [|reflexivity].
    apply Qle_bool_iff in E. lra.
Qed.

Lemma Qltb_ge (a b : Q) : Qltb a b = false <-> b <= a.
Proof.
  unfold Qltb. rewrite negb_false_iff. apply Qle_bool_iff.
Qed.

Lemma Qleb_le (a b : Q) : Qleb a b = true <-> a <= b.
Proof. apply Qle_bool_iff. Qed.

Lemma Qleb_gt (a b : Q) : Qleb a b = false <-> b < a.
Proof.
  unfold Qleb. split.
  - intros H. apply Qnot_le_lt. intros Hle.
    apply Qle_bool_iff in Hle. congruence.
  - intros H. destruct (Qle_bool a b) eqn:E; [|reflexivity].
    apply Qle_bool_iff in E. lra.
Qed.

(** ** Pagination *)

Module LayoutSpec.
Import Layout.

(** *** Text splitting under orphan and widow rules *)

Lemma lineIndexAtHeight_room_for_three (node : Node) (avail : Q) a b c d e :
  lines node = [a; b; c; d; e] ->
  Forall (fun l => 0 <= line_height l) (lines node) ->
  heightAtLineIndex node 3 <= avail ->
  avail < heightAtLineIndex node 4 ->
  lineIndexAtHeight node avail = 3%nat.
Proof.
  unfold lineIndexAtHeight, heightAtLineIndex. intros -> Hpos H3 H4.
  repeat match goal with
         | H : Forall _ (_ :: _) |- _ =>
             apply Forall_cons in H; destruct H as [? H]
         end.
  cbn [heightAtLineIndex_from] in H3, H4. cbn [lineIndexAtHeight_from].
  repeat match goal with
         | |- context [Qltb ?x ?y] =>
             let E := fresh "E" in
             destruct (Qltb x y) eqn:E;
             [apply Qltb_lt in E | apply Qltb_ge in E]
         end; try reflexivity; exfalso; lra.
Qed.

(** C2, as stated, fails: with room for exactly three lines of the five
    (height 30), the break is not at line index 2 and the fragment that
    stays does not hold just lines 0..1. *)
Lemma getLineBreak_five_lines_not_two :
  lineIndexAtHeight fiveLines (30 - getTop fiveLines) = 3%nat
  /\ getLineBreak fiveLines 30 <> 2%nat
  /\ lines (fst (splitText fiveLines 30)) <> take 2 (lines fiveLines)
  /\ lines (snd (splitText fiveLines 30)) <> drop 2 (lines fiveLines).
Proof.
  repeat split; vm_compute; congruence.
Qed.

(** C2 (amended): a text node of exactly 5 lines with orphans = 2 and
    widows = 2, split at a height with room for exactly 3 lines, is cut at
    line index 3: lines 0..2 stay on the current fragment and lines 3..4
    move to the next one. *)
Theorem getLineBreak_five_lines (node : Node) (h : Q) :
  length (lines node) = 5%nat ->
  orphans (props node) = Some 2%nat ->
  widows (props node) = Some 2%nat ->
  Forall (fun l => 0 <= line_height l) (lines node) ->
  heightAtLineIndex node 3 <= h - getTop node ->
  h - getTop node < heightAtLineIndex node 4 ->
  getLineBreak node h = 3%nat
  /\ lines (fst (splitText node h)) = take 3 (lines node)
  /\ lines (snd (splitText node h)) = drop 3 (lines node).
Proof.
  intros Hlen Ho Hw Hpos H3 H4.
  assert (Hb : getLineBreak node h = 3%nat).
  { destruct (lines node) as [|a [|b [|c [|d [|e [|f l]]]]]] eqn:Hl;
      try discriminate Hlen.
    unfold getLineBreak.
    rewrite (lineIndexAtHeight_room_for_three node _ a b c d e Hl);
      [|rewrite Hl; exact Hpos|exact H3|exact H4].
    rewrite Ho, Hw, Hl. reflexivity. }
  unfold splitText. rewrite Hb. cbn [fst snd lines]. auto.
Qed.

Lemma getLineBreak_five_lines_witness :
  getLineBreak fiveLines 30 = 3%nat
  /\ lines (fst (splitText fiveLines 30)) = take 3 (lines fiveLines)
  /\ lines (snd (splitText fiveLines 30)) = drop 3 (lines fiveLines).
Proof.
  apply (getLineBreak_five_lines fiveLines 30).
  - reflexivity.
  - reflexivity.
  - reflexivity.
  - repeat constructor; vm_compute; discriminate.
  - vm_compute; discriminate.
  - vm_compute; reflexivity.
Defined.

(** *** Fixed nodes in [splitNodes] *)

Section SplitNodes.

Variable split_child : Node -> Q -> Q -> Node * Node.
Variables height contentArea : Q.

Local Abbreviation go := (splitNodes_with split_child height contentArea).

(** What is already in the two output arrays stays there. *)
Lemma splitNodes_with_acc (nodes cur next : list Node) :
  exists c n, go nodes cur next = (cur ++ c, next ++ n).
Proof.
  revert cur next. induction nodes as [|child future IH]; intros cur next.
  - exists [], []. cbn. by rewrite !app_nil_r.
  - cbn -[shouldBreak getTop isFixed getWrap Qleb Qltb].
    repeat match goal with
           | |- context [if ?b then _ else _] => destruct b
           | |- context [let '(_, _) := ?p in _] => destruct p
           end;
      try (eexists _, _; reflexivity);
      match goal with
      | |- context [go future ?a ?b] =>
          destruct (IH a b) as (cs & ns & ->);
          rewrite <- ?app_assoc; eexists _, _; reflexivity
      end.
Qed.

(** Every fixed node reaches the next page's children, as the same node. *)
Lemma splitNodes_with_fixed_next (nodes cur next : list Node) (x : Node) :
  x ∈ nodes -> isFixed x = true -> x ∈ snd (go nodes cur next).
Proof.
  revert cur next. induction nodes as [|child future IH]; intros cur next Hin Hfix.
  - by apply elem_of_nil in Hin.
  - apply elem_of_cons in Hin. cbn -[shouldBreak getTop isFixed getWrap Qleb Qltb].
    destruct Hin as [-> | Hin].
    + rewrite Hfix.
      destruct (splitNodes_with_acc future (cur ++ [child]) (next ++ [child]))
        as (cs & ns & ->).
      cbn. set_solver.
    + repeat match goal with
             | |- context [if ?b then _ else _] => destruct b
             | |- context [let '(_, _) := ?p in _] => destruct p
             end; cbn [snd]; try (by apply IH); set_solver.
Qed.

(** Unless a child that neither fits a page nor wraps stops the loop,
    every fixed node also stays in the current page's children. *)
Lemma splitNodes_with_fixed_current (nodes cur next : list Node) (x : Node) :
  (forall c, c ∈ nodes ->
     isFixed c = true \/ Qleb (Layout.height (box c)) contentArea = true
     \/ getWrap c = true) ->
  x ∈ nodes -> isFixed x = true -> x ∈ fst (go nodes cur next).
Proof.
  revert cur next.
  induction nodes as [|child future IH]; intros cur next Hok Hin Hfix.
  - by apply elem_of_nil in Hin.
  - assert (Hfut : forall c, c ∈ future ->
              isFixed c = true \/ Qleb (Layout.height (box c)) contentArea = true
              \/ getWrap c = true) by (intros c Hc; apply Hok, elem_of_cons; by right).
    apply elem_of_cons in Hin. cbn -[shouldBreak getTop isFixed getWrap Qleb Qltb].
    destruct Hin as [-> | Hin].
    + rewrite Hfix.
      destruct (splitNodes_with_acc future (cur ++ [child]) (next ++ [child]))
        as (cs & ns & ->).
      cbn. set_solver.
    + assert (Hff : x ∈ List.filter isFixed future).
      { apply list_elem_of_In, filter_In. split; [by apply list_elem_of_In|done]. }
      destruct (isFixed child) eqn:Efix; [by apply IH|].
      destruct (Qleb height (getTop child)); [by apply IH|].
      destruct (Qleb (Layout.height (box child)) contentArea) eqn:Efit.
      * cbn [negb andb].
        repeat match goal with
               | |- context [if ?b then _ else _] => destruct b
               | |- context [let '(_, _) := ?p in _] => destruct p
               end; cbn [fst]; try (by apply IH); set_solver.
      * destruct (getWrap child) eqn:Ewrap.
        -- cbn [negb andb].
           repeat match goal with
                  | |- context [if ?b then _ else _] => destruct b
                  | |- context [let '(_, _) := ?p in _] => destruct p
                  end; cbn [fst]; try (by apply IH); set_solver.
        -- exfalso. destruct (Hok child) as [H|[H|H]]; [set_solver|congruence..].
Qed.

(** When every node is fixed, both output arrays are the input. *)
Lemma splitNodes_with_all_fixed (nodes cur next : list Node) :
  allFixed nodes = true -> go nodes cur next = (cur ++ nodes, next ++ nodes).
Proof.
  revert cur next. induction nodes as [|child future IH]; intros cur next Hall.
  - cbn. by rewrite !app_nil_r.
  - cbn in Hall. apply andb_true_iff in Hall as [Hc Hf].
    cbn -[shouldBreak getTop isFixed getWrap Qleb Qltb]. rewrite Hc, IH by done.
    by rewrite <- !app_assoc.
Qed.

End SplitNodes.

(** C8: at a child that neither fits the page nor can wrap, [splitNodes]
    stops and moves the nodes after it to the next page only: the fixed
    footer after an oversized image is a child of the next page and not
    of the current one, although every other path replicates the fixed
    nodes onto both. *)
Theorem splitNodes_nowrap_drops_fixed :
  isFixed footer = true
  /\ splitNodes 100 100 [bigImage; footer] = ([bigImage], [footer])
  /\ ~ (footer ∈ fst (splitNodes 100 100 [bigImage; footer]))
  /\ footer ∈ snd (splitNodes 100 100 [bigImage; footer]).
Proof.
  assert (E : splitNodes 100 100 [bigImage; footer] = ([bigImage], [footer]))
    by (vm_compute; reflexivity).
  rewrite E. cbn [fst snd]. repeat split.
  - intros H. apply list_elem_of_singleton in H. discriminate H.
  - by apply list_elem_of_singleton.
Qed.

(** *** Continuation pages *)

Section PaginationSpec.

Variable relayoutPage : PageNode -> PageNode.
Variable resolveDynamicPage : nat -> PageNode -> PageNode.

Local Abbreviation splitPage := (splitPage relayoutPage resolveDynamicPage).
Local Abbreviation paginate := (paginate relayoutPage resolveDynamicPage).
Local Abbreviation paginate_loop := (paginate_loop relayoutPage resolveDynamicPage).
Local Abbreviation nextChildsOf := (nextChildsOf resolveDynamicPage).

Lemma splitPage_next_None (page : PageNode) (pageNumber : nat) :
  nextChildsOf page pageNumber = [] \/
  allFixed (nextChildsOf page pageNumber) = true ->
  snd (splitPage page pageNumber) = None.
Proof.
  unfold nextChildsOf, Layout.splitPage. intros H.
  destruct (splitNodes _ _ _) as [cur next]. cbn [snd] in H.
  destruct H as [-> | ->].
  - reflexivity.
  - by rewrite orb_true_r.
Qed.

(** Once the loop of [paginate] has ended, more fuel gives the same
    pages. *)
Lemma paginate_loop_more_fuel (fuel extra pageNumber : nat) pages nextPage r :
  paginate_loop fuel pageNumber pages nextPage = Some r ->
  paginate_loop (fuel + extra) pageNumber pages nextPage = Some r.
Proof.
  revert pages nextPage. induction fuel as [|fuel IH]; intros pages nextPage.
  - destruct nextPage; cbn; [discriminate|]. intros H.
    destruct extra; exact H.
  - destruct nextPage; cbn; [|done]. apply IH.
Qed.


End PaginationSpec.


(** ** More on text splitting *)

Lemma lineIndexAtHeight_from_range (ls : list Line) (height : Q) :
  forall y i,
    (i <= lineIndexAtHeight_from ls height y i <= i + length ls)%nat.
Proof.
  induction ls as [|line rest IH]; intros y i; cbn [lineIndexAtHeight_from length];
    [lia|].
  destruct (Qltb height (y + line_height line)); [lia|].
  specialize (IH (y + line_height line) (S i)). lia.
Qed.

Lemma heightAtLineIndex_from_0 (ls : list Line) (counter : Q) :
  heightAtLineIndex_from ls 0 counter = counter.
Proof. by destruct ls. Qed.

Lemma lineIndexAtHeight_from_spec (ls : list Line) (height : Q) :
  forall y i,
    y <= height ->
    let r := lineIndexAtHeight_from ls height y i in
    heightAtLineIndex_from ls (r - i) y <= height
    /\ ((r - i < length ls)%nat ->
        height < heightAtLineIndex_from ls (S (r - i)) y).
Proof.
  induction ls as [|line rest IH]; intros y i Hy; cbn zeta.
  - cbn [lineIndexAtHeight_from length]. rewrite Nat.sub_diag.
    rewrite heightAtLineIndex_from_0. split; [assumption|]. intros H.
    by apply Nat.lt_irrefl in H.
  - cbn [lineIndexAtHeight_from length].
    destruct (Qltb height (y + line_height line)) eqn:E.
    + apply Qltb_lt in E. rewrite Nat.sub_diag.
      cbn [heightAtLineIndex_from]. rewrite !heightAtLineIndex_from_0.
      split; [assumption|]. by intros _.
    + apply Qltb_ge in E.
      pose proof (lineIndexAtHeight_from_range rest height
                    (y + line_height line) (S i)) as Hr.
      specialize (IH (y + line_height line) (S i) E).
      cbn zeta in IH. destruct IH as (Hfit & Hnext).
      set (r := lineIndexAtHeight_from rest height _ _) in *.
      replace (r - i)%nat with (S (r - S i)) by lia.
      cbn [heightAtLineIndex_from]. split; [exact Hfit|].
      intros Hlt. apply Hnext. lia.
Qed.

(** X1: the lines before the index that [lineIndexAtHeight] returns fit in
    the height, and the line at the index, if there is one, does not fit
    with them. *)
Theorem lineIndexAtHeight_fits (node : Node) (height : Q) :
  0 <= height ->
  let i := lineIndexAtHeight node height in
  (i <= length (lines node))%nat
  /\ heightAtLineIndex node i <= height
  /\ ((i < length (lines node))%nat -> height < heightAtLineIndex node (S i)).
Proof.
  intros Hh. cbn zeta. unfold lineIndexAtHeight, heightAtLineIndex.
  pose proof (lineIndexAtHeight_from_range (lines node) height 0 0) as Hr.
  destruct (lineIndexAtHeight_from_spec (lines node) height 0 0 Hh)
    as (Hfit & Hnext).
  rewrite Nat.sub_0_r in Hfit, Hnext. split; [lia|]. split; assumption.
Qed.

Lemma lineIndexAtHeight_fits_witness :
  (lineIndexAtHeight fiveLines 36 <= length (lines fiveLines))%nat
  /\ heightAtLineIndex fiveLines (lineIndexAtHeight fiveLines 36) <= 36
  /\ ((lineIndexAtHeight fiveLines 36 < length (lines fiveLines))%nat ->
      36 < heightAtLineIndex fiveLines (S (lineIndexAtHeight fiveLines 36))).
Proof. apply (lineIndexAtHeight_fits fiveLines 36). by vm_compute. Defined.

(** X2: [getLineBreak] and the orphan and widow rules: the cut is at line 0
    (the whole text moves), or the text has fewer lines than [orphans] and
    all of them stay, or at least [orphans] lines stay, at least [widows]
    lines move, and no more lines stay than fit. *)
Theorem getLineBreak_orphans_widows (node : Node) (height : Q) :
  let r := getLineBreak node height in
  let n := length (lines node) in
  let o := nat_or (orphans (props node)) 2 in
  let w := nat_or (widows (props node)) 2 in
  r = 0%nat
  \/ ((n < o)%nat /\ r = n)
  \/ ((o <= r)%nat /\ (w <= n - r)%nat /\ (r <= n)%nat
      /\ (r <= lineIndexAtHeight node (height - getTop node))%nat).
Proof.
  cbn zeta. unfold getLineBreak.
  set (n := length (lines node)). set (o := nat_or (orphans (props node)) 2).
  set (w := nat_or (widows (props node)) 2).
  set (s := lineIndexAtHeight node (height - getTop node)).
  assert (Hs : (s <= n)%nat).
  { unfold s, lineIndexAtHeight.
    pose proof (lineIndexAtHeight_from_range (lines node)
                  (height - getTop node) 0 0).
    unfold n. lia. }
  destruct (Nat.eqb_spec s 0); [by left|].
  destruct (Nat.ltb_spec n o); [right; left; done|].
  destruct (Nat.ltb_spec s o); cbn [orb]; [by left|].
  destruct (Nat.ltb_spec n (o + w)); [by left|].
  destruct (Nat.eqb_spec n (o + w)); [right; right; lia|].
  destruct (Nat.ltb_spec (n - s) w); right; right; lia.
Qed.

Lemma heightAtLineIndex_from_shift (ls : list Line) (index : nat) (c d : Q) :
  heightAtLineIndex_from ls index (c + d)
  == heightAtLineIndex_from ls index c + d.
Proof.
  revert c index. induction ls as [|line rest IH]; intros c [|index];
    cbn [heightAtLineIndex_from]; try reflexivity.
  rewrite <- IH.
  assert (H : forall ls' i a b, a == b ->
              heightAtLineIndex_from ls' i a == heightAtLineIndex_from ls' i b).
  { clear. induction ls' as [|l ls' IH]; intros [|i] a b Hab;
      cbn [heightAtLineIndex_from]; try assumption.
    apply IH. by rewrite Hab. }
  apply H. ring.
Qed.

Lemma heightAtLineIndex_from_mono (ls : list Line) :
  Forall (fun l => 0 <= line_height l) ls ->
  forall index index' counter,
    (index <= index')%nat ->
    heightAtLineIndex_from ls index counter
    <= heightAtLineIndex_from ls index' counter.
Proof.
  induction 1 as [|line rest Hl Hrest IH]; intros index index' counter Hi.
  - destruct index, index'; cbn; lra.
  - destruct index as [|index], index' as [|index']; cbn [heightAtLineIndex_from];
      [lra| |lia|apply IH; lia].
    specialize (IH 0%nat index' (counter + line_height line) ltac:(lia)).
    rewrite heightAtLineIndex_from_0 in IH. lra.
Qed.

Lemma getLineBreak_le (node : Node) (height : Q) :
  getLineBreak node height = 0%nat
  \/ (length (lines node) < nat_or (orphans (props node)) 2)%nat
  \/ (getLineBreak node height
      <= lineIndexAtHeight node (height - getTop node))%nat.
Proof.
  unfold getLineBreak.
  set (n := length (lines node)). set (o := nat_or (orphans (props node)) 2).
  set (w := nat_or (widows (props node)) 2).
  set (s := lineIndexAtHeight node (height - getTop node)).
  destruct (Nat.eqb_spec s 0); [by left|].
  destruct (Nat.ltb_spec n o); [right; by left|].
  destruct (Nat.ltb_spec s o); cbn [orb]; [by left|].
  destruct (Nat.ltb_spec n (o + w)); [by left|].
  destruct (Nat.eqb_spec n (o + w)); [right; right; lia|].
  destruct (Nat.ltb_spec (n - s) w); right; right; lia.
Qed.

(** X3: [splitText] loses no line and no height, the part that moves starts
    at the top, and the part that stays fits in the height left under the
    top of the node, when the text has as many lines as [orphans] asks for. *)
Theorem splitText_fits (node : Node) (height : Q) :
  let current := (splitText node height).1 in
  let next := (splitText node height).2 in
  lines current ++ lines next = lines node
  /\ Layout.height (box current) + Layout.height (box next)
     == Layout.height (box node)
  /\ top (box next) = 0
  /\ (Forall (fun l => 0 <= line_height l) (lines node) ->
      0 <= height - getTop node ->
      (nat_or (orphans (props node)) 2 <= length (lines node))%nat ->
      Layout.height (box current) <= height - getTop node).
Proof.
  cbn zeta. unfold splitText. cbn [fst snd lines box Layout.height top].
  split; [apply take_drop|]. split; [ring|]. split; [done|].
  intros Hpos Hh Ho.
  destruct (lineIndexAtHeight_from_spec (lines node) (height - getTop node)
              0 0 Hh) as (Hfit & _).
  rewrite Nat.sub_0_r in Hfit.
  destruct (getLineBreak_le node height) as [Hr|[Hn|Hle]].
  - rewrite Hr. unfold heightAtLineIndex.
    by rewrite heightAtLineIndex_from_0.
  - lia.
  - eapply Qle_trans; [|exact Hfit]. unfold heightAtLineIndex.
    by apply heightAtLineIndex_from_mono.
Qed.

Lemma splitText_fits_witness :
  lines (splitText fiveLines 36).1 ++ lines (splitText fiveLines 36).2
  = lines fiveLines
  /\ Layout.height (box (splitText fiveLines 36).1)
     + Layout.height (box (splitText fiveLines 36).2)
     == Layout.height (box fiveLines)
  /\ top (box (splitText fiveLines 36).2) = 0
  /\ Layout.height (box (splitText fiveLines 36).1) <= 36 - getTop fiveLines.
Proof.
  destruct (splitText_fits fiveLines 36) as (H1 & H2 & H3 & H4).
  split; [exact H1|]. split; [exact H2|]. split; [exact H3|].
  apply H4.
  - repeat constructor; by vm_compute.
  - by vm_compute.
  - vm_compute. lia.
Defined.

(** ** More on [splitNodes] *)

(** X4: every fixed node is a child of the next page, and also of the
    current page when no child is both too tall for a page and unable to
    wrap. *)
Theorem splitNodes_fixed_both (height contentArea : Q) (nodes : list Node)
    (x : Node) :
  x ∈ nodes -> isFixed x = true ->
  x ∈ (splitNodes height contentArea nodes).2
  /\ ((forall c, c ∈ nodes ->
         isFixed c = true
         \/ Qleb (Layout.height (box c)) contentArea = true
         \/ getWrap c = true) ->
      x ∈ (splitNodes height contentArea nodes).1).
Proof.
  intros Hin Hfix. unfold splitNodes. split.
  - by apply splitNodes_with_fixed_next.
  - intros Hok. by apply splitNodes_with_fixed_current.
Qed.

Lemma splitNodes_fixed_both_witness :
  footer ∈ (splitNodes 100 100 [fiveLines; footer]).2
  /\ footer ∈ (splitNodes 100 100 [fiveLines; footer]).1.
Proof.
  destruct (splitNodes_fixed_both 100 100 [fiveLines; footer] footer)
    as [H1 H2].
  - apply elem_of_cons. right. apply elem_of_cons. by left.
  - reflexivity.
  - split; [exact H1|]. apply H2. intros c Hc.
    apply elem_of_cons in Hc as [-> | Hc]; [right; right; reflexivity|].
    apply elem_of_cons in Hc as [-> | Hc]; [left; reflexivity|].
    by apply elem_of_nil in Hc.
Defined.

Section CurrentPage.

Variable split_child : Node -> Q -> Q -> Node * Node.
Variables height contentArea : Q.
Hypothesis split_child_top :
  forall c h ca, top (box (split_child c h ca).1) = top (box c).

Local Abbreviation go := (splitNodes_with split_child height contentArea).

Lemma splitNodes_with_above (nodes cur next : list Node) :
  (forall x, x ∈ cur -> isFixed x = false -> getTop x < height) ->
  forall x, x ∈ (go nodes cur next).1 -> isFixed x = false -> getTop x < height.
Proof.
  revert cur next. induction nodes as [|child future IH]; intros cur next Hcur.
  - exact Hcur.
  - cbn -[shouldBreak getTop isFixed getWrap Qleb Qltb].
    assert (Hfixed : forall x,
               x ∈ List.filter isFixed future -> isFixed x = false -> 
               getTop x < height).
    { intros x Hx Hnf. apply list_elem_of_In, filter_In in Hx as [_ Hx].
      congruence. }
    assert (Hsnoc : forall y l,
               (forall x, x ∈ l -> isFixed x = false -> getTop x < height) ->
               (isFixed y = false -> getTop y < height) ->
               forall x, x ∈ cur ++ y :: l -> isFixed x = false ->
                         getTop x < height).
    { intros y l Hl Hy x Hx Hnf. apply elem_of_app in Hx as [Hx|Hx];
        [by apply Hcur|].
      apply elem_of_cons in Hx as [-> | Hx]; [by apply Hy|by apply Hl]. }
    assert (Hnil : forall x : Node, x ∈ @nil Node -> isFixed x = false ->
                                    getTop x < height).
    { intros x Hx. by apply elem_of_nil in Hx. }
    destruct (isFixed child) eqn:Efix.
    { apply IH. apply Hsnoc; [exact Hnil|congruence]. }
    destruct (Qleb height (getTop child)) eqn:Eout; [by apply IH|].
    apply Qleb_gt in Eout.
    destruct (negb _ && negb _).
    { cbn [fst]. apply Hsnoc; [exact Hnil|done]. }
    destruct (shouldBreak child future height).
    { cbn [fst]. intros x Hx Hnf. apply elem_of_app in Hx as [Hx|Hx];
        [by apply Hcur|by apply Hfixed]. }
    destruct (Qltb _ _).
    + destruct (split_child child height contentArea) as [c n] eqn:Es.
      destruct (_ && _).
      * destruct (_ =? _)%nat; cbn [fst].
        -- apply Hsnoc; [exact Hfixed|done].
        -- intros x Hx Hnf. apply elem_of_app in Hx as [Hx|Hx];
             [by apply Hcur|by apply Hfixed].
      * apply IH. apply Hsnoc; [exact Hnil|]. intros _.
        pose proof (split_child_top child height contentArea) as Ht.
        rewrite Es in Ht. cbn [fst] in Ht. unfold getTop in *.
        by rewrite Ht.
    + apply IH. apply Hsnoc; [exact Hnil|done].
Qed.

End CurrentPage.

Lemma split_current_top (node : Node) (height contentArea : Q) :
  top (box (split node height contentArea).1) = top (box node).
Proof.
  destruct node as [t p s b l c]. cbn [split].
  destruct (isText _); [reflexivity|].
  cbn -[splitNodes_with]. by destruct (splitNodes_with _ _ _ _ _ _).
Qed.

(** X5: no node that is not fixed and starts at or below the cut is a child
    of the current page. *)
Theorem splitNodes_current_above_cut (height contentArea : Q)
    (nodes : list Node) (x : Node) :
  x ∈ (splitNodes height contentArea nodes).1 -> isFixed x = false ->
  getTop x < height.
Proof.
  unfold splitNodes. apply splitNodes_with_above.
  - apply split_current_top.
  - intros y Hy. by apply elem_of_nil in Hy.
Qed.

Lemma splitNodes_current_above_cut_witness :
  getTop (split fiveLines 36 100).1 < 36.
Proof.
  apply (splitNodes_current_above_cut 36 100 [fiveLines; footer]).
  - vm_compute. apply elem_of_cons. by left.
  - reflexivity.
Defined.

(** ** No node is lost *)

Section NoNodeLost.

Variable split_child : Node -> Q -> Q -> Node * Node.
Variables height contentArea : Q.

Local Abbreviation go := (splitNodes_with split_child height contentArea).

Lemma splitNodes_with_keeps (nodes cur next : list Node) (x : Node) :
  x ∈ nodes ->
  x ∈ (go nodes cur next).1
  \/ x ∈ (go nodes cur next).2
  \/ moveDown height x ∈ (go nodes cur next).2
  \/ set_props (breakProps (props x)) (moveDown height x)
     ∈ (go nodes cur next).2
  \/ ((split_child x height contentArea).1 ∈ (go nodes cur next).1
      /\ (split_child x height contentArea).2 ∈ (go nodes cur next).2).
Proof.
  revert cur next. induction nodes as [|child future IH]; intros cur next Hin.
  - by apply elem_of_nil in Hin.
  - apply elem_of_cons in Hin.
    cbn -[shouldBreak getTop isFixed getWrap Qleb Qltb moveDown breakProps].
    destruct Hin as [-> | Hin].
    + (* the child itself *)
      destruct (isFixed child).
      { destruct (splitNodes_with_acc split_child height contentArea future
                    (cur ++ [child]) (next ++ [child])) as (cs & ns & ->).
        left. cbn. set_solver. }
      destruct (Qleb height (getTop child)).
      { destruct (splitNodes_with_acc split_child height contentArea future
                    cur (next ++ [moveDown height child])) as (cs & ns & ->).
        right; right; left. cbn. set_solver. }
      destruct (negb _ && negb _); [left; cbn; set_solver|].
      destruct (shouldBreak child future height).
      { right; right; right; left. cbn. set_solver. }
      destruct (Qltb _ _).
      * destruct (split_child child height contentArea) as [c n] eqn:Es.
        destruct (_ && _).
        -- destruct (_ =? _)%nat.
           ++ left. cbn. set_solver.
           ++ right; right; left. cbn. set_solver.
        -- destruct (splitNodes_with_acc split_child height contentArea future
                       (cur ++ [c]) (next ++ [n])) as (cs & ns & ->).
           right; right; right; right. cbn. set_solver.
      * destruct (splitNodes_with_acc split_child height contentArea future
                    (cur ++ [child]) next) as (cs & ns & ->).
        left. cbn. set_solver.
    + (* a later node *)
      destruct (isFixed child); [by apply IH|].
      destruct (Qleb height (getTop child)); [by apply IH|].
      destruct (negb _ && negb _); [right; left; cbn; set_solver|].
      destruct (shouldBreak child future height);
        [right; left; cbn; set_solver|].
      destruct (Qltb _ _); [|by apply IH].
      destruct (split_child child height contentArea) as [c n] eqn:Es.
      destruct (_ && _); [|by apply IH].
      destruct (_ =? _)%nat; right; left; cbn; set_solver.
Qed.

End NoNodeLost.

(** X24: [splitNodes] loses no node: every node given is found on one of
    the two pages, as it is, moved up by the height of the cut (with or
    without the props of a break), or as its two parts, the first on the
    current page and the second on the next. *)
Theorem splitNodes_keeps_all (height contentArea : Q) (nodes : list Node)
    (x : Node) :
  x ∈ nodes ->
  let r := splitNodes height contentArea nodes in
  x ∈ r.1
  \/ x ∈ r.2
  \/ moveDown height x ∈ r.2
  \/ set_props (breakProps (props x)) (moveDown height x) ∈ r.2
  \/ ((split x height contentArea).1 ∈ r.1
      /\ (split x height contentArea).2 ∈ r.2).
Proof.
  intros Hin. cbn zeta. unfold splitNodes.
  by apply splitNodes_with_keeps.
Qed.

Lemma splitNodes_keeps_all_witness :
  let r := splitNodes 36 100 [fiveLines; footer] in
  fiveLines ∈ r.1
  \/ fiveLines ∈ r.2
  \/ moveDown 36 fiveLines ∈ r.2
  \/ set_props (breakProps (props fiveLines)) (moveDown 36 fiveLines) ∈ r.2
  \/ ((split fiveLines 36 100).1 ∈ r.1 /\ (split fiveLines 36 100).2 ∈ r.2).
Proof.
  apply (splitNodes_keeps_all 36 100 [fiveLines; footer] fiveLines).
  apply elem_of_cons. by left.
Defined.

End LayoutSpec.

(** ** The line breaker *)

Module TextkitSpec.
Import Textkit.

(** ** Slices of arrays and strings *)

Lemma js_slice_range {A : Type} (a b : Z) (l : list A) :
  (0 <= a <= b)%Z -> (b <= zlength l)%Z ->
  js_slice a (Fin b) l = take (Z.to_nat b - Z.to_nat a) (drop (Z.to_nat a) l).
Proof.
  unfold js_slice, rel_index, zlength. intros Hab Hb.
  replace (a <? 0)%Z with false by lia. replace (b <? 0)%Z with false by lia.
  rewrite !Z.min_l by lia. f_equal. lia.
Qed.

Lemma js_slice_all {A : Type} (l : list A) : js_slice 0 (Fin (zlength l)) l = l.
Proof.
  rewrite js_slice_range by (unfold zlength; lia).
  unfold zlength. rewrite Nat2Z.id. cbn. rewrite Nat.sub_0_r. apply firstn_all.
Qed.

Lemma js_slice_from_end {A : Type} (l : list A) :
  js_slice (zlength l) Infinity l = [].
Proof.
  unfold js_slice, rel_index, zlength.
  destruct (Z.ltb_spec (Z.of_nat (length l)) 0); [lia|].
  rewrite Z.min_l by lia. rewrite Z.sub_diag. reflexivity.
Qed.

Lemma js_slice_nil {A : Type} (a : Z) (e : Idx) : js_slice a e (@nil A) = [].
Proof. unfold js_slice. by rewrite drop_nil, take_nil. Qed.

(** Two adjacent slices make one. *)
Lemma js_slice_app {A : Type} (a b c : Z) (l : list A) :
  (0 <= a <= b)%Z -> (b <= c)%Z -> (c <= zlength l)%Z ->
  js_slice a (Fin b) l ++ js_slice b (Fin c) l = js_slice a (Fin c) l.
Proof.
  intros Hab Hbc Hc. rewrite !js_slice_range by lia.
  replace (drop (Z.to_nat b) l)
    with (drop (Z.to_nat b - Z.to_nat a) (drop (Z.to_nat a) l))
    by (rewrite drop_drop; f_equal; lia).
  rewrite take_take_drop. f_equal. lia.
Qed.

Lemma js_slice_empty {A : Type} (a : Z) (l : list A) :
  (0 <= a)%Z -> js_slice a (Fin a) l = [].
Proof.
  intros Ha. unfold js_slice, rel_index.
  replace (a <? 0)%Z with false by lia. by rewrite Z.sub_diag.
Qed.

(** ** The lines cut by [breakLines] *)

Lemma slice_string (s e : Z) (a : AttributedString) :
  string_ (slice s e a) = js_slice s (Fin e) (string_ a).
Proof.
  unfold slice. destruct (length (string_ a) =? 0)%nat eqn:E; [|reflexivity].
  apply Nat.eqb_eq in E. destruct (string_ a); [|discriminate].
  by rewrite js_slice_nil.
Qed.

(** The hyphen goes after the characters of the line. *)
Lemma insertGlyph_string (line line' : AttributedString) :
  insertGlyph (zlength (string_ line)) HYPHEN line = Some line' ->
  string_ line' = string_ line ++ [HYPHEN].
Proof.
  unfold insertGlyph. destruct (_ =? -1)%Z.
  - unfold append. destruct (append1 _ _); [|discriminate].
    intros [= <-]. reflexivity.
  - destruct (imapM_from _ _ _); [|discriminate]. intros [= <-]. cbn [string_].
    rewrite js_slice_all, js_slice_from_end. reflexivity.
Qed.

Lemma cutsOf_lookup (nodes : list Node) (prev : option Z) (i : nat) (n : Node) :
  nodes !! i = Some n ->
  cutsOf prev nodes !! i
  = Some (match n with
          | Penalty _ _ _ =>
              match i with
              | O => prev
              | S k => nodes !! k ≫= node_end
              end
          | _ => node_end n
          end).
Proof.
  revert prev i. induction nodes as [|m rest IH]; intros prev i Hn; [done|].
  destruct i as [|i]; cbn in Hn |- *.
  - injection Hn as ->. reflexivity.
  - rewrite (IH _ _ Hn). destruct n; try reflexivity.
    destruct i as [|i]; [|reflexivity]. cbn.
    by destruct rest.
Qed.

Lemma cutsOf_length (nodes : list Node) (prev : option Z) :
  length (cutsOf prev nodes) = length nodes.
Proof. revert prev. induction nodes; intros; cbn; [done|]. by rewrite IHnodes. Qed.

Lemma cutsFrom_weaken (lo lo' : Z) (cuts : list (option Z)) :
  (lo' <= lo)%Z -> cutsFrom lo cuts -> cutsFrom lo' cuts.
Proof.
  revert lo lo'. induction cuts as [|[c|] rest IH]; intros lo lo' Hle; cbn.
  - done.
  - intros [? ?]. split; [lia|done].
  - by apply IH.
Qed.

Lemma cutsFrom_lookup (lo : Z) (cuts : list (option Z)) (i : nat) (c : Z) :
  cutsFrom lo cuts -> cuts !! i = Some (Some c) -> (lo <= c)%Z.
Proof.
  revert lo i. induction cuts as [|[d|] rest IH]; intros lo i H Hi; [done|..].
  - destruct i as [|i]; cbn in *.
    + injection Hi as ->. tauto.
    + destruct H as [? H]. specialize (IH _ _ H Hi). lia.
  - destruct i as [|i]; cbn in *; [done|]. by eapply IH.
Qed.

Lemma cutsFrom_mono (lo : Z) (cuts : list (option Z)) (i j : nat) (ci cj : Z) :
  cutsFrom lo cuts -> (i <= j)%nat ->
  cuts !! i = Some (Some ci) -> cuts !! j = Some (Some cj) -> (ci <= cj)%Z.
Proof.
  revert lo i j. induction cuts as [|[d|] rest IH]; intros lo i j H Hij Hi Hj;
    [done|..].
  - destruct i as [|i]; cbn in *.
    + injection Hi as ->. destruct j as [|j]; cbn in Hj.
      * injection Hj as ->. lia.
      * destruct H as [_ H]. by eapply cutsFrom_lookup.
    + destruct j as [|j]; [lia|]. cbn in Hj. destruct H as [_ H].
      eapply (IH _ i j); eauto with lia.
  - destruct i as [|i]; cbn in *; [done|].
    destruct j as [|j]; [lia|]. cbn in Hj. eapply (IH _ i j); eauto with lia.
Qed.

(** One break either leaves the state as it is (the break at the final
    penalty) or adds the line up to the cut of the break. *)
Lemma breakLine_spec (a : AttributedString) (nodes : list Node)
    (acc acc' : list AttributedString) (start start' : Z) (b : nat) :
  breakLine a nodes (acc, start) b = Some (acc', start') ->
  (acc' = acc /\ start' = start)
  \/ (cutsOf None nodes !! b = Some (Some start')
      /\ exists line hyph,
          acc' = acc ++ [line]
          /\ string_ line
             = renderCut (js_slice start (Fin start') (string_ a), hyph)).
Proof.
  unfold breakLine.
  destruct ((b =? length nodes - 1)%nat && (0 <? length nodes)%nat).
  { intros [= <- <-]. by left. }
  destruct (nodes !! b) as [n|] eqn:Hn; [|discriminate].
  rewrite (cutsOf_lookup _ None _ _ Hn).
  destruct n as [w s e h|w s e st sh|w p f]; cbn [node_end].
  - intros [= <- <-]. right. split; [done|].
    exists (slice start e a), false. split; [done|].
    unfold renderCut. cbn. by rewrite slice_string, app_nil_r.
  - intros [= <- <-]. right. split; [done|].
    exists (slice start e a), false. split; [done|].
    unfold renderCut. cbn. by rewrite slice_string, app_nil_r.
  - destruct b as [|k]; [done|].
    destruct (nodes !! k) as [prev|]; [|done]. cbn [mbind option_bind].
    destruct (node_end prev) as [e|]; [|discriminate].
    destruct (insertGlyph _ _ _) as [line|] eqn:Hins; [|discriminate].
    intros [= <- <-]. right. split; [done|].
    exists line, true. split; [done|].
    apply insertGlyph_string in Hins. rewrite Hins, slice_string.
    reflexivity.
Qed.

Lemma breakLines_from_cover (a : AttributedString) (nodes : list Node) (L : Z) :
  zlength (string_ a) = L ->
  cutsFrom 0 (cutsOf None nodes) ->
  (forall i c, cutsOf None nodes !! i = Some (Some c) -> (c <= L)%Z) ->
  forall breaks acc start acc' start',
    StronglySorted le breaks ->
    (0 <= start <= L)%Z ->
    (forall b c, b ∈ breaks -> cutsOf None nodes !! b = Some (Some c) ->
                 (start <= c)%Z) ->
    breakLines_from a nodes breaks (acc, start) = Some (acc', start') ->
    exists cuts,
      map string_ acc' = map string_ acc ++ map renderCut cuts
      /\ concat (cuts.*1) = js_slice start (Fin start') (string_ a)
      /\ (start <= start' <= L)%Z.
Proof.
  intros HL Hmono Hbound.
  induction breaks as [|b rest IH]; intros acc start acc' start' Hsort Hst Hlow.
  - cbn. intros [= <- <-]. exists []. cbn. rewrite app_nil_r.
    split; [done|]. split; [|lia]. by rewrite js_slice_empty by lia.
  - cbn [breakLines_from].
    destruct (breakLine a nodes (acc, start) b) as [[acc1 start1]|] eqn:Hb;
      [|discriminate].
    apply StronglySorted_inv in Hsort as [Hsort Hall].
    intros Hrest. apply breakLine_spec in Hb as [[-> ->]|(Hcut & line & hyph & -> & Hline)].
    + apply (IH _ _ _ _ Hsort Hst) in Hrest; [done|].
      intros b' c Hb'. apply Hlow. by right.
    + assert (Hs1 : (start <= start1 <= L)%Z).
      { split; [eapply Hlow; [by left|done]|by eapply Hbound]. }
      apply (IH _ _ _ _ Hsort) in Hrest as (cuts & Hmap & Hcat & Hs').
      * exists ((js_slice start (Fin start1) (string_ a), hyph) :: cuts).
        split; [|split; [|lia]].
        -- rewrite Hmap, map_app. cbn. rewrite Hline, <- app_assoc. done.
        -- cbn. rewrite Hcat. apply js_slice_app; lia.
      * lia.
      * intros b' c Hb' Hc. rewrite Forall_forall in Hall.
        assert (b <= b')%nat by (by apply Hall).
        eapply (cutsFrom_mono _ _ b b'); eauto.
Qed.

(** The lines of [breakLines], hyphens apart, make up the string again. *)
Lemma breakLines_cover (a : AttributedString) (nodes : list Node)
    (breaks : list nat) (lines : list AttributedString) :
  cutsFrom 0 (cutsOf None nodes) ->
  (forall i c, cutsOf None nodes !! i = Some (Some c) ->
               (c <= zlength (string_ a))%Z) ->
  StronglySorted le breaks ->
  breakLines a nodes breaks = Some lines ->
  exists cuts,
    map string_ lines = map renderCut cuts
    /\ concat (cuts.*1) = string_ a.
Proof.
  intros Hmono Hbound Hsort. unfold breakLines.
  destruct (breakLines_from _ _ _ _) as [[ls start]|] eqn:Hfrom; [|discriminate].
  intros [= <-].
  eapply (breakLines_from_cover a nodes _ eq_refl Hmono Hbound) in Hfrom
    as (cuts & Hmap & Hcat & Hs); eauto.
  - exists (cuts ++ [(js_slice start (Fin (zlength (string_ a))) (string_ a), false)]).
    split.
    + rewrite !map_app, Hmap. cbn.
      rewrite slice_string. unfold renderCut. cbn. by rewrite app_nil_r.
    + rewrite fmap_app, concat_app, Hcat. cbn. rewrite app_nil_r.
      rewrite js_slice_app by (unfold zlength in *; lia). apply js_slice_all.
  - unfold zlength; lia.
  - intros b c _ Hc. eapply cutsFrom_lookup; eauto.
Qed.

(** ** The node stream of a paragraph *)

Lemma zlength_app {A : Type} (l k : list A) :
  zlength (l ++ k) = (zlength l + zlength k)%Z.
Proof. unfold zlength. rewrite length_app. lia. Qed.

Lemma zlength_nonneg {A : Type} (l : list A) : (0 <= zlength l)%Z.
Proof. unfold zlength. lia. Qed.

(** The nodes of the syllables: the end offsets never decrease, a
    penalty follows a box, and the offset reached is the start plus the
    length of the syllables. *)
Lemma getNodes_from_cuts (a : AttributedString) (hp : Q) (K : list Node)
    (syl : list jsstring) :
  (forall prev, cutsOf prev K = cutsOf None K) ->
  forall start prev,
    let nodes := (getNodes_from a hp syl start).1 in
    let final := (getNodes_from a hp syl start).2 in
    final = (start + zlength (concat syl))%Z
    /\ cutsOf prev (nodes ++ K) = cutsOf None (nodes ++ K)
    /\ (cutsFrom final (cutsOf None K) ->
        cutsFrom start (cutsOf None (nodes ++ K))).
Proof.
  intros HK. induction syl as [|s rest IH]; intros start prev.
  - cbn. split; [unfold zlength; cbn; lia|]. split; [apply HK|done].
  - cbn [getNodes_from].
    destruct (getNodes_from a hp rest (start + zlength s)) as [more final] eqn:E.
    pose proof (IH (start + zlength s)%Z) as IH'. rewrite E in IH'. cbn in IH'.
    destruct (IH' None) as (Hfinal & _ & Hcuts).
    assert (Hany : forall prev,
               cutsOf prev (more ++ K) = cutsOf None (more ++ K))
      by (intros q; apply (IH' q)).
    pose proof (zlength_nonneg s) as Hs.
    cbn [fst snd concat]. rewrite zlength_app. split; [lia|].
    destruct (isBlank s).
    + cbn. split; [done|]. rewrite Hany. intros HKf. split; [lia|].
      by apply Hcuts.
    + destruct (_ && _); cbn.
      * split; [done|]. intros HKf. repeat split; try lia. by apply Hcuts.
      * split; [done|]. rewrite Hany. intros HKf. split; [lia|].
        by apply Hcuts.
Qed.

(** The stream of [getNodes]: the cuts never decrease from [0] on, and
    none lies beyond the length of the syllables. *)
Lemma getNodes_cuts (a : AttributedString) (attrs : Attrs)
    (options : LayoutOptions) (syl : list jsstring) (nodes : list Node) :
  syllables a = Some syl ->
  getNodes a attrs options = Some nodes ->
  cutsFrom 0 (cutsOf None nodes)
  /\ (forall i c, cutsOf None nodes !! i = Some (Some c) ->
                  (c <= zlength (concat syl))%Z).
Proof.
  unfold getNodes. intros ->.
  set (hp := num_or _ _).
  destruct (getNodes_from a hp syl 0) as [body final] eqn:E.
  intros [= <-].
  set (K := [Glue 0 final final infinity 0; Penalty 0 (- infinity) 1]).
  assert (HK : forall prev,
             cutsOf prev [Glue 0 final final infinity 0; Penalty 0 (- infinity) 1]
             = cutsOf None [Glue 0 final final infinity 0;
                            Penalty 0 (- infinity) 1]) by done.
  destruct (getNodes_from_cuts a hp _ syl HK 0 None) as (Hfinal & _ & Hcuts).
  rewrite E in Hfinal, Hcuts. cbn [fst snd] in Hfinal, Hcuts.
  assert (Hmono : cutsFrom 0 (cutsOf None (body ++ K))).
  { apply Hcuts. cbn. lia. }
  split; [exact Hmono|]. intros i c Hi.
  assert (Hlast : cutsOf None (body ++ K) !! (S (length body))
                  = Some (Some final)).
  { erewrite cutsOf_lookup; last first.
    { rewrite lookup_app_r by lia.
      replace (S (length body) - length body)%nat with 1%nat by lia. done. }
    cbn. rewrite lookup_app_r by lia. by rewrite Nat.sub_diag. }
  assert (Hi' : (i < length (cutsOf None (body ++ K)))%nat)
    by (eapply lookup_lt_Some; eauto).
  rewrite cutsOf_length, length_app in Hi'. cbn in Hi'.
  rewrite <- (Z.add_0_l (zlength _)), <- Hfinal.
  eapply (cutsFrom_mono _ _ i (S (length body))); eauto. lia.
Qed.

(** ** The breaks of Knuth and Plass are in order *)

Lemma considerActive_have (P : Breakpoint -> Prop) nodes node tolerance active
    ratio candidates :
  candidatesHave P candidates -> P active ->
  candidatesHave P (considerActive nodes node tolerance active ratio candidates).
Proof.
  intros Hc Ha. unfold considerActive.
  destruct (_ && _); [|done].
  destruct (candidates !! _) as [[[? ?]|]|];
    try destruct (Qltb _ _); try done; by apply Forall_insert.
Qed.

Lemma newActiveNodes_from_Forall (P Q : Breakpoint -> Prop) candidates c index
    tmpSum :
  candidatesHave P candidates ->
  (forall a d c, P a -> Q (mkBreakpoint index d (line a + 1) c tmpSum (Some a))) ->
  Forall Q (newActiveNodes_from candidates c index tmpSum).
Proof.
  intros Hc Hnew. revert c.
  induction Hc as [|[[a d]|] rest Ha Hrest IH]; intros c; cbn; auto.
Qed.

Lemma mainLoop_from_Forall (P : Breakpoint -> Prop) nodes lineLengths tolerance
    sum node index actives candidates :
  (forall a d c,
      P a ->
      P (mkBreakpoint index d (line a + 1) c (computeSum nodes sum index)
           (Some a))) ->
  Forall P actives -> candidatesHave P candidates ->
  Forall P (mainLoop_from nodes lineLengths tolerance sum node index actives
              candidates).
Proof.
  intros Hnew Hact. revert candidates.
  induction Hact as [|active rest Ha Hrest IH]; intros candidates Hc; [done|].
  cbn [mainLoop_from].
  set (ratio := computeCost _ _ _ _ _ _).
  assert (Hc' : candidatesHave P
                  (considerActive nodes node tolerance active ratio candidates))
    by (by apply considerActive_have).
  assert (Hkept : Forall P (if Qltb ratio (-1) || isForcedBreak node
                            then [] else [active])).
  { destruct (_ || _); auto. }
  assert (Hn : Forall P (newActiveNodes
                           (considerActive nodes node tolerance active ratio
                              candidates) index (computeSum nodes sum index))).
  { eapply newActiveNodes_from_Forall; eauto. }
  destruct rest as [|next rest'].
  - by apply Forall_app.
  - destruct (_ <=? _)%nat.
    + apply Forall_app; split; [done|]. apply Forall_app; split; [done|].
      apply IH. by repeat constructor.
    + apply Forall_app; split; [done|]. by apply IH.
Qed.

Lemma noCandidates_have (P : Breakpoint -> Prop) : candidatesHave P noCandidates.
Proof. by repeat constructor. Qed.

Lemma chainOK_new n index a d c t :
  (index < n)%nat -> chainOK n index a ->
  chainOK n index (mkBreakpoint index d (line a + 1) c t (Some a)).
Proof.
  intros Hi (Hp & Hd & Hall). repeat split; cbn; auto.
Qed.

Lemma chainOK_S n index a : chainOK n index a -> chainOK n (S index) a.
Proof. intros (Hp & Hd & Hall). repeat split; auto. Qed.

Lemma linebreak_from_chainOK nodes lineLengths tolerance rest index prevBox sum
    actives :
  (index + length rest = length nodes)%nat ->
  Forall (chainOK (length nodes) index) actives ->
  Forall (chainOK (length nodes) (length nodes))
    (linebreak_from nodes lineLengths tolerance rest index prevBox sum actives).
Proof.
  revert index prevBox sum actives.
  induction rest as [|node tail IH]; intros index prevBox sum actives Hlen Hact.
  - cbn in Hlen. rewrite Nat.add_0_r in Hlen. subst index. exact Hact.
  - cbn [length] in Hlen.
    assert (Hmain : Forall (chainOK (length nodes) index)
                      (mainLoop nodes lineLengths tolerance sum node index
                         actives)).
    { apply mainLoop_from_Forall; auto using noCandidates_have.
      intros a d c Ha. apply chainOK_new; [lia|done]. }
    cbn [linebreak_from]. destruct node as [w s e h|w s e st sh|w p f].
    + apply IH; [lia|]. eapply Forall_impl; eauto using chainOK_S.
    + apply IH; [lia|]. destruct prevBox;
        eapply Forall_impl; eauto using chainOK_S.
    + apply IH; [lia|]. destruct (negb _);
        eapply Forall_impl; eauto using chainOK_S.
Qed.

Lemma bestActive_elem (actives : list Breakpoint) (b : Breakpoint) :
  bestActive actives = Some b -> b ∈ actives.
Proof.
  unfold bestActive.
  assert (H : forall tmp,
             fold_left
               (fun tmp node =>
                  match tmp with
                  | None => Some node
                  | Some t =>
                      if Qltb (demerits node) (demerits t) then Some node
                      else tmp
                  end) actives tmp = Some b ->
             b ∈ actives \/ tmp = Some b).
  { induction actives as [|x rest IH]; intros tmp; cbn; [by right|].
    intros Hf. apply IH in Hf as [Hf|Hf]; [left; by right|].
    destruct tmp as [t|].
    - destruct (Qltb _ _); [injection Hf as <-; left; by left|by right].
    - injection Hf as <-. left; by left. }
  intros Hb. by destruct (H None Hb).
Qed.

Lemma bestActive_Some (actives : list Breakpoint) :
  actives <> [] -> is_Some (bestActive actives).
Proof.
  unfold bestActive. destruct actives as [|x rest]; [done|]. intros _. cbn.
  generalize x. induction rest as [|y rest IH]; intros t; cbn; [by eexists|].
  destruct (Qltb _ _); apply IH.
Qed.

Lemma chainDesc_sorted (k : nat) (b : Breakpoint) :
  length (positionsBack b) = k -> chainDesc b ->
  Sorted (flip le) (positionsBack b).
Proof.
  revert b. induction k as [|k IH]; intros [p d l c t prev]; cbn; [done|].
  destruct prev as [q|]; cbn.
  - intros [= Hk] [Hle Hq]. constructor; [by apply IH|].
    destruct q; cbn in *. by constructor.
  - intros _ _. by repeat constructor.
Qed.

(** The positions [linebreak] returns never decrease and are indices of
    the stream. *)
Lemma linebreak_sorted (nodes : list Node) (widths : list Q) (tolerance : Q) :
  nodes <> [] ->
  StronglySorted le (linebreak nodes widths tolerance)
  /\ Forall (fun p => (p < length nodes)%nat)
       (linebreak nodes widths tolerance).
Proof.
  intros Hne. unfold linebreak, findBestBreakpoints.
  destruct (bestActive _) as [b|] eqn:Hb; [|split; constructor].
  apply bestActive_elem in Hb.
  assert (Hinv : Forall (chainOK (length nodes) (length nodes))
                   (activeNodesOf nodes widths tolerance)).
  { apply linebreak_from_chainOK; [done|].
    repeat constructor. cbn. destruct nodes; [done|cbn; lia]. }
  rewrite Forall_forall in Hinv. destruct (Hinv _ Hb) as (_ & Hdesc & Hall).
  rewrite rev_alt. change (rev_append ?l []) with (reverse l). split.
  - apply Sorted_StronglySorted; [apply _|].
    apply (Sorted_reverse (flip le)). by eapply chainDesc_sorted.
  - by apply Forall_reverse.
Qed.

(** ** The breaks of best fit are in order *)

Lemma skipBreakable_bound (l : list Node) (j : nat) :
  (j <= skipBreakable l j <= j + length l)%nat.
Proof.
  revert j. induction l as [|[| |] rest IH]; intros j; cbn; try lia;
    specialize (IH (S j)); lia.
Qed.

Lemma getNextBreakpoint_from_bound rest i lineLength position minimumBadness
    sum p :
  rest <> [] \/ (0 < i)%nat ->
  (forall q, position = Some q -> (q < i)%nat) ->
  getNextBreakpoint_from rest i lineLength position minimumBadness sum = Some p ->
  (p < i + length rest)%nat.
Proof.
  revert i position minimumBadness sum.
  induction rest as [|node tail IH]; intros i position minimumBadness sum Hne Hpos.
  - cbn. destruct (gt_opt _ _); [|done]. intros ->.
    specialize (Hpos _ eq_refl). lia.
  - cbn [getNextBreakpoint_from length].
    set (sum' := match node with Box _ _ _ _ => _ | _ => _ end).
    destruct (gt_opt _ _).
    + destruct position as [q|].
      * intros [= <-]. specialize (Hpos _ eq_refl). lia.
      * intros [= <-]. destruct i as [|i].
        -- pose proof (skipBreakable_bound tail 1). lia.
        -- pose proof (skipBreakable_bound (node :: tail) (S i)). cbn in *. lia.
    + assert (Hstep : forall position' mb,
                 (forall q, position' = Some q -> (q < S i)%nat) ->
                 getNextBreakpoint_from tail (S i) lineLength position' mb sum'
                 = Some p -> (p < i + S (length tail))%nat).
      { intros position' mb Hp Hr.
        apply IH in Hr; [lia|right; lia|done]. }
      destruct node as [w s e h|w s e st sh|w pn f].
      * apply Hstep. intros q Hq. specialize (Hpos _ Hq). lia.
      * destruct (match minimumBadness with None => _ | Some _ => _ end);
          apply Hstep; intros q Hq;
          [injection Hq as <-; lia|specialize (Hpos _ Hq); lia].
      * destruct (match minimumBadness with None => _ | Some _ => _ end);
          apply Hstep; intros q Hq;
          [injection Hq as <-; lia|specialize (Hpos _ Hq); lia].
Qed.

Lemma getNextBreakpoint_bound subnodes widths lineNumber p :
  getNextBreakpoint subnodes widths lineNumber = Some p ->
  (p < length subnodes)%nat.
Proof.
  unfold getNextBreakpoint. destruct subnodes as [|n rest].
  - cbn. by destruct (gt_opt _ _).
  - intros H. apply getNextBreakpoint_from_bound in H; [lia|by left|done].
Qed.

(** The loop of [applyBestFit] ends within its fuel, and its breakpoints
    never decrease and are indices of the stream. *)
Lemma applyBestFit_loop_sorted (n : nat) widths :
  forall fuel subnodes count lineNumber breakpoints,
    (length subnodes <= fuel)%nat ->
    (count + length subnodes = n)%nat ->
    StronglySorted le breakpoints ->
    Forall (fun p => (p <= count)%nat /\ (p < n \/ n = 0)%nat) breakpoints ->
    exists result,
      applyBestFit_loop fuel subnodes widths count lineNumber breakpoints
      = Some result
      /\ StronglySorted le result
      /\ Forall (fun p => (p < n \/ n = 0)%nat) result.
Proof.
  induction fuel as [|fuel IH]; intros subnodes count lineNumber breakpoints
    Hfuel Hcount Hsort Hall.
  - destruct subnodes; [|cbn in Hfuel; lia]. cbn. eexists; split; [done|].
    split; [done|]. eapply Forall_impl; eauto. by intros ? [? ?].
  - destruct subnodes as [|x rest] eqn:Hsub.
    { cbn. eexists; split; [done|]. split; [done|].
      eapply Forall_impl; eauto. by intros ? [? ?]. }
    rewrite <- Hsub in *. assert (Hne : subnodes <> []) by (by subst).
    unfold applyBestFit_loop; fold applyBestFit_loop.
    destruct subnodes as [|y rest']; [done|]. clear Hsub.
    destruct (getNextBreakpoint (y :: rest') widths lineNumber) as [bp|] eqn:Hbp.
    + apply getNextBreakpoint_bound in Hbp.
      apply IH.
      * rewrite length_drop. cbn [length] in *. lia.
      * rewrite length_drop. lia.
      * apply StronglySorted_app_2; [|done|by repeat constructor].
        intros p q Hp Hq. apply list_elem_of_singleton in Hq as ->.
        rewrite Forall_forall in Hall. destruct (Hall _ Hp). lia.
      * apply Forall_app; split.
        -- eapply Forall_impl; eauto. intros p [? ?]. split; [lia|done].
        -- repeat constructor; lia.
    + eexists; split; [done|]. split; [done|].
      eapply Forall_impl; eauto. by intros ? [? ?].
Qed.

Lemma applyBestFit_sorted (nodes : list Node) (widths : list Q) :
  nodes <> [] ->
  exists result,
    applyBestFit nodes widths = Some result
    /\ StronglySorted le result
    /\ Forall (fun p => (p < length nodes)%nat) result.
Proof.
  intros Hne. unfold applyBestFit.
  destruct (applyBestFit_loop_sorted (length nodes) widths (length nodes) nodes
              0 0 [0%nat]) as (result & Hr & Hsort & Hall); auto.
  - by repeat constructor.
  - repeat constructor. destruct nodes; [done|cbn; lia].
  - exists result. split; [done|]. split; [done|].
    eapply Forall_impl; eauto. intros p [?|?]; [done|].
    destruct nodes; [done|discriminate].
Qed.

(** ** The breaks of [linebreaker] *)

Lemma escalate_linebreak (fuel : nat) nodes widths tolerance breaks :
  (breaks = linebreak nodes widths tolerance) ->
  exists t, (escalate fuel nodes widths tolerance breaks).1
            = linebreak nodes widths t.
Proof.
  revert tolerance breaks. induction fuel as [|fuel IH]; intros t breaks ->.
  - by exists t.
  - cbn [escalate]. destruct (_ && _); [|by exists t]. by apply IH.
Qed.

Lemma chooseBreaks_sorted options nodes widths :
  nodes <> [] ->
  exists breaks,
    chooseBreaks options nodes widths = Some breaks
    /\ StronglySorted le breaks
    /\ Forall (fun p => (p < length nodes)%nat) breaks.
Proof.
  intros Hne. unfold chooseBreaks.
  set (t0 := num_or _ _).
  destruct (escalate_linebreak (escalationFuel t0) nodes widths t0 _ eq_refl)
    as (t & Ht).
  destruct (escalate _ _ _ _ _) as [breaks tf]. cbn in Ht. subst breaks.
  destruct (linebreak_sorted nodes widths t Hne) as [Hs Ha].
  destruct (linebreak nodes widths t) as [|[|b] [|c rest]] eqn:E;
    try (by apply applyBestFit_sorted); by eexists.
Qed.

(** ** [linebreaker] returns lines *)

(** In the stream of a paragraph every cut is there, and the cut of a
    hyphenation penalty lies before the end of the paragraph. *)
Lemma getNodes_from_penalty (a : AttributedString) (hp : Q) (K : list Node)
    (syl : list jsstring) :
  forall start prev i,
    let nodes := (getNodes_from a hp syl start).1 in
    let final := (getNodes_from a hp syl start).2 in
    (i < length nodes)%nat ->
    exists c, cutsOf prev (nodes ++ K) !! i = Some (Some c)
              /\ (isPenalty <$> (nodes ++ K) !! i = Some true -> (c < final)%Z).
Proof.
  induction syl as [|s rest IH]; intros start prev i; [cbn; lia|].
  cbn [getNodes_from].
  destruct (getNodes_from a hp rest (start + zlength s)) as [more final] eqn:E.
  pose proof (IH (start + zlength s)%Z) as IH'. rewrite E in IH'. cbn in IH'.
  pose proof (getNodes_from_cuts a hp [] rest (fun _ => eq_refl)
                (start + zlength s)%Z None) as (Hfinal & _).
  rewrite E in Hfinal. cbn in Hfinal.
  cbn [fst snd]. destruct (isBlank s).
  - destruct i as [|i]; cbn.
    + intros _. eexists; split; [done|]. intros [=].
    + intros Hi. apply IH'. lia.
  - destruct (_ && _) eqn:Hnext.
    + destruct i as [|[|i]]; cbn.
      * intros _. eexists; split; [done|]. intros [=].
      * intros _. eexists; split; [done|]. intros _.
        destruct rest as [|[|u s'] rest']; try discriminate Hnext.
        cbn [concat] in Hfinal. rewrite zlength_app in Hfinal.
        pose proof (zlength_nonneg (concat rest')).
        unfold zlength in Hfinal at 2. cbn [length] in Hfinal. lia.
      * intros Hi. apply IH'. lia.
    + destruct i as [|i]; cbn.
      * intros _. eexists; split; [done|]. intros [=].
      * intros Hi. apply IH'. lia.
Qed.

Lemma getNodes_penalty (a : AttributedString) (attrs : Attrs)
    (options : LayoutOptions) (syl : list jsstring) (nodes : list Node) :
  syllables a = Some syl ->
  getNodes a attrs options = Some nodes ->
  nodes <> []
  /\ forall i, (i < length nodes)%nat ->
       exists c, cutsOf None nodes !! i = Some (Some c)
                 /\ (isPenalty <$> nodes !! i = Some true ->
                     i <> (length nodes - 1)%nat ->
                     (c < zlength (concat syl))%Z).
Proof.
  unfold getNodes. intros ->.
  set (hp := num_or _ _).
  destruct (getNodes_from a hp syl 0) as [body final] eqn:E.
  intros [= <-]. split; [by destruct body|].
  set (K := [Glue 0 final final infinity 0; Penalty 0 (- infinity) 1]).
  pose proof (getNodes_from_cuts a hp [] syl (fun _ => eq_refl) 0 None)
    as (Hfinal & _).
  rewrite E in Hfinal. cbn [fst snd] in Hfinal. rewrite Z.add_0_l in Hfinal.
  intros i Hi. rewrite length_app in Hi. cbn [length K] in Hi.
  destruct (decide (i < length body)%nat) as [Hlt|Hge].
  - pose proof (getNodes_from_penalty a hp K syl 0 None i) as H.
    rewrite E in H. cbn [fst snd] in H. destruct (H Hlt) as (c & Hc & Hp).
    exists c. split; [done|]. intros Hpen _. rewrite <- Hfinal. by apply Hp.
  - assert (Hi' : i = length body \/ i = S (length body)) by lia.
    destruct Hi' as [-> | ->].
    + exists final. split.
      * erewrite cutsOf_lookup; last first.
        { rewrite lookup_app_r by lia. by rewrite Nat.sub_diag. }
        done.
      * rewrite lookup_app_r by lia. rewrite Nat.sub_diag. intros [=].
    + exists final. split.
      * erewrite cutsOf_lookup; last first.
        { rewrite lookup_app_r by lia.
          replace (S (length body) - length body)%nat with 1%nat by lia. done. }
        cbn. rewrite lookup_app_r by lia. by rewrite Nat.sub_diag.
      * intros _ Hne. rewrite length_app in Hne. cbn [length K] in Hne. lia.
Qed.

Lemma findIndex_from_range {A : Type} (p : A -> bool) (l : list A) (i : Z) :
  findIndex_from p l i = (-1)%Z
  \/ (i <= findIndex_from p l i < i + zlength l)%Z.
Proof.
  revert i. induction l as [|x rest IH]; intros i; cbn; [by left|].
  unfold zlength. cbn [length]. destruct (p x); [right; lia|].
  destruct (IH (i + 1)%Z) as [->|H]; [by left|]. right.
  unfold zlength in H. lia.
Qed.

Lemma findIndex_from_found {A : Type} (p : A -> bool) (l : list A) (i : Z) (x : A) :
  (0 <= i)%Z -> x ∈ l -> p x = true -> (i <= findIndex_from p l i)%Z.
Proof.
  revert i. induction l as [|y rest IH]; intros i Hi Hin Hp.
  - by apply elem_of_nil in Hin.
  - cbn. destruct (p y) eqn:Hy; [lia|].
    apply elem_of_cons in Hin as [->|Hin]; [congruence|].
    specialize (IH (i + 1)%Z ltac:(lia) Hin Hp). lia.
Qed.

Lemma js_slice_sublist {A : Type} (s : Z) (e : Idx) (l : list A) (x : A) :
  x ∈ js_slice s e l -> x ∈ l.
Proof.
  unfold js_slice. intros H.
  apply elem_of_take in H as (i & H & _).
  rewrite lookup_drop in H. by eapply list_elem_of_lookup_2.
Qed.

(** The runs that meet a range starting inside a run are not empty. *)
Lemma filter_nonempty (s e : Z) (rs : list Run) (r : Run) :
  r ∈ rs -> (start r <= s < end_ r)%Z -> Textkit.filter s e rs <> [].
Proof.
  intros Hin Hr. unfold Textkit.filter, runIndexAt1, findIndex.
  set (p := fun run => (Textkit.start run <=? s)%Z && (s <? end_ run)%Z).
  assert (Hp : p r = true).
  { unfold p. apply andb_true_iff. split; [apply Z.leb_le|apply Z.ltb_lt]; lia. }
  pose proof (findIndex_from_found p rs 0 r ltac:(lia) Hin Hp) as Hlo.
  destruct (findIndex_from_range p rs 0) as [Hm|Hhi]; [lia|].
  set (k := findIndex_from p rs 0) in *.
  unfold js_slice, rel_index. fold (zlength rs).
  destruct (Z.ltb_spec k 0); [lia|].
  match goal with
  | |- context [(?x <? 0)%Z] => destruct (Z.ltb_spec x 0); [lia|]
  end.
  rewrite (Z.min_l k) by lia.
  intros Hnil. apply (f_equal length) in Hnil.
  rewrite length_take, length_drop in Hnil. cbn in Hnil.
  unfold zlength in *. lia.
Qed.

Lemma slice1_arrays (s : Z) (e : Idx) (r : Run) :
  attributes (slice1 s e r) = attributes r
  /\ is_Some (glyphs (slice1 s e r))
  /\ is_Some (glyphIndices (slice1 s e r)).
Proof. unfold slice1. cbn. eauto. Qed.

Lemma getFont_attributes (r r' : Run) :
  attributes r = attributes r' -> getFont r = getFont r'.
Proof. unfold getFont. by intros ->. Qed.

(** The runs of a slice keep their fonts, and the last one has its glyph
    arrays. *)
Lemma sliceRuns_fonts (s e : Z) (rs : list Run) :
  (forall r, r ∈ rs -> is_Some (getFont r)) ->
  forall r', r' ∈ sliceRuns s e rs -> is_Some (getFont r').
Proof.
  intros Hf r' Hin. unfold sliceRuns in Hin.
  apply list_elem_of_lookup in Hin as (i & Hi).
  rewrite list_lookup_imap in Hi.
  destruct (rs !! i) as [r|] eqn:Hr; [|done]. cbn in Hi. injection Hi as <-.
  assert (Hr' : r ∈ rs) by (by eapply list_elem_of_lookup_2).
  specialize (Hf _ Hr').
  erewrite getFont_attributes; [exact Hf|].
  cbn. destruct (_ && _), (i =? 0)%nat; cbn;
    try apply (slice1_arrays _ _ r); done.
Qed.

Lemma sliceRuns_last (s e : Z) (rs : list Run) :
  rs <> [] ->
  exists r', last (sliceRuns s e rs) = Some r'
             /\ is_Some (glyphs r') /\ is_Some (glyphIndices r').
Proof.
  intros Hne. unfold sliceRuns. rewrite last_lookup, length_imap.
  rewrite list_lookup_imap.
  replace (length rs - 1)%nat with (pred (length rs)) by lia.
  destruct (rs !! pred (length rs)) as [r|] eqn:Hr.
  - destruct (pred (length rs)) as [|k] eqn:Hk.
    + cbn. eauto.
    + cbn. rewrite Nat.eqb_refl. cbn. eauto.
  - apply lookup_ge_None in Hr. destruct rs; [done|cbn in Hr; lia].
Qed.

Lemma imapM_from_Some {A B : Type} (f : nat -> A -> option B) (l : list A)
    (i : nat) :
  (forall j x, x ∈ l -> is_Some (f j x)) -> is_Some (imapM_from f l i).
Proof.
  revert i. induction l as [|x rest IH]; intros i Hf; [by eexists|].
  cbn. destruct (Hf i x) as [y ->]; [by left|].
  destruct (IH (S i)) as [ys ->]; [|by eexists].
  intros j z Hz. apply Hf. by right.
Qed.

Lemma appendGlyph_Some (g : Glyph) (r : Run) :
  is_Some (glyphs r) -> is_Some (glyphIndices r) ->
  is_Some (appendGlyph (Some g) r).
Proof.
  intros [gs Hg] [gi Hi]. unfold appendGlyph. rewrite Hg, Hi.
  destruct (positions r); by eexists.
Qed.

(** The hyphen can be put into a line whose runs have fonts and whose
    last run has its glyph arrays. *)
Lemma insertGlyph_Some (index : Z) (line : AttributedString) :
  (forall r, r ∈ runs line -> is_Some (getFont r)) ->
  (exists r, last (runs line) = Some r
             /\ is_Some (glyphs r) /\ is_Some (glyphIndices r)) ->
  is_Some (insertGlyph index HYPHEN line).
Proof.
  intros Hfonts (r & Hlast & Hg & Hi). unfold insertGlyph.
  destruct (_ =? -1)%Z.
  - unfold append. rewrite Hlast. unfold append1.
    change (isFalsy (Code HYPHEN)) with false. cbn iota.
    destruct (Hfonts r) as [f Hf]; [by eapply last_Some_elem_of|].
    rewrite Hf.
    change (resolveGlyph (Code HYPHEN) (Some f))
      with (Some (glyphForCodePoint f HYPHEN)).
    destruct (appendGlyph_Some (glyphForCodePoint f HYPHEN) r Hg Hi) as [r' ->].
    by eexists.
  - match goal with
    | |- context [imapM_from ?f ?l ?i] =>
        destruct (imapM_from_Some f l i) as [rs' ->]; [|by eexists]
    end.
    intros j x Hx. destruct (_ =? _)%Z; [|destruct (_ <? _)%Z; by eexists].
    unfold insert. destruct (Hfonts x Hx) as [f ->].
    change (resolveGlyph (Code HYPHEN) (Some f))
      with (Some (glyphForCodePoint f HYPHEN)).
    unfold insertGlyph1, append1.
    cbn [isFalsy resolveGlyph].
    match goal with
    | |- context [appendGlyph (Some ?g) ?run] =>
        destruct (appendGlyph_Some g run) as [r' ->];
        [apply slice1_arrays..|by eexists]
    end.
Qed.

Lemma slice_hyphen_ready (s e : Z) (a : AttributedString) :
  covered a -> fontsSet a -> (0 <= s < zlength (string_ a))%Z ->
  (forall r, r ∈ runs (slice s e a) -> is_Some (getFont r))
  /\ (exists r, last (runs (slice s e a)) = Some r
                /\ is_Some (glyphs r) /\ is_Some (glyphIndices r)).
Proof.
  intros Hcov Hfonts Hs. unfold slice.
  destruct (length (string_ a) =? 0)%nat eqn:E.
  { apply Nat.eqb_eq in E. unfold zlength in Hs. lia. }
  cbn [runs]. destruct (Hcov s Hs) as (r & Hr & Hin).
  split.
  - apply sliceRuns_fonts. intros r' Hr'. apply Hfonts.
    unfold Textkit.filter in Hr'. by eapply js_slice_sublist.
  - apply sliceRuns_last. by eapply filter_nonempty.
Qed.

Lemma breakLine_Some (a : AttributedString) (nodes : list Node) (L : Z)
    (acc : list AttributedString) (start : Z) (b : nat) :
  covered a -> fontsSet a -> zlength (string_ a) = L ->
  (forall i, (i < length nodes)%nat ->
     exists c, cutsOf None nodes !! i = Some (Some c)
               /\ (isPenalty <$> nodes !! i = Some true ->
                   i <> (length nodes - 1)%nat -> (c < L)%Z)) ->
  (b < length nodes)%nat ->
  (0 <= start)%Z ->
  (forall c, cutsOf None nodes !! b = Some (Some c) -> (start <= c)%Z) ->
  is_Some (breakLine a nodes (acc, start) b).
Proof.
  intros Hcov Hfonts HL Hstream Hb Hs0 Hlow. unfold breakLine.
  destruct ((b =? length nodes - 1)%nat && (0 <? length nodes)%nat) eqn:Elast;
    [by eexists|].
  destruct (Hstream b Hb) as (c & Hc & Hpen).
  destruct (nodes !! b) as [n|] eqn:Hn; last first.
  { apply lookup_ge_None in Hn. lia. }
  rewrite (cutsOf_lookup _ None _ _ Hn) in Hc.
  destruct n as [w s e h|w s e st sh|w p f]; cbn [node_end]; try by eexists.
  destruct b as [|k]; [done|]. injection Hc as Hc.
  destruct (nodes !! k) as [prev|] eqn:Hk; [|done]. cbn in Hc. rewrite Hc.
  assert (Hlt : (c < L)%Z).
  { apply Hpen; [done|]. intros Heq.
    apply andb_false_iff in Elast as [Elast|Elast].
    - apply Nat.eqb_neq in Elast. lia.
    - apply Nat.ltb_ge in Elast. lia. }
  specialize (Hlow c). rewrite (cutsOf_lookup _ None _ _ Hn), Hk in Hlow.
  cbn in Hlow. rewrite Hc in Hlow. specialize (Hlow eq_refl).
  destruct (slice_hyphen_ready start c a Hcov Hfonts ltac:(lia)) as [Hf Hl].
  destruct (insertGlyph_Some (zlength (string_ (slice start c a)))
              (slice start c a) Hf Hl) as [line ->].
  by eexists.
Qed.

Lemma breakLines_from_Some (a : AttributedString) (nodes : list Node) (L : Z) :
  covered a -> fontsSet a -> zlength (string_ a) = L ->
  cutsFrom 0 (cutsOf None nodes) ->
  (forall i, (i < length nodes)%nat ->
     exists c, cutsOf None nodes !! i = Some (Some c)
               /\ (isPenalty <$> nodes !! i = Some true ->
                   i <> (length nodes - 1)%nat -> (c < L)%Z)) ->
  forall breaks acc start,
    StronglySorted le breaks ->
    Forall (fun p => (p < length nodes)%nat) breaks ->
    (0 <= start)%Z ->
    (forall b c, b ∈ breaks -> cutsOf None nodes !! b = Some (Some c) ->
                 (start <= c)%Z) ->
    is_Some (breakLines_from a nodes breaks (acc, start)).
Proof.
  intros Hcov Hfonts HL Hmono Hstream.
  induction breaks as [|b rest IH]; intros acc start Hsort Hall Hs0 Hlow;
    [by eexists|].
  cbn [breakLines_from].
  apply StronglySorted_inv in Hsort as [Hsort Hle].
  apply Forall_cons in Hall as [Hb Hall].
  destruct (breakLine_Some a nodes L acc start b Hcov Hfonts HL Hstream Hb Hs0)
    as [[acc1 start1] Hbl].
  { intros c Hc. eapply Hlow; [by left|done]. }
  rewrite Hbl.
  apply breakLine_spec in Hbl as [[-> ->]|(Hcut & _)].
  - apply IH; auto. intros b' c Hb'. apply Hlow. by right.
  - assert (start <= start1)%Z by (eapply Hlow; [by left|done]).
    apply IH; auto; [lia|].
    intros b' c Hb' Hc. rewrite Forall_forall in Hle.
    assert (b <= b')%nat by (by apply Hle).
    eapply (cutsFrom_mono _ _ b b'); eauto.
Qed.

Lemma StronglySorted_drop_1 (l : list nat) :
  StronglySorted le l -> StronglySorted le (drop 1 l).
Proof.
  destruct l; cbn; [done|]. intros H. apply StronglySorted_inv in H. tauto.
Qed.

Lemma getNodes_Some (a : AttributedString) (attrs : Attrs)
    (options : LayoutOptions) (syl : list jsstring) :
  syllables a = Some syl -> is_Some (getNodes a attrs options).
Proof.
  intros Hsyl. unfold getNodes. rewrite Hsyl.
  destruct (getNodes_from _ _ _ _). by eexists.
Qed.

(** A paragraph whose characters all lie in runs that have fonts is cut
    into lines without an error. *)
Lemma linebreaker_returns (options : LayoutOptions) (a : AttributedString)
    (widths : list Q) (syl : list jsstring) :
  syllables a = Some syl -> string_ a = concat syl ->
  covered a -> fontsSet a ->
  is_Some (linebreaker options a widths).
Proof.
  intros Hsyl Hstr Hcov Hfonts. unfold linebreaker.
  destruct (getNodes_Some a (getAttributes a) options syl Hsyl) as [nodes Hn].
  rewrite Hn.
  destruct (getNodes_cuts _ _ _ _ _ Hsyl Hn) as [Hmono _].
  destruct (getNodes_penalty _ _ _ _ _ Hsyl Hn) as [Hne Hstream].
  destruct (chooseBreaks_sorted options nodes widths Hne)
    as (breaks & -> & Hsort & Hall).
  unfold breakLines.
  destruct (breakLines_from_Some a nodes (zlength (string_ a)) Hcov Hfonts
              eq_refl Hmono) with (breaks := drop 1 breaks)
              (acc := @nil AttributedString) (start := 0%Z)
    as [[lines start] ->].
  - by rewrite Hstr.
  - by apply StronglySorted_drop_1.
  - by apply Forall_drop.
  - done.
  - intros b c _ Hc. eapply cutsFrom_lookup; eauto.
  - by eexists.
Qed.

(** C1: the lines returned by [linebreaker] for a paragraph (a string
    that is the concatenation of its syllables), with any array of
    available widths, are consecutive character ranges of the paragraph,
    each followed by a hyphen where the line was cut at a hyphenation
    point; concatenated in order, hyphens excluded, the ranges are the
    string of the paragraph.  When every character lies in a run and
    every run has a font, lines are returned. *)
Theorem linebreaker_covers (options : LayoutOptions) (a : AttributedString)
    (widths : list Q) (syl : list jsstring) :
  syllables a = Some syl ->
  string_ a = concat syl ->
  (forall lines,
      linebreaker options a widths = Some lines ->
      exists cuts : list (jsstring * bool),
        map string_ lines = map renderCut cuts
        /\ concat (cuts.*1) = string_ a)
  /\ (covered a -> fontsSet a ->
      exists lines, linebreaker options a widths = Some lines).
Proof.
  intros Hsyl Hstr. split.
  - intros lines. unfold linebreaker.
    destruct (getNodes a (getAttributes a) options) as [nodes|] eqn:Hn;
      [|discriminate].
    destruct (getNodes_cuts _ _ _ _ _ Hsyl Hn) as [Hmono Hbound].
    destruct (getNodes_penalty _ _ _ _ _ Hsyl Hn) as [Hne _].
    destruct (chooseBreaks_sorted options nodes widths Hne)
      as (breaks & -> & Hsort & _).
    apply breakLines_cover; auto.
    + by rewrite Hstr.
    + by apply StronglySorted_drop_1.
  - intros Hcov Hfonts. by eapply linebreaker_returns.
Qed.

Lemma linebreaker_covers_witness :
  (forall lines,
      linebreaker defaultOptions quickBrown [100] = Some lines ->
      exists cuts : list (jsstring * bool),
        map string_ lines = map renderCut cuts
        /\ concat (cuts.*1) = string_ quickBrown)
  /\ (covered quickBrown -> fontsSet quickBrown ->
      exists lines, linebreaker defaultOptions quickBrown [100] = Some lines).
Proof.
  apply (linebreaker_covers defaultOptions quickBrown [100]
           (map str ["The"; " "; "quick"; "brown"; " "; "fox"]%string)).
  - reflexivity.
  - reflexivity.
Defined.

(** The round trip example: a width that forces a break inside
    "quickbrown" gives two lines, the first ending in the hyphen. *)
Example linebreaker_quickBrown :
  map string_ <$> linebreaker defaultOptions quickBrown [100]
  = Some [str "The quick-"; str "brown fox"].
Proof. vm_compute. reflexivity. Qed.

(** ** Tolerance escalation and the best-fit fallback *)

Lemma escalated_S (k : nat) (t : Q) :
  escalated (S k) t = escalated k (t + TOLERANCE_STEPS).
Proof. unfold escalated. by rewrite Nat.iter_succ_r. Qed.

Lemma escalated_value (k : nat) (t : Q) :
  escalated k t == t + 5 * inject_Z (Z.of_nat k).
Proof.
  revert t. induction k as [|k IH]; intros t.
  - cbn. ring.
  - rewrite escalated_S, IH, Nat2Z.inj_succ. unfold Z.succ.
    rewrite inject_Z_plus. unfold TOLERANCE_STEPS. ring.
Qed.

(** The loop of [linebreaker] as a trace: it stops after [k] escalations,
    each made because the search at the tolerance before it gave nothing
    and that tolerance was below the limit; the breaks it ends with are
    those of [linebreak] at the tolerance it ends with. *)
Lemma escalate_spec (nodes : list Node) (widths : list Q) (fuel : nat) :
  forall t,
    let r := escalate fuel nodes widths t (linebreak nodes widths t) in
    exists k,
      (k <= fuel)%nat
      /\ r.2 = escalated k t
      /\ r.1 = linebreak nodes widths r.2
      /\ (forall j, (j < k)%nat ->
            linebreak nodes widths (escalated j t) = []
            /\ escalated j t < TOLERANCE_LIMIT)
      /\ ((k < fuel)%nat -> r.1 <> [] \/ TOLERANCE_LIMIT <= r.2).
Proof.
  induction fuel as [|fuel IH]; intros t; cbn zeta.
  - exists 0%nat. cbn. repeat split; try done; lia.
  - cbn [escalate].
    destruct (length (linebreak nodes widths t) =? 0)%nat eqn:Hlen;
      [destruct (Qltb t TOLERANCE_LIMIT) eqn:Hlt|]; cbn [andb].
    + destruct (IH (t + TOLERANCE_STEPS)) as (k & Hk & H2 & H1 & Hbefore & Hend).
      exists (S k). rewrite escalated_S. repeat split; try done; try lia.
      * destruct j as [|j].
        -- cbn. apply Nat.eqb_eq in Hlen. by destruct (linebreak _ _ t).
        -- rewrite escalated_S. apply Hbefore. lia.
      * destruct j as [|j].
        -- cbn. by apply Qltb_lt.
        -- rewrite escalated_S. apply Hbefore. lia.
      * intros Hlt'. apply Hend. lia.
    + exists 0%nat. cbn. repeat split; try done; try lia.
      intros _. right. by apply Qltb_ge.
    + exists 0%nat. cbn. repeat split; try done; try lia.
      intros _. left. apply Nat.eqb_neq in Hlen.
      by destruct (linebreak _ _ t).
Qed.

(** The fuel of [chooseBreaks] is enough: the loop has ended. *)
Lemma escalationFuel_enough (t : Q) :
  TOLERANCE_LIMIT <= escalated (escalationFuel t) t.
Proof.
  rewrite escalated_value. unfold escalationFuel, TOLERANCE_LIMIT, TOLERANCE_STEPS.
  set (x := (50 - t) / 5).
  pose proof (Qle_ceiling x) as Hc.
  assert (Hx : 50 - t == 5 * x) by (unfold x; field).
  destruct (Z.le_gt_cases (Qceiling x) 0) as [Hz|Hz].
  - rewrite Z2Nat.nonpos by done. change (inject_Z (Z.of_nat 0)) with 0.
    rewrite Zle_Qle in Hz. change (inject_Z 0) with 0 in Hz. lra.
  - rewrite Z2Nat.id by lia. lra.
Qed.

Lemma escalate_ended (nodes : list Node) (widths : list Q) (t : Q) :
  let r := escalate (escalationFuel t) nodes widths t (linebreak nodes widths t)
  in r.1 <> [] \/ TOLERANCE_LIMIT <= r.2.
Proof.
  cbn zeta.
  destruct (escalate_spec nodes widths (escalationFuel t) t)
    as (k & Hk & H2 & _ & _ & Hend).
  destruct (decide (k < escalationFuel t)%nat) as [Hlt|Hge]; [by apply Hend|].
  right. rewrite H2. replace k with (escalationFuel t) by lia.
  apply escalationFuel_enough.
Qed.

Lemma breakLines_from_final (a : AttributedString) (nodes : list Node)
    (breaks : list nat) (state : list AttributedString * Z) :
  nodes <> [] ->
  Forall (fun b => b = (length nodes - 1)%nat) breaks ->
  breakLines_from a nodes breaks state = Some state.
Proof.
  intros Hne Hall. induction Hall as [|b rest -> _ IH]; [done|].
  cbn [breakLines_from]. unfold breakLine. destruct state as [acc start].
  rewrite Nat.eqb_refl.
  replace (0 <? length nodes)%nat with true; [exact IH|].
  symmetry. apply Nat.ltb_lt. destruct nodes; [done|cbn; lia].
Qed.

Lemma breakLines_nonempty (a : AttributedString) (nodes : list Node)
    (breaks : list nat) (lines : list AttributedString) :
  breakLines a nodes breaks = Some lines -> lines <> [].
Proof.
  unfold breakLines. destruct (breakLines_from _ _ _ _) as [[ls st]|]; [|done].
  intros [= <-]. by destruct ls.
Qed.

(** C5, as stated, fails: for a word wider than the line the search gives
    nothing at any tolerance, and the loop ends at tolerance 54, above
    the limit of 50, with the breaks of [linebreak] at 54. *)
Lemma escalate_beyond_limit :
  getNodes longWord (getAttributes longWord) defaultOptions = Some longWordNodes
  /\ (escalate (escalationFuel 4) longWordNodes [50] 4
        (linebreak longWordNodes [50] 4)).1
     = linebreak longWordNodes [50] 54
  /\ (escalate (escalationFuel 4) longWordNodes [50] 4
        (linebreak longWordNodes [50] 4)).2 == 54
  /\ ~ (escalate (escalationFuel 4) longWordNodes [50] 4
          (linebreak longWordNodes [50] 4)).2 <= TOLERANCE_LIMIT.
Proof.
  repeat split; try (vm_compute; reflexivity).
  vm_compute. intros H. apply H. reflexivity.
Qed.

(** C5 (amended): when the search of Knuth and Plass gives no break set,
    [linebreaker] tries again with the tolerance raised by 5, as long as
    the tolerance just tried is below 50 (the last one tried may exceed
    50); if the search still gives nothing, or only the break 0, the
    breaks are those of the greedy best-fit pass, which always returns;
    no error arises from it, the lines are never empty, and when no break
    but the final one is found the paragraph comes out as one line that
    holds its whole string. *)
Theorem linebreaker_fallback (options : LayoutOptions) (a : AttributedString)
    (widths : list Q) (syl : list jsstring) (nodes : list Node) :
  syllables a = Some syl ->
  string_ a = concat syl ->
  getNodes a (getAttributes a) options = Some nodes ->
  let t0 := num_or (tolerance options) 4 in
  let r := escalate (escalationFuel t0) nodes widths t0
             (linebreak nodes widths t0) in
  (exists k,
      r.2 = escalated k t0
      /\ r.2 == t0 + 5 * inject_Z (Z.of_nat k)
      /\ r.1 = linebreak nodes widths r.2
      /\ (forall j, (j < k)%nat ->
            linebreak nodes widths (escalated j t0) = []
            /\ escalated j t0 < TOLERANCE_LIMIT)
      /\ (r.1 <> [] \/ TOLERANCE_LIMIT <= r.2))
  /\ chooseBreaks options nodes widths
     = match r.1 with
       | [] | [O] => applyBestFit nodes widths
       | _ => Some r.1
       end
  /\ is_Some (applyBestFit nodes widths)
  /\ (forall lines, linebreaker options a widths = Some lines -> lines <> [])
  /\ (covered a -> fontsSet a -> is_Some (linebreaker options a widths))
  /\ (forall breaks,
        chooseBreaks options nodes widths = Some breaks ->
        Forall (fun b => b = (length nodes - 1)%nat) (drop 1 breaks) ->
        linebreaker options a widths
        = Some [slice 0 (zlength (string_ a)) a]
        /\ string_ (slice 0 (zlength (string_ a)) a) = string_ a).
Proof.
  intros Hsyl Hstr Hn t0 r.
  destruct (getNodes_penalty _ _ _ _ _ Hsyl Hn) as [Hne _].
  split; [|split; [|split; [|split; [|split]]]].
  - destruct (escalate_spec nodes widths (escalationFuel t0) t0)
      as (k & _ & H2 & H1 & Hbefore & _).
    exists k. split; [done|]. split; [|split; [done|split; [done|]]].
    + fold r in H2. rewrite H2. apply escalated_value.
    + apply escalate_ended.
  - unfold chooseBreaks. fold t0. fold r. by destruct r.
  - destruct (applyBestFit_sorted nodes widths Hne) as (bs & -> & _).
    by eexists.
  - intros lines. unfold linebreaker. rewrite Hn.
    destruct (chooseBreaks _ _ _); [|done]. apply breakLines_nonempty.
  - intros Hcov Hfonts. by eapply linebreaker_returns.
  - intros breaks Hb Hall. unfold linebreaker. rewrite Hn, Hb.
    unfold breakLines. rewrite breakLines_from_final by done.
    split; [done|]. rewrite slice_string. apply js_slice_all.
Qed.

Lemma linebreaker_fallback_witness :
  chooseBreaks defaultOptions longWordNodes [50]
  = applyBestFit longWordNodes [50]
  /\ linebreaker defaultOptions longWord [50]
     = Some [slice 0 (zlength (string_ longWord)) longWord].
Proof.
  pose proof (linebreaker_fallback defaultOptions longWord [50]
                [str "aaaaaaaaaa"] longWordNodes eq_refl eq_refl
                ltac:(vm_compute; reflexivity)) as H.
  cbn zeta in H. destruct H as (_ & Hchoose & _ & _ & _ & Hworst).
  split.
  - rewrite Hchoose. vm_compute. reflexivity.
  - apply (Hworst [0; 2]%nat).
    + vm_compute. reflexivity.
    + repeat constructor.
Defined.

(** ** Raising the tolerance *)

Lemma fitnessClassOf_lt (r : Q) : (fitnessClassOf r < 4)%nat.
Proof. unfold fitnessClassOf. repeat destruct (_ : bool); lia. Qed.

Section MainLoop.

Variable nodes : list Node.
Variable lineLengths : list Q.
Variable sum : Totals.
Variable node : Node.
Variable index : nat.

Local Abbreviation ratio := (ratioOf nodes lineLengths sum index).
Local Abbreviation tmpSum := (computeSum nodes sum index).
Local Abbreviation loop tol := (mainLoop_from nodes lineLengths tol sum node index).

Lemma sameBreak_ratio (a a' : Breakpoint) : sameBreak a a' -> ratio a = ratio a'.
Proof.
  intros (_ & Hl & _ & Ht). unfold ratioOf, computeCost. by rewrite Hl, Ht.
Qed.

Lemma newActiveNodes_from_elem (candidates : Candidates) (c0 : nat)
    (b : Breakpoint) :
  b ∈ newActiveNodes_from candidates c0 index tmpSum <->
  exists i a d,
    candidates !! i = Some (Some (a, d))
    /\ b = mkBreakpoint index d (line a + 1) (c0 + i) tmpSum (Some a).
Proof.
  revert c0. induction candidates as [|[[a d]|] rest IH]; intros c0; cbn.
  - split; [by intros ?%elem_of_nil|]. by intros (i & ? & ? & ? & _).
  - rewrite elem_of_cons, IH. split.
    + intros [->|(i & a' & d' & Hi & ->)].
      * exists 0%nat, a, d. by rewrite Nat.add_0_r.
      * exists (S i), a', d'. split; [done|]. f_equal. lia.
    + intros ([|i] & a' & d' & Hi & ->); cbn in Hi.
      * injection Hi as -> ->. left. by rewrite Nat.add_0_r.
      * right. exists i, a', d'. split; [done|]. f_equal. lia.
  - rewrite IH. split.
    + intros (i & a' & d' & Hi & ->). exists (S i), a', d'.
      split; [done|]. f_equal. lia.
    + intros ([|i] & a' & d' & Hi & ->); cbn in Hi; [done|].
      exists i, a', d'. split; [done|]. f_equal. lia.
Qed.

(** What [considerActive] does to the slots. *)
Lemma considerActive_lookup (tol : Q) (a : Breakpoint)
    (candidates : Candidates) (i : nat) (a0 : Breakpoint) (d : Q) :
  considerActive nodes node tol a (ratio a) candidates !! i
  = Some (Some (a0, d)) ->
  candidates !! i = Some (Some (a0, d))
  \/ (a0 = a /\ admitted tol (ratio a) = true /\ fitnessClassOf (ratio a) = i).
Proof.
  unfold considerActive, admitted.
  destruct (Qleb (-1) (ratio a) && Qleb (ratio a) tol); [|by left].
  assert (Hins : forall v,
             <[fitnessClassOf (ratio a) := Some (a, v)]> candidates !! i
             = Some (Some (a0, d)) ->
             candidates !! i = Some (Some (a0, d))
             \/ (a0 = a /\ true = true /\ fitnessClassOf (ratio a) = i)).
  { intros v Hv. destruct (decide (fitnessClassOf (ratio a) = i)) as [<-|Hne].
    - apply list_lookup_insert_Some in Hv as [(_ & Hv & _)|(? & _)]; [|done].
      injection Hv as <- <-. by right.
    - rewrite list_lookup_insert_ne in Hv by done. by left. }
  destruct (candidates !! fitnessClassOf (ratio a)) as [[[? ?]|]|];
    try destruct (Qltb _ _); first [apply Hins | by left].
Qed.

Lemma considerActive_admitted (tol : Q) (a : Breakpoint)
    (candidates : Candidates) :
  length candidates = 4%nat ->
  admitted tol (ratio a) = true ->
  exists a0 d,
    considerActive nodes node tol a (ratio a) candidates
      !! fitnessClassOf (ratio a) = Some (Some (a0, d)).
Proof.
  intros Hlen Hadm. unfold considerActive. unfold admitted in Hadm.
  rewrite Hadm. pose proof (fitnessClassOf_lt (ratio a)) as Hc.
  destruct (candidates !! fitnessClassOf (ratio a)) as [[[a1 d1]|]|] eqn:Hl.
  - destruct (Qltb _ _).
    + eexists _, _. apply list_lookup_insert_eq. lia.
    + by eexists _, _.
  - eexists _, _. apply list_lookup_insert_eq. lia.
  - apply lookup_ge_None in Hl. lia.
Qed.

Lemma considerActive_keeps (tol : Q) (a : Breakpoint)
    (candidates : Candidates) (i : nat) (a0 : Breakpoint) (d : Q) :
  candidates !! i = Some (Some (a0, d)) ->
  exists a1 d1,
    considerActive nodes node tol a (ratio a) candidates !! i
    = Some (Some (a1, d1))
    /\ (a1 = a0 \/ a1 = a).
Proof.
  intros Hi. unfold considerActive.
  destruct (_ && _); [|eexists _, _; eauto].
  assert (Hins : forall v,
             exists a1 d1,
               <[fitnessClassOf (ratio a) := Some (a, v)]> candidates !! i
               = Some (Some (a1, d1)) /\ (a1 = a0 \/ a1 = a)).
  { intros v. destruct (decide (fitnessClassOf (ratio a) = i)) as [<-|Hne].
    - eexists _, _. split; [|by right]. apply list_lookup_insert_eq.
      by eapply lookup_lt_Some.
    - rewrite list_lookup_insert_ne by done. eexists _, _; eauto. }
  destruct (candidates !! fitnessClassOf (ratio a)) as [[[? ?]|]|];
    try destruct (Qltb _ _); eauto.
Qed.

Lemma considerActive_length (tol : Q) (a : Breakpoint) (r : Q)
    (candidates : Candidates) :
  length (considerActive nodes node tol a r candidates) = length candidates.
Proof.
  unfold considerActive. destruct (_ && _); [|done].
  destruct (candidates !! _) as [[[? ?]|]|]; try destruct (Qltb _ _);
    by rewrite ?length_insert.
Qed.

(** Soundness: an active node after [mainLoop] was kept, or was made from
    an active node admitted at the tolerance. *)
Lemma mainLoop_from_sound (P : Breakpoint -> Prop) (tol : Q)
    (actives : list Breakpoint) (candidates : Candidates) (b : Breakpoint) :
  Forall P actives ->
  candidatesSound P nodes lineLengths sum index tol candidates ->
  b ∈ loop tol actives candidates ->
  (P b /\ keptAt node (ratio b) = true)
  \/ (exists a, P a /\ admitted tol (ratio a) = true
                /\ newFrom nodes lineLengths sum index a b).
Proof.
  intros Hact. revert candidates.
  induction Hact as [|a rest Ha Hrest IH]; intros candidates Hc;
    [by intros ?%elem_of_nil|].
  cbn [mainLoop_from]. fold (ratio a).
  set (cands' := considerActive nodes node tol a (ratio a) candidates).
  assert (Hc' : candidatesSound P nodes lineLengths sum index tol cands').
  { intros i a0 d Hi. apply considerActive_lookup in Hi as [Hi|(-> & ? & ?)];
      [by eapply Hc|done]. }
  assert (Hkept : b ∈ (if Qltb (ratio a) (-1) || isForcedBreak node
                       then [] else [a]) ->
                  P b /\ keptAt node (ratio b) = true).
  { unfold keptAt. destruct (_ || _) eqn:E; [by intros ?%elem_of_nil|].
    intros ->%list_elem_of_singleton. by rewrite E. }
  assert (Hnew : b ∈ newActiveNodes cands' index tmpSum ->
                 exists a, P a /\ admitted tol (ratio a) = true
                           /\ newFrom nodes lineLengths sum index a b).
  { intros (i & a0 & d & Hi & ->)%newActiveNodes_from_elem.
    destruct (Hc' _ _ _ Hi) as (HP & Hadm & Hcls).
    exists a0. repeat split; done. }
  destruct rest as [|next rest'].
  - intros [?|?]%elem_of_app; auto.
  - destruct (_ <=? _)%nat.
    + intros [?|[?|?]%elem_of_app]%elem_of_app; auto.
      apply (IH noCandidates); [|done]. by intros [|[|[|[|i]]]] ? ? ?.
    + intros [?|?]%elem_of_app; auto. by apply (IH cands').
Qed.

(** Completeness, for an active list ordered by line: a node that is to
    be kept is kept, and an admitted node (or a candidate already found
    for the line) gives a new active node of its fitness class. *)
Lemma mainLoop_from_complete (tol : Q) (actives : list Breakpoint)
    (candidates : Candidates) :
  sortedByLine actives ->
  length candidates = 4%nat ->
  (forall a, head actives = Some a -> candidatesOfLine (line a) candidates) ->
  (forall a, a ∈ actives -> keptAt node (ratio a) = true ->
             a ∈ loop tol actives candidates)
  /\ (forall a, a ∈ actives -> admitted tol (ratio a) = true ->
        exists b, b ∈ loop tol actives candidates
                  /\ newFrom nodes lineLengths sum index a b)
  /\ (forall a0 i a d, head actives = Some a0 ->
        candidates !! i = Some (Some (a, d)) ->
        exists b, b ∈ loop tol actives candidates
                  /\ position b = index /\ line b = (line a0 + 1)%nat
                  /\ fitnessClass b = i /\ totals b = tmpSum).
Proof.
  intros Hsort. revert candidates.
  induction Hsort as [|a rest Hsrest IH Hle]; intros candidates Hlen Hline.
  { split; [|split]; [by intros ? ?%elem_of_nil..|done]. }
  cbn [mainLoop_from]. fold (ratio a).
  set (cands' := considerActive nodes node tol a (ratio a) candidates).
  assert (Hlen' : length cands' = 4%nat)
    by (unfold cands'; by rewrite considerActive_length).
  assert (Hline' : candidatesOfLine (line a) cands').
  { intros i a0 d Hi. apply considerActive_lookup in Hi as [Hi|(-> & _)];
      [|done]. by eapply (Hline a). }
  set (kept := if Qltb (ratio a) (-1) || isForcedBreak node then [] else [a]).
  assert (Hkept : keptAt node (ratio a) = true -> a ∈ kept).
  { unfold keptAt, kept. destruct (_ || _); [done|]. intros _. by left. }
  (* a candidate of [cands'] gives a new node in the output *)
  assert (Hslot : forall out : list Breakpoint,
             (forall b, b ∈ newActiveNodes cands' index tmpSum -> b ∈ out) ->
             forall i a1 d1, cands' !! i = Some (Some (a1, d1)) ->
             exists b, b ∈ out /\ position b = index
                       /\ line b = (line a + 1)%nat
                       /\ fitnessClass b = i /\ totals b = tmpSum).
  { intros out Hout i a1 d1 Hi. eexists. split.
    - apply Hout. apply newActiveNodes_from_elem. by eexists _, _, _.
    - cbn. by rewrite (Hline' _ _ _ Hi). }
  (* the three shapes of the output *)
  assert (Hout : exists out,
             loop tol (a :: rest) candidates = kept ++ out
             /\ (forall a', a' ∈ rest -> keptAt node (ratio a') = true ->
                            a' ∈ out)
             /\ (forall a', a' ∈ rest -> admitted tol (ratio a') = true ->
                   exists b, b ∈ out
                             /\ newFrom nodes lineLengths sum index a' b)
             /\ (forall i a1 d1, cands' !! i = Some (Some (a1, d1)) ->
                   exists b, b ∈ out /\ position b = index
                             /\ line b = (line a + 1)%nat
                             /\ fitnessClass b = i /\ totals b = tmpSum)).
  { cbn [mainLoop_from]. fold (ratio a). fold cands'. fold kept.
    destruct rest as [|next rest'].
    - eexists. split; [done|]. split; [by intros ? ?%elem_of_nil|].
      split; [by intros ? ?%elem_of_nil|]. by apply Hslot.
    - destruct (line a + 1 <=? line next)%nat eqn:Eend.
      + destruct (IH noCandidates eq_refl) as (IHk & IHa & _).
        { by intros ? _ [|[|[|[|i]]]] ? ? ?. }
        eexists. split; [done|]. split; [|split].
        * intros a' Ha' Hk. apply elem_of_app. right. by apply IHk.
        * intros a' Ha' Hadm. destruct (IHa a' Ha' Hadm) as (b & Hb & Hnew).
          exists b. split; [|done]. apply elem_of_app. by right.
        * apply Hslot. intros b Hb. apply elem_of_app. by left.
      + apply Nat.leb_gt in Eend.
        assert (Hnext : line next = line a).
        { apply Forall_cons in Hle as [Hle _]. lia. }
        destruct (IH cands' Hlen') as (IHk & IHa & IHc).
        { intros ? [= <-]. by rewrite Hnext. }
        eexists. split; [done|]. split; [done|]. split; [done|].
        intros i a1 d1 Hi.
        destruct (IHc next i a1 d1 eq_refl Hi) as (b & Hb & Hp & Hl & Hrest).
        exists b. by rewrite <- Hnext. }
  destruct Hout as (out & Heq & Houtk & Houta & Houtc).
  cbn [mainLoop_from] in Heq. fold (ratio a) in Heq. fold cands' kept in Heq.
  rewrite Heq. split; [|split].
  - intros a' [->|Ha']%elem_of_cons Hk; apply elem_of_app; auto.
  - intros a' [->|Ha']%elem_of_cons Hadm.
    + destruct (considerActive_admitted tol a candidates Hlen Hadm)
        as (a1 & d1 & Hi).
      destruct (Houtc _ _ _ Hi) as (b & Hb & Hp & Hl & Hcls & Ht).
      exists b. split; [apply elem_of_app; by right|]. by repeat split.
    + destruct (Houta a' Ha' Hadm) as (b & Hb & Hnew).
      exists b. split; [apply elem_of_app; by right|done].
  - intros a0 i a1 d1 [= <-] Hi.
    destruct (considerActive_keeps tol a candidates i a1 d1 Hi)
      as (a2 & d2 & Hi' & _).
    destruct (Houtc _ _ _ Hi') as (b & Hb & Hrest).
    exists b. split; [apply elem_of_app; by right|done].
Qed.

End MainLoop.

Section MainLoopOrder.

Variable nodes : list Node.
Variable lineLengths : list Q.
Variable sum : Totals.
Variable node : Node.
Variable index : nat.

Local Abbreviation ratio := (ratioOf nodes lineLengths sum index).
Local Abbreviation tmpSum := (computeSum nodes sum index).
Local Abbreviation loop tol := (mainLoop_from nodes lineLengths tol sum node index).

Lemma sortedByLine_same (L : nat) (l : list Breakpoint) :
  Forall (fun b => line b = L) l -> sortedByLine l.
Proof.
  induction 1 as [|b l Hb Hl IH]; constructor; [done|].
  eapply Forall_impl; [exact Hl|]. intros c Hc. cbn in Hc. lia.
Qed.

(** [mainLoop] keeps the active list ordered by line. *)
Lemma mainLoop_from_sorted (tol : Q) (actives : list Breakpoint)
    (candidates : Candidates) :
  sortedByLine actives ->
  (forall a, head actives = Some a -> candidatesOfLine (line a) candidates) ->
  sortedByLine (loop tol actives candidates)
  /\ (forall a, head actives = Some a ->
        Forall (fun b => (line a <= line b)%nat) (loop tol actives candidates)).
Proof.
  intros Hsort. revert candidates.
  induction Hsort as [|a rest Hsrest IH Hle]; intros candidates Hline.
  { split; [constructor|done]. }
  cbn [mainLoop_from]. fold (ratio a).
  set (cands' := considerActive nodes node tol a (ratio a) candidates).
  assert (Hline' : candidatesOfLine (line a) cands').
  { intros i a0 d Hi.
    apply (considerActive_lookup nodes lineLengths sum node index) in Hi
      as [Hi|(-> & _)]; [|done]. by eapply (Hline a). }
  set (kept := if Qltb (ratio a) (-1) || isForcedBreak node then [] else [a]).
  assert (Hkept : Forall (fun b => line b = line a) kept).
  { unfold kept. destruct (_ || _); by repeat constructor. }
  assert (Hnew : Forall (fun b => line b = (line a + 1)%nat)
                   (newActiveNodes cands' index tmpSum)).
  { apply Forall_forall. intros b (i & a0 & d & Hi & ->)%newActiveNodes_from_elem.
    cbn. by rewrite (Hline' _ _ _ Hi). }
  assert (Hbase : sortedByLine (kept ++ newActiveNodes cands' index tmpSum)
                  /\ Forall (fun b => (line a <= line b)%nat)
                       (kept ++ newActiveNodes cands' index tmpSum)).
  { split.
    - apply StronglySorted_app_2; [|by eapply sortedByLine_same..].
      intros x y Hx Hy. rewrite Forall_forall in Hkept, Hnew.
      rewrite (Hkept _ Hx), (Hnew _ Hy). lia.
    - apply Forall_app. split; eapply Forall_impl; eauto; cbn; lia. }
  destruct rest as [|next rest'].
  - destruct Hbase. split; [done|]. by intros ? [= <-].
  - assert (Hnext : (line a <= line next)%nat)
      by (by apply Forall_cons in Hle as [? _]).
    destruct (line a + 1 <=? line next)%nat eqn:Eend.
    + apply Nat.leb_le in Eend.
      destruct (IH noCandidates) as [IHs IHl].
      { by intros ? _ [|[|[|[|i]]]] ? ? ?. }
      specialize (IHl next eq_refl). destruct Hbase as [Hb1 Hb2].
      split.
      * rewrite app_assoc. apply StronglySorted_app_2; [|done..].
        intros x y Hx Hy. rewrite Forall_forall in IHl. specialize (IHl _ Hy).
        apply elem_of_app in Hx as [Hx|Hx];
          rewrite Forall_forall in Hkept, Hnew;
          [rewrite (Hkept _ Hx)|rewrite (Hnew _ Hx)]; lia.
      * intros ? [= <-]. rewrite app_assoc. apply Forall_app. split; [done|].
        eapply Forall_impl; [exact IHl|]. cbn. lia.
    + apply Nat.leb_gt in Eend.
      destruct (IH cands') as [IHs IHl].
      { intros ? [= <-]. by replace (line next) with (line a) by lia. }
      specialize (IHl next eq_refl). split.
      * apply StronglySorted_app_2; [|by eapply sortedByLine_same|done].
        intros x y Hx Hy. rewrite Forall_forall in IHl, Hkept.
        rewrite (Hkept _ Hx). specialize (IHl _ Hy). lia.
      * intros ? [= <-]. apply Forall_app. split.
        -- eapply Forall_impl; [exact Hkept|]. cbn. lia.
        -- eapply Forall_impl; [exact IHl|]. cbn. lia.
Qed.

Lemma admitted_mono (tol tol' r : Q) :
  tol <= tol' -> admitted tol r = true -> admitted tol' r = true.
Proof.
  unfold admitted. intros Hle [H1 H2]%andb_true_iff.
  apply andb_true_iff. split; [done|].
  apply Qleb_le in H2. apply Qleb_le. lra.
Qed.

(** One step of the search: what is active at the smaller tolerance is
    active at the greater one. *)
Lemma mainLoop_covered (tol tol' : Q) (A A' : list Breakpoint) :
  tol <= tol' -> coveredBy A A' -> sortedByLine A' ->
  coveredBy (mainLoop nodes lineLengths tol sum node index A)
    (mainLoop nodes lineLengths tol' sum node index A').
Proof.
  intros Htol Hcov Hsort b Hb. unfold mainLoop in *.
  destruct (mainLoop_from_complete nodes lineLengths sum node index tol' A'
              noCandidates Hsort eq_refl) as (Hk & Ha & _).
  { by intros ? _ [|[|[|[|i]]]] ? ? ?. }
  apply (mainLoop_from_sound nodes lineLengths sum node index
           (fun a => exists a', a' ∈ A' /\ sameBreak a a')) in Hb.
  - destruct Hb as [((a' & Ha' & Hsame) & Hkept)|(a & (a' & Ha' & Hsame) & Hadm & Hnew)].
    + exists a'. split; [|done]. apply Hk; [done|].
      by rewrite <- (sameBreak_ratio _ _ _ _ _ _ Hsame).
    + destruct (Ha a' Ha') as (b' & Hb' & Hnew').
      { rewrite <- (sameBreak_ratio _ _ _ _ _ _ Hsame).
        by eapply admitted_mono. }
      exists b'. split; [done|].
      pose proof (sameBreak_ratio nodes lineLengths sum index a a' Hsame) as Hr.
      destruct Hnew as (Hp & Hl & Hc & Ht), Hnew' as (Hp' & Hl' & Hc' & Ht').
      destruct Hsame as (_ & Hsl & _).
      unfold sameBreak. by rewrite Hp, Hp', Hl, Hl', Hc, Hc', Ht, Ht', Hsl, Hr.
  - apply Forall_forall. intros a Ha0. by apply Hcov.
  - by intros [|[|[|[|i]]]] ? ? ?.
Qed.

End MainLoopOrder.

Lemma coveredBy_refl (A : list Breakpoint) : coveredBy A A.
Proof. intros a Ha. exists a. by repeat split. Qed.

(** The whole search: the active list at the smaller tolerance is
    covered by the one at the greater tolerance. *)
Lemma linebreak_from_covered nodes lineLengths (tol tol' : Q) rest :
  tol <= tol' ->
  forall index prevBox sum A A',
    coveredBy A A' -> sortedByLine A' ->
    coveredBy
      (linebreak_from nodes lineLengths tol rest index prevBox sum A)
      (linebreak_from nodes lineLengths tol' rest index prevBox sum A').
Proof.
  intros Htol. induction rest as [|node tail IH];
    intros index prevBox sum A A' Hcov Hsort; [done|].
  assert (Hstep : coveredBy (mainLoop nodes lineLengths tol sum node index A)
                    (mainLoop nodes lineLengths tol' sum node index A'))
    by (by apply mainLoop_covered).
  assert (Hs : sortedByLine (mainLoop nodes lineLengths tol' sum node index A')).
  { apply mainLoop_from_sorted; [done|].
    by intros ? _ [|[|[|[|i]]]] ? ? ?. }
  cbn [linebreak_from]. destruct node as [w s e h|w s e st sh|w p f].
  - by apply IH.
  - destruct prevBox; by apply IH.
  - destruct (negb _); by apply IH.
Qed.

Lemma findBestBreakpoints_nil (A : list Breakpoint) :
  findBestBreakpoints A = [] <-> A = [].
Proof.
  unfold findBestBreakpoints. split.
  - destruct A as [|a A]; [done|]. intros H.
    destruct (bestActive_Some (a :: A)) as [b Hb]; [done|].
    rewrite Hb in H. apply (f_equal length) in H.
    rewrite length_rev in H. by destruct b.
  - by intros ->.
Qed.

(** C6, as stated, fails: at tolerance 0 (replaced by the default 3) the
    break after the second word, of ratio 2, is admitted and the search
    returns the breaks 0, 3, 6; at the greater tolerance 1 it is not
    admitted and the search returns nothing. *)
Lemma linebreak_tolerance_not_monotone :
  0 <= 1
  /\ linebreak looseNodes [24] 0 = [0; 3; 6]%nat
  /\ linebreak looseNodes [24] 1 = []
  /\ admitted (num_or (Some 0) 3) 2 = true
  /\ admitted (num_or (Some 1) 3) 2 = false.
Proof. repeat split; vm_compute; congruence. Qed.

(** C6 (amended): for tolerances whose values in effect (3 in place of
    0) are in order, whatever is admitted at the smaller one is admitted
    at the greater one: every break that is active at the end of the
    search at the smaller tolerance (position, line, fitness class) is
    active at the greater one, and a search that returns a break set at
    the smaller tolerance returns one at the greater tolerance. *)
Theorem linebreak_tolerance_monotone (nodes : list Node) (widths : list Q)
    (t t' : Q) :
  num_or (Some t) 3 <= num_or (Some t') 3 ->
  (forall ratio,
      admitted (num_or (Some t) 3) ratio = true ->
      admitted (num_or (Some t') 3) ratio = true)
  /\ coveredBy (activeNodesOf nodes widths t) (activeNodesOf nodes widths t')
  /\ (linebreak nodes widths t <> [] -> linebreak nodes widths t' <> []).
Proof.
  intros Htol.
  assert (Hcov : coveredBy (activeNodesOf nodes widths t)
                   (activeNodesOf nodes widths t')).
  { unfold activeNodesOf. apply linebreak_from_covered; [done|..].
    - apply coveredBy_refl.
    - by repeat constructor. }
  split; [intros r; by apply admitted_mono|]. split; [done|].
  unfold linebreak. rewrite !findBestBreakpoints_nil.
  intros Hne Hnil. destruct (activeNodesOf nodes widths t) as [|a A]; [done|].
  destruct (Hcov a) as (a' & Ha' & _); [by left|].
  rewrite Hnil in Ha'. by apply elem_of_nil in Ha'.
Qed.

Lemma linebreak_tolerance_monotone_witness :
  coveredBy (activeNodesOf looseNodes [24] 2) (activeNodesOf looseNodes [24] 4)
  /\ (linebreak looseNodes [24] 2 <> [] -> linebreak looseNodes [24] 4 <> []).
Proof.
  apply (linebreak_tolerance_monotone looseNodes [24] 2 4).
  vm_compute. discriminate.
Defined.

(** ** The justification engine *)

Lemma sumQ_app (l k : list Q) : sumQ (l ++ k) == sumQ l + sumQ k.
Proof.
  induction l as [|x l IH]; cbn [app sumQ]; [ring|]. rewrite IH. ring.
Qed.

Lemma fold_left_Qplus {A : Type} (f : A -> Q) (l : list A) (acc : Q) :
  fold_left (fun acc x => acc + f x) l acc == acc + sumQ (map f l).
Proof.
  revert acc.
  induction l as [|x l IH]; intros acc; cbn [fold_left map sumQ]; [ring|].
  rewrite IH. ring.
Qed.

Lemma advanceWidth2_sum (ps : list Position) :
  advanceWidth2 ps == sumQ (map xAdvance ps).
Proof. unfold advanceWidth2. rewrite fold_left_Qplus. ring. Qed.

Lemma advanceWidth_as_sum (line : AttributedString) :
  advanceWidth_as line == sumQ (map advanceWidth1 (runs line)).
Proof. unfold advanceWidth_as. rewrite fold_left_Qplus. ring. Qed.

(** *** The distances add up to the weighted sums of the factors *)

Lemma distancesOf_sum (P U : PriorityArray) (factors : list Factor) :
  Forall (fun f => unconstrained f = false) factors ->
  sumQ (distancesOf P U factors)
  == sumQ (map (weighted P) factors)
     - match factors with
       | f :: _ => before f * P (priority f)
       | [] => 0
       end.
Proof.
  induction 1 as [|f rest Hf Hrest IH]; [cbn; ring|].
  destruct rest as [|g rest'].
  - cbn [distancesOf map sumQ head]. rewrite Hf. unfold weighted. ring.
  - cbn [distancesOf head]. rewrite Hf. cbn [sumQ map] in *. rewrite IH.
    unfold weighted. ring.
Qed.

Lemma pset_eq (a : PriorityArray) (p : Priority) (v : Q) : pset a p v p = v.
Proof. unfold pset. by destruct p. Qed.

Lemma pset_ne (a : PriorityArray) (p q : Priority) (v : Q) :
  p <> q -> pset a p v q = a q.
Proof. unfold pset. by destruct p, q. Qed.

Lemma sumFactors_from (P : PriorityArray) (factors : list Factor) :
  forall total (S U : PriorityArray),
    let r := fold_left
               (fun '(total, priorities, unconstrained) f =>
                  let sum := before f + after f in
                  (total + sum,
                   pset priorities (priority f) (priorities (priority f) + sum),
                   if Textkit.unconstrained f
                   then pset unconstrained (priority f)
                          (unconstrained (priority f) + sum)
                   else unconstrained))
               factors (total, S, U) in
    overPriorities (fun p => P p * r.1.2 p)
    == overPriorities (fun p => P p * S p) + sumQ (map (weighted P) factors)
    /\ r.1.1 - overPriorities (r.1.2) == total - overPriorities S
    /\ (Forall (fun f => unconstrained f = false) factors -> r.2 = U).
Proof.
  induction factors as [|f rest IH]; intros total S U; cbn zeta.
  - cbn [fold_left fst snd map sumQ]. split; [ring|]. split; [ring|done].
  - cbn [fold_left]. specialize (IH (total + (before f + after f))
      (pset S (priority f) (S (priority f) + (before f + after f)))
      (if unconstrained f
       then pset U (priority f) (U (priority f) + (before f + after f))
       else U)).
    cbn zeta in IH. destruct IH as (IH1 & IH2 & IH3).
    split; [|split].
    + rewrite IH1. cbn [map sumQ]. unfold weighted, overPriorities.
      destruct (priority f); cbn [pset Priority_eqb]; ring.
    + rewrite IH2. unfold overPriorities.
      destruct (priority f); cbn [pset Priority_eqb]; ring.
    + intros Hall. apply Forall_cons in Hall as [Hf Hall].
      rewrite IH3 by done. by rewrite Hf.
Qed.

Lemma not_covers (r s : Q) :
  0 < r -> Qleb (Qabs r) (Qabs s) = false -> s < r.
Proof.
  intros Hr H. apply Qleb_gt in H. rewrite (Qabs_pos r) in H by lra.
  pose proof (Qle_Qabs s). lra.
Qed.

Lemma Qeq_bool_false_neq (x : Q) : Qeq_bool x 0 = false -> ~ x == 0.
Proof. apply Qeq_bool_neq. Qed.

Lemma Qeq_bool_true_eq (x : Q) : Qeq_bool x 0 = true -> x == 0.
Proof. apply Qeq_bool_eq. Qed.

(** The priorities chosen for a gap to fill spend exactly the gap, when
    no factor is unconstrained and some priority has a sum. *)
Lemma choosePriorities_spends (gap total : Q) (S : PriorityArray) :
  0 < gap ->
  total == overPriorities S ->
  (exists p, ~ S p == 0) ->
  let c := choosePriorities allPriorities
             (mkChosen S (fun _ => 0) None gap) in
  let P :=
    match c_highest c with
    | Some (highestPriority, highestPrioritySum) =>
        if Qltb 0 (c_remainingGap c)
        then pset (c_priorities c) highestPriority
               ((highestPrioritySum + (gap - total)) / highestPrioritySum)
        else c_priorities c
    | None => c_priorities c
    end in
  overPriorities (fun p => P p * S p) == gap
  /\ (forall p, c_unconstrained c p = 0).
Proof.
  intros Hgap Htotal Hex. cbn zeta.
  unfold allPriorities, overPriorities in *. cbn [choosePriorities c_priorities
    c_unconstrained c_highest c_remainingGap].
  set (s0 := S KASHIDA_PRIORITY) in *. set (s1 := S WHITESPACE_PRIORITY) in *.
  set (s2 := S LETTER_PRIORITY) in *. set (s3 := S NULL_PRIORITY) in *.
  assert (Hsome : ~ (s0 == 0 /\ s1 == 0 /\ s2 == 0 /\ s3 == 0)).
  { intros (? & ? & ? & ?). destruct Hex as [[] Hp]; by apply Hp. }
  clear Hex.
  change (Qeq_bool 0 0) with true. cbn [negb].
  repeat match goal with
    | |- context [Qeq_bool ?x 0] =>
        let E := fresh "E" in
        destruct (Qeq_bool x 0) eqn:E;
        [apply Qeq_bool_true_eq in E | apply Qeq_bool_false_neq in E];
        cbn [negb zeroOut fold_left choosePriorities c_priorities
               c_unconstrained c_highest c_remainingGap pset Priority_eqb];
        fold s0 s1 s2 s3
    | |- context [Qleb (Qabs ?r) (Qabs ?s)] =>
        let E := fresh "E" in
        destruct (Qleb (Qabs r) (Qabs s)) eqn:E;
        cbn [negb zeroOut fold_left choosePriorities c_priorities
               c_unconstrained c_highest c_remainingGap pset Priority_eqb];
        fold s0 s1 s2 s3
    end;
    repeat match goal with
      | H : Qleb (Qabs ?r) (Qabs ?s) = false |- _ =>
          apply not_covers in H; [|lra]
      end;
    (split; [|by intros []]);
    try (exfalso; apply Hsome; tauto);
    repeat match goal with
      | |- context [Qltb ?a ?b] =>
          let E := fresh "E" in
          destruct (Qltb a b) eqn:E;
          [apply Qltb_lt in E | apply Qltb_ge in E]
      end;
    cbn [pset Priority_eqb];
    try (exfalso; lra);
    rewrite ?Htotal; try (field_simplify_eq; [nra | auto]); try nra.
Qed.

(** *** The factors of a line *)

Lemma clearLastAfter_snoc (l : list Factor) (f : Factor) :
  clearLastAfter (l ++ [f]) = l ++ [set_after 0 f].
Proof.
  unfold clearLastAfter. rewrite last_snoc. f_equal.
  unfold js_slice, rel_index. rewrite length_app. cbn [length].
  replace (0 <? 0)%Z with false by done.
  replace (-1 <? 0)%Z with true by done.
  rewrite Z.min_l by lia. rewrite Z.max_l by lia. cbn [drop Z.to_nat].
  replace (Z.to_nat (Z.of_nat (length l + 1) + -1 - 0)) with (length l) by lia.
  change (Z.to_nat 0) with 0%nat. rewrite drop_0. by rewrite take_app_length.
Qed.

Lemma clearLastAfter_Forall (P : Factor -> Prop) (l : list Factor) :
  (forall f, P f -> P (set_after 0 f)) ->
  Forall P l -> Forall P (clearLastAfter l).
Proof.
  intros Hset Hl. induction l as [|x l _] using rev_ind; [done|].
  rewrite clearLastAfter_snoc. apply Forall_app in Hl as [Hl Hx].
  apply Forall_app. split; [done|]. apply Forall_cons; split; [|done].
  apply Hset. by apply Forall_cons in Hx as [Hx _].
Qed.

Lemma clearLastAfter_length (l : list Factor) :
  length (clearLastAfter l) = length l.
Proof.
  induction l as [|x l _] using rev_ind; [done|].
  rewrite clearLastAfter_snoc. by rewrite !length_app.
Qed.

Lemma clearLastAfter_head (l : list Factor) :
  before <$> head (clearLastAfter l) = before <$> head l.
Proof.
  induction l as [|x l _] using rev_ind; [done|].
  rewrite clearLastAfter_snoc. by destruct l.
Qed.

Lemma factor_from_spec (P : Factor -> Prop) (c w : Factor) (n : nat)
    (glyphs : list Glyph) :
  P c -> P w ->
  (forall f, P f -> P (set_after 0 f)) ->
  (forall f, P f -> P (set_before 0 f)) ->
  forall index factors,
    Forall P factors ->
    Forall P (factor_from c w n glyphs index factors)
    /\ length (factor_from c w n glyphs index factors)
       = (length factors + length glyphs)%nat.
Proof.
  intros Hc Hw Hafter Hbefore.
  induction glyphs as [|g rest IH]; intros index factors Hall.
  - cbn. split; [done|lia].
  - cbn [factor_from length].
    destruct (isWhiteSpace g).
    + destruct (index =? n - 1)%nat.
      * destruct (0 <? index)%nat.
        -- destruct (IH (S index)
                       (clearLastAfter factors ++ [set_before 0 w])) as [H1 H2].
           { apply Forall_app. split; [by apply clearLastAfter_Forall|].
             apply Forall_cons; split; [|done]. by apply Hbefore. }
           split; [done|]. rewrite H2, length_app, clearLastAfter_length.
           cbn. lia.
        -- destruct (IH (S index) (factors ++ [set_before 0 w])) as [H1 H2].
           { apply Forall_app. split; [done|].
             apply Forall_cons; split; [|done]. by apply Hbefore. }
           split; [done|]. rewrite H2, length_app. cbn. lia.
      * destruct (IH (S index) (factors ++ [w])) as [H1 H2].
        { apply Forall_app. split; [done|]. by apply Forall_cons. }
        split; [done|]. rewrite H2, length_app. cbn. lia.
    + destruct (isMark g && (0 <? index)%nat).
      * destruct (last factors) as [prev|] eqn:Hlast.
        -- destruct (IH (S index)
                       (clearLastAfter factors ++ [set_before 0 prev]))
             as [H1 H2].
           { apply Forall_app. split; [by apply clearLastAfter_Forall|].
             apply Forall_cons; split; [|done]. apply Hbefore.
             apply last_Some_elem_of in Hlast.
             by eapply Forall_forall in Hall. }
           split; [done|]. rewrite H2, length_app, clearLastAfter_length.
           cbn. lia.
        -- destruct (IH (S index) (factors ++ [c])) as [H1 H2].
           { apply Forall_app. split; [done|]. by apply Forall_cons. }
           split; [done|]. rewrite H2, length_app. cbn. lia.
      * destruct (IH (S index) (factors ++ [c])) as [H1 H2].
        { apply Forall_app. split; [done|]. by apply Forall_cons. }
        split; [done|]. rewrite H2, length_app. cbn. lia.
Qed.

Lemma factor_spec (P : Factor -> Prop) (direction : Direction)
    (options : LayoutOptions) (glyphs : list Glyph) :
  P (getCharFactor direction options) ->
  P (getWhitespaceFactor direction options) ->
  (forall f, P f -> P (set_after 0 f)) ->
  (forall f, P f -> P (set_before 0 f)) ->
  Forall P (factor direction options glyphs)
  /\ length (factor direction options glyphs) = length glyphs.
Proof.
  intros Hc Hw Ha Hb. unfold factor.
  by destruct (factor_from_spec P _ _ (length glyphs) glyphs Hc Hw Ha Hb 0 []).
Qed.

Lemma mapM_factor_spec (P : Factor -> Prop) (direction : Direction)
    (options : LayoutOptions) (rs : list Run) :
  P (getCharFactor direction options) ->
  P (getWhitespaceFactor direction options) ->
  (forall f, P f -> P (set_after 0 f)) ->
  (forall f, P f -> P (set_before 0 f)) ->
  Forall (fun r => glyphs r <> None) rs ->
  exists perRun,
    mapM_option (fun run => factor direction options <$> glyphs run) rs
    = Some perRun
    /\ Forall P (concat perRun)
    /\ length (concat perRun)
       = sum_list (map (fun r => length (or_nil (glyphs r))) rs).
Proof.
  intros Hc Hw Ha Hb. induction 1 as [|r rs Hr Hrs IH].
  - exists []. by cbn.
  - destruct IH as (perRun & Hmap & Hall & Hlen).
    destruct (glyphs r) as [gs|] eqn:Hgs; [|done].
    destruct (factor_spec P direction options gs Hc Hw Ha Hb) as [H1 H2].
    exists (factor direction options gs :: perRun).
    cbn [mapM_option map sum_list concat]. rewrite Hgs. cbn [fmap option_fmap
      option_map or_nil]. rewrite Hmap. split; [done|].
    split; [by apply Forall_app|]. rewrite length_app, H2, Hlen. by cbn.
Qed.

Lemma getFactors_spec (P : Factor -> Prop) (gap : Q)
    (line : AttributedString) (options : LayoutOptions) :
  let direction := if Qltb 0 gap then GROW else SHRINK in
  P (getCharFactor direction options) ->
  P (getWhitespaceFactor direction options) ->
  (forall f, P f -> P (set_after 0 f)) ->
  (forall f, P f -> P (set_before 0 f)) ->
  Forall (fun r => glyphs r <> None) (runs line) ->
  glyphCount line <> 0%nat ->
  exists f rest,
    getFactors gap line options = Some (f :: rest)
    /\ before f = 0
    /\ Forall P (f :: rest)
    /\ length (f :: rest) = glyphCount line.
Proof.
  intros direction Hc Hw Ha Hb Hruns Hcount. unfold getFactors.
  fold direction.
  destruct (mapM_factor_spec P direction options (runs line) Hc Hw Ha Hb Hruns)
    as (perRun & -> & Hall & Hlen).
  fold (glyphCount line) in Hlen.
  destruct (concat perRun) as [|first rest] eqn:Hcat; [cbn in Hlen; lia|].
  assert (HP : Forall P (clearLastAfter (set_before 0 first :: rest))).
  { apply clearLastAfter_Forall; [done|].
    apply Forall_cons in Hall as [H1 H2]. apply Forall_cons. auto. }
  pose proof (clearLastAfter_head (set_before 0 first :: rest)) as Hhead.
  pose proof (clearLastAfter_length (set_before 0 first :: rest)) as Hl.
  destruct (clearLastAfter (set_before 0 first :: rest)) as [|f rest'];
    [done|].
  exists f, rest'. split; [done|]. cbn in Hhead.
  split; [congruence|]. split; [done|]. rewrite Hl. cbn in *. lia.
Qed.

(** *** The distances of a line *)

Lemma sumFactors_spec (P : PriorityArray) (factors : list Factor) :
  Forall (fun f => unconstrained f = false) factors ->
  let '(total, sums, uncon) := sumFactors factors in
  overPriorities (fun p => P p * sums p) == sumQ (map (weighted P) factors)
  /\ total == overPriorities sums
  /\ uncon = (fun _ => 0).
Proof.
  intros Hall. unfold sumFactors.
  pose proof (sumFactors_from P factors 0 (fun _ => 0) (fun _ => 0)) as H.
  cbn zeta in H.
  destruct (fold_left _ factors _) as [[total sums] uncon].
  cbn [fst snd] in H. destruct H as (H1 & H2 & H3).
  split; [|split].
  - rewrite H1. unfold overPriorities. ring.
  - unfold overPriorities in *. lra.
  - by apply H3.
Qed.

(** With expanding factors, a factor of weight makes the sum of its
    priority differ from zero. *)
Lemma weighted_nonneg (P : PriorityArray) (factors : list Factor) :
  (forall p, 0 <= P p) ->
  Forall expanding factors ->
  0 <= sumQ (map (weighted P) factors).
Proof.
  intros HP. induction 1 as [|f rest (_ & Hb & Ha) _ IH]; cbn [map sumQ];
    [lra|].
  unfold weighted at 1. pose proof (HP (priority f)). nra.
Qed.

Lemma weighted_pos (P : PriorityArray) (factors : list Factor) (f : Factor) :
  (forall p, 0 <= P p) ->
  Forall expanding factors ->
  f ∈ factors -> 0 < weighted P f ->
  0 < sumQ (map (weighted P) factors).
Proof.
  intros HP Hall Hin Hf. induction Hall as [|g rest Hg Hrest IH];
    [by apply elem_of_nil in Hin|].
  cbn [map sumQ]. apply elem_of_cons in Hin as [<-|Hin].
  - pose proof (weighted_nonneg P rest HP Hrest). lra.
  - specialize (IH Hin). pose proof (weighted_nonneg P [g] HP) as Hg'.
    cbn [map sumQ] in Hg'. specialize (Hg' ltac:(by apply Forall_cons)).
    lra.
Qed.

Lemma distancesOf_length (P U : PriorityArray) (factors : list Factor) :
  length (distancesOf P U factors) = length factors.
Proof.
  induction factors as [|f rest IH]; [done|].
  cbn [distancesOf length]. by rewrite IH.
Qed.

Lemma getDistances_sum (gap : Q) (factors : list Factor) :
  0 < gap ->
  Forall expanding factors ->
  (exists f rest, factors = f :: rest /\ before f = 0) ->
  Exists (fun f => ~ weightless f) factors ->
  sumQ (getDistances gap factors) == gap
  /\ length (getDistances gap factors) = length factors.
Proof.
  intros Hgap Hall (f0 & rest0 & Hfac & Hbefore) Hex.
  assert (Hcon : Forall (fun f => unconstrained f = false) factors).
  { eapply Forall_impl; [exact Hall|]. by intros ? (? & _). }
  split.
  2:{ unfold getDistances. destruct (sumFactors factors) as [[? ?] ?].
      apply distancesOf_length. }
  unfold getDistances.
  pose proof (fun P => sumFactors_spec P factors Hcon) as Hsum.
  destruct (sumFactors factors) as [[total sums] uncon].
  assert (HS : exists p, ~ sums p == 0).
  { apply Exists_exists in Hex as (f & Hin & Hf).
    exists (priority f).
    set (P := fun q => if Priority_eqb q (priority f) then 1 else 0).
    destruct (Hsum P) as (H1 & _ & _).
    assert (HP : forall p, 0 <= P p).
    { intros p. unfold P. destruct (Priority_eqb p (priority f)); lra. }
    assert (Hw : 0 < weighted P f).
    { unfold weighted, P. replace (Priority_eqb (priority f) (priority f))
        with true by (by destruct (priority f)).
      pose proof (proj1 (Forall_forall _ _) Hall f Hin) as (_ & Hb & Ha).
      unfold weightless in Hf.
      destruct (Qlt_le_dec 0 (before f)); [lra|].
      destruct (Qlt_le_dec 0 (after f)); [lra|].
      exfalso. apply Hf. split; lra. }
    pose proof (weighted_pos P factors f HP Hall Hin Hw) as Hpos.
    rewrite <- H1 in Hpos. unfold overPriorities, P in Hpos.
    intros Hzero. destruct (priority f); cbn [Priority_eqb] in Hpos; lra. }
  destruct (Hsum (fun _ => 0)) as (_ & Htotal & HU). subst uncon.
  pose proof (choosePriorities_spends gap total sums Hgap Htotal HS) as Hspend.
  cbn zeta in Hspend. destruct Hspend as [Hspend _].
  match type of Hspend with
  | overPriorities (fun p => ?P0 p * sums p) == gap => set (P := P0) in *
  end.
  rewrite distancesOf_sum by done.
  destruct (Hsum P) as (H1 & _ & _). rewrite <- H1, Hspend.
  subst factors. rewrite Hbefore. ring.
Qed.

Lemma getDistances_weightless (gap : Q) (factors : list Factor) :
  Forall weightless factors ->
  Forall (fun d => d == 0) (getDistances gap factors)
  /\ length (getDistances gap factors) = length factors.
Proof.
  intros Hall. unfold getDistances.
  destruct (sumFactors factors) as [[total sums] uncon].
  split; [|apply distancesOf_length].
  generalize (c_unconstrained
                (choosePriorities allPriorities (mkChosen sums uncon None gap))).
  match goal with |- forall _, Forall _ (distancesOf ?P _ _) =>
    generalize P end.
  intros P U'. clear sums uncon total.
  induction Hall as [|f rest [Hb Ha] Hrest IH]; [done|].
  cbn [distancesOf length].
  apply Forall_cons. split; [|done].
  destruct rest as [|g rest']; cbn [head].
  - destruct (unconstrained f); rewrite Ha; ring.
  - apply Forall_cons in Hrest as [[Hgb _] _].
    destruct (unconstrained f); rewrite Ha, Hgb; ring.
Qed.

(** *** The advances of the justified line *)

Lemma justifyPositions_spec (ds : list Q) (ps : list Position) :
  (length ps <= length ds)%nat ->
  exists ps',
    justifyPositions ds ps = Some (ps', drop (length ps) ds)
    /\ sumQ (map xAdvance ps')
       == sumQ (map xAdvance ps) + sumQ (take (length ps) ds)
    /\ (Forall (fun d => d == 0) ds -> Forall2 samePosition ps ps').
Proof.
  revert ds. induction ps as [|p ps IH]; intros ds Hlen.
  - exists []. split; [by destruct ds|]. cbn [map sumQ length].
    rewrite take_0. cbn [sumQ]. split; [ring|constructor].
  - destruct ds as [|d ds]; [cbn in Hlen; lia|].
    destruct (IH ds ltac:(cbn in Hlen; lia)) as (ps' & Hps & Hsum & Hsame).
    exists (add_xAdvance d p :: ps'). cbn [justifyPositions]. rewrite Hps.
    split; [done|]. split.
    + cbn [length map sumQ add_xAdvance xAdvance]. rewrite firstn_cons.
      cbn [sumQ]. rewrite Hsum. ring.
    + intros Hall. apply Forall_cons in Hall as [Hd Hall].
      constructor; [|by apply Hsame].
      unfold samePosition, add_xAdvance. cbn. split; [|done].
      rewrite Hd. ring.
Qed.

Lemma take_plus {A : Type} (a b : nat) (l : list A) :
  take (a + b) l = take a l ++ take b (drop a l).
Proof.
  revert l. induction a as [|a IH]; intros [|x l]; cbn; try done.
  - by rewrite take_nil.
  - by rewrite IH.
Qed.

Lemma positionCount_cons (r : Run) (rs : list Run) :
  positionCount (r :: rs)
  = (length (or_nil (positions r)) + positionCount rs)%nat.
Proof. reflexivity. Qed.

Lemma justifyRuns_spec (rs : list Run) :
  forall ds,
    Forall (fun r => positions r <> None) rs ->
    (positionCount rs <= length ds)%nat ->
    exists rs',
      justifyRuns ds rs = Some rs'
      /\ sumQ (map advanceWidth1 rs')
         == sumQ (map advanceWidth1 rs) + sumQ (take (positionCount rs) ds)
      /\ (Forall (fun d => d == 0) ds -> Forall2 sameRun rs rs').
Proof.
  induction rs as [|r rs IH]; intros ds Hall Hlen.
  - exists []. split; [done|]. unfold positionCount. cbn [map sum_list sumQ].
    rewrite take_0. cbn [sumQ]. split; [ring|constructor].
  - apply Forall_cons in Hall as [Hr Hall].
    destruct (positions r) as [ps|] eqn:Hps; [|done].
    rewrite positionCount_cons, Hps in Hlen. cbn [or_nil] in Hlen.
    destruct (justifyPositions_spec ds ps ltac:(lia)) as (ps' & H1 & H2 & H3).
    destruct (IH (drop (length ps) ds) Hall
                ltac:(rewrite length_drop; lia)) as (rs' & H4 & H5 & H6).
    eexists. cbn [justifyRuns]. rewrite Hps, H1, H4. split; [done|].
    split.
    + cbn [map sumQ]. rewrite H5. unfold advanceWidth1 at 1 3.
      cbn [positions or_nil]. rewrite Hps. cbn [or_nil].
      rewrite !advanceWidth2_sum, H2.
      rewrite positionCount_cons, Hps. cbn [or_nil].
      rewrite take_plus, sumQ_app. ring.
    + intros Hzero. constructor.
      * unfold sameRun. cbn. rewrite Hps. repeat split; auto.
      * apply H6. by apply Forall_drop.
Qed.

Lemma parallelArrays_counts (line : AttributedString) :
  parallelArrays line ->
  Forall (fun r => glyphs r <> None) (runs line)
  /\ Forall (fun r => positions r <> None) (runs line)
  /\ positionCount (runs line) = glyphCount line.
Proof.
  unfold parallelArrays, glyphCount, positionCount.
  induction 1 as [|r rs (gs & ps & Hg & Hp & Hlen) _ (IH1 & IH2 & IH3)];
    [done|].
  split; [|split].
  - constructor; [congruence|done].
  - constructor; [congruence|done].
  - cbn [map sum_list]. rewrite Hg, Hp. cbn [or_nil]. cbn in *. lia.
Qed.

Lemma expanding_set_after (f : Factor) : expanding f -> expanding (set_after 0 f).
Proof. intros (? & ? & ?). unfold expanding. cbn. split; [done|]. lra. Qed.

Lemma expanding_set_before (f : Factor) :
  expanding f -> expanding (set_before 0 f).
Proof. intros (? & ? & ?). unfold expanding. cbn. split; [done|]. lra. Qed.

(** The line that [justifyLine] returns for distances that cover the
    glyphs of the line. *)
Lemma justifyLine_spec (distances : list Q) (line : AttributedString) :
  parallelArrays line ->
  length distances = glyphCount line ->
  exists line',
    justifyLine distances line = Some line'
    /\ advanceWidth_as line' == advanceWidth_as line + sumQ distances
    /\ (Forall (fun d => d == 0) distances -> sameLine line line').
Proof.
  intros Hpar Hlen.
  destruct (parallelArrays_counts line Hpar) as (_ & Hpos & Hcount).
  destruct (justifyRuns_spec (runs line) distances Hpos ltac:(lia))
    as (rs' & H1 & H2 & H3).
  unfold justifyLine. rewrite H1. eexists. split; [done|]. split.
  - rewrite !advanceWidth_as_sum. cbn [runs]. rewrite H2, Hcount, <- Hlen.
    by rewrite firstn_all.
  - intros Hzero. unfold sameLine. cbn. auto.
Qed.




(** ** Sorting *)

Section Sorting.
Context {A : Type} (cmp : A -> A -> Z).

Lemma sort_insert_perm (x : A) (l : list A) : sort_insert cmp x l ≡ₚ x :: l.
Proof.
  induction l as [|y l IH]; [done|]. cbn [sort_insert].
  destruct (cmp x y <=? 0)%Z; [done|]. rewrite IH. apply Permutation_swap.
Qed.

Lemma js_sort_perm (l : list A) : js_sort cmp l ≡ₚ l.
Proof.
  induction l as [|x l IH]; [done|]. unfold js_sort. cbn [foldr].
  fold (js_sort cmp l). by rewrite sort_insert_perm, IH.
Qed.

Lemma js_sort_id (l : list A) :
  Sorted (notAfter cmp) l -> js_sort cmp l = l.
Proof.
  induction 1 as [|x l Hl IH Hx]; [done|]. unfold js_sort. cbn [foldr].
  fold (js_sort cmp l). rewrite IH.
  destruct Hx as [|y l' Hxy]; [done|]. cbn [sort_insert].
  unfold notAfter in Hxy. by rewrite (proj2 (Z.leb_le _ _) Hxy).
Qed.

Hypothesis cmp_total : forall x y, (0 < cmp x y)%Z -> (cmp y x <= 0)%Z.

Lemma sort_insert_Sorted (x : A) (l : list A) :
  Sorted (notAfter cmp) l -> Sorted (notAfter cmp) (sort_insert cmp x l).
Proof.
  induction 1 as [|y l Hl IH Hy]; [by repeat constructor|].
  cbn [sort_insert]. destruct (Z.leb_spec (cmp x y) 0) as [Hle|Hgt].
  - constructor; [by constructor|]. by constructor.
  - constructor; [done|].
    destruct Hy as [|z l' Hyz]; cbn [sort_insert].
    + constructor. by apply cmp_total.
    + destruct (cmp x z <=? 0)%Z; constructor; [by apply cmp_total|done].
Qed.

Lemma js_sort_Sorted (l : list A) : Sorted (notAfter cmp) (js_sort cmp l).
Proof.
  induction l as [|x l IH]; [constructor|]. unfold js_sort. cbn [foldr].
  by apply sort_insert_Sorted.
Qed.
End Sorting.

Lemma filter_partition {A : Type} (p : A -> bool) (l : list A) :
  List.filter p l ++ List.filter (fun x => negb (p x)) l ≡ₚ l.
Proof.
  induction l as [|x l IH]; [done|]. cbn [List.filter].
  destruct (p x); cbn [negb app].
  - by rewrite IH.
  - rewrite <- Permutation_middle. by rewrite IH.
Qed.

Lemma filter_perm {A : Type} (p : A -> bool) (l k : list A) :
  l ≡ₚ k -> List.filter p l ≡ₚ List.filter p k.
Proof.
  induction 1 as [|x l k _ IH|x y l|l k m _ IH1 _ IH2]; cbn [List.filter].
  - done.
  - destruct (p x); by rewrite IH.
  - destruct (p x), (p y); try done. apply Permutation_swap.
  - by rewrite IH1.
Qed.

Lemma filter_all {A : Type} (p : A -> bool) (l : list A) :
  Forall (fun x => p x = true) l -> List.filter p l = l.
Proof.
  induction 1 as [|x l Hx _ IH]; [done|]. cbn [List.filter].
  by rewrite Hx, IH.
Qed.

Lemma filter_none {A : Type} (p : A -> bool) (l : list A) :
  Forall (fun x => p x = false) l -> List.filter p l = [].
Proof.
  induction 1 as [|x l Hx _ IH]; [done|]. cbn [List.filter].
  by rewrite Hx, IH.
Qed.

Lemma filter_snd {A B : Type} (p : B -> bool) (l : list (A * B)) :
  (List.filter (fun x => p x.2) l).*2 = List.filter p (l.*2).
Proof.
  induction l as [|[a b] l IH]; [done|]. cbn [List.filter fmap list_fmap snd].
  destruct (p b); cbn [fmap list_fmap snd]; by rewrite <- IH.
Qed.

Lemma filter_StronglySorted {A : Type} (R : relation A) (p : A -> bool)
    (l : list A) :
  StronglySorted R l -> StronglySorted R (List.filter p l).
Proof.
  induction 1 as [|x l Hl IH Hx]; [constructor|]. cbn [List.filter].
  destruct (p x); [|done]. constructor; [done|].
  apply Forall_forall. intros y Hy. apply list_elem_of_In, filter_In in Hy.
  destruct Hy as [Hy _]. apply list_elem_of_In in Hy.
  by eapply Forall_forall in Hx.
Qed.

Lemma StronglySorted_mono {A : Type} (R R' : relation A) (l : list A) :
  (forall x y, R x y -> R' x y) -> StronglySorted R l -> StronglySorted R' l.
Proof.
  intros HR. induction 1 as [|x l Hl IH Hx]; constructor; [done|].
  eapply Forall_impl; [exact Hx|]. auto.
Qed.

Lemma NoDup_fmap_inj {A B : Type} (f : A -> B) (l : list A) (x y : A) :
  NoDup (f <$> l) -> x ∈ l -> y ∈ l -> f x = f y -> x = y.
Proof.
  induction l as [|z l IH]; intros Hnd Hx Hy Hf; [by apply elem_of_nil in Hx|].
  cbn in Hnd. apply NoDup_cons in Hnd as [Hz Hnd].
  apply elem_of_cons in Hx as [-> | Hx]; apply elem_of_cons in Hy as [-> | Hy].
  - done.
  - exfalso. apply Hz. rewrite Hf. by apply list_elem_of_fmap_2.
  - exfalso. apply Hz. rewrite <- Hf. by apply list_elem_of_fmap_2.
  - by apply IH.
Qed.

(** ** Flattening runs *)

Lemma compareRuns_total (x y : Run) :
  (0 < compareRuns x y)%Z -> (compareRuns y x <= 0)%Z.
Proof.
  unfold compareRuns.
  destruct (Z.eqb_spec (start x - start y) 0),
    (Z.eqb_spec (start y - start x) 0); lia.
Qed.

Lemma sortPoints_total (x y : Point) :
  (0 < sortPoints x y)%Z -> (sortPoints y x <= 0)%Z.
Proof.
  unfold sortPoints.
  destruct (Z.eqb_spec (p_offset x - p_offset y) 0),
    (Z.eqb_spec (p_offset y - p_offset x) 0); lia.
Qed.

Lemma notAfter_compareRuns (x y : Run) :
  notAfter compareRuns x y
  <-> (start x < start y)%Z \/ (start x = start y /\ (end_ x <= end_ y)%Z).
Proof.
  unfold notAfter, compareRuns.
  destruct (Z.eqb_spec (start x - start y) 0); lia.
Qed.

Lemma notAfter_sortPoints (x y : Point) :
  notAfter sortPoints x y
  <-> (p_offset x < p_offset y)%Z
      \/ (p_offset x = p_offset y /\ (p_index x <= p_index y)%nat).
Proof.
  unfold notAfter, sortPoints.
  destruct (Z.eqb_spec (p_offset x - p_offset y) 0); lia.
Qed.

#[local] Instance notAfter_compareRuns_trans : Transitive (notAfter compareRuns).
Proof. intros x y z. rewrite !notAfter_compareRuns. lia. Qed.

#[local] Instance notAfter_sortPoints_trans : Transitive (notAfter sortPoints).
Proof. intros x y z. rewrite !notAfter_sortPoints. lia. Qed.

Lemma sort_Sorted (l : list Run) : Sorted (notAfter compareRuns) (sort l).
Proof. apply js_sort_Sorted, compareRuns_total. Qed.

(** *** The empty runs *)

Lemma assign_empty (a : Attrs) : assign ∅ a = a.
Proof. unfold assign. apply (right_id ∅ (∪)). Qed.

Lemma mergeRuns_snoc (g : list Run) (r : Run) :
  exists a,
    mergeRuns (g ++ [r])
    = Some (mkRun (start r) (end_ r) a (glyphIndices r) (glyphs r)
              (positions r)).
Proof. unfold mergeRuns. rewrite fold_left_app. cbn. by eexists. Qed.

Lemma mergeRuns_single (r : Run) : mergeRuns [r] = Some r.
Proof. unfold mergeRuns. cbn. rewrite assign_empty. by destruct r. Qed.

Lemma pushToGroup_keys (r : Run) (groups : list (Z * list Run)) (k : Z) :
  k ∈ (pushToGroup r groups).*1 -> k ∈ groups.*1 \/ k = start r.
Proof.
  induction groups as [|[k' g] rest IH]; cbn [pushToGroup].
  - cbn. intros H. apply list_elem_of_singleton in H. by right.
  - destruct (Z.eqb_spec k' (start r)) as [-> | Hne]; cbn; [by left|].
    intros H. apply elem_of_cons in H as [-> | H].
    + left. by left.
    + destruct (IH H) as [?|?]; [left; by right|by right].
Qed.

Lemma pushToGroup_OK (p : Run -> Prop) (r : Run)
    (groups : list (Z * list Run)) :
  p r -> groupsOK p groups -> groupsOK p (pushToGroup r groups).
Proof.
  intros Hr. induction groups as [|[k g] rest IH]; intros [Hnd Hall].
  - split; cbn; [apply NoDup_singleton|]. repeat constructor; done.
  - cbn [pushToGroup]. cbn in Hnd. apply NoDup_cons in Hnd as [Hk Hnd].
    apply Forall_cons in Hall as [[Hg Hgs] Hall]. cbn [fst snd] in *.
    destruct (Z.eqb_spec k (start r)) as [-> | Hne].
    + split; cbn; [by apply NoDup_cons|]. constructor; [|done].
      cbn [fst snd]. split; [by destruct g|].
      apply Forall_app. split; [done|]. by repeat constructor.
    + destruct (IH (conj Hnd Hall)) as [Hnd' Hall'].
      split; cbn; [|by constructor].
      apply NoDup_cons. split; [|done]. intros Hin.
      apply pushToGroup_keys in Hin as [?|?]; [done|lia].
Qed.

Lemma pushToGroup_fresh (r : Run) (groups : list (Z * list Run)) :
  start r ∉ groups.*1 -> pushToGroup r groups = groups ++ [(start r, [r])].
Proof.
  induction groups as [|[k g] rest IH]; intros Hnot; [done|].
  cbn [pushToGroup]. cbn in Hnot. apply not_elem_of_cons in Hnot as [Hne Hnot].
  destruct (Z.eqb_spec k (start r)); [congruence|]. cbn. by rewrite IH.
Qed.

Lemma groups_OK (p : Run -> Prop) (runs : list Run) :
  forall groups,
    Forall p runs -> groupsOK p groups ->
    groupsOK p (fold_left (fun acc run => pushToGroup run acc) runs groups).
Proof.
  induction runs as [|r runs IH]; intros groups Hall Hok; [done|].
  apply Forall_cons in Hall as [Hr Hall]. cbn [fold_left].
  apply IH; [done|]. by apply pushToGroup_OK.
Qed.

Lemma groups_fresh (runs : list Run) :
  forall groups,
    NoDup (groups.*1 ++ (start <$> runs)) ->
    fold_left (fun acc run => pushToGroup run acc) runs groups
    = groups ++ ((fun r => (start r, [r])) <$> runs).
Proof.
  induction runs as [|r runs IH]; intros groups Hnd.
  - cbn. by rewrite app_nil_r.
  - cbn [fold_left fmap list_fmap]. rewrite pushToGroup_fresh.
    + rewrite IH.
      * by rewrite <- app_assoc.
      * rewrite fmap_app, <- app_assoc. exact Hnd.
    + apply NoDup_app in Hnd as (_ & Hnot & _). intros Hin.
      apply (Hnot _ Hin). cbn. by left.
Qed.

Lemma objectValues_perm {A : Type} (entries : list (Z * A)) :
  exists entries', entries' ≡ₚ entries /\ objectValues entries = entries'.*2.
Proof.
  eexists. split; [|reflexivity].
  rewrite js_sort_perm. apply filter_partition.
Qed.

Lemma groupsOK_perm (p : Run -> Prop) (g g' : list (Z * list Run)) :
  g' ≡ₚ g -> groupsOK p g -> groupsOK p g'.
Proof. intros Hp [H1 H2]. split; by rewrite Hp. Qed.

Lemma merged_groups (groups : list (Z * list Run)) :
  groupsOK (fun r => isEmpty r = true) groups ->
  start <$> omap mergeRuns groups.*2 = groups.*1
  /\ Forall (fun m => isEmpty m = true) (omap mergeRuns groups.*2).
Proof.
  induction groups as [|[k g] rest IH]; intros [Hnd Hall]; [done|].
  cbn in Hnd. apply NoDup_cons in Hnd as [_ Hnd].
  apply Forall_cons in Hall as [[Hg Hgs] Hall]. cbn [fst snd] in *.
  destruct (IH (conj Hnd Hall)) as [IH1 IH2].
  destruct g as [|r g _] using rev_ind; [done|].
  apply Forall_app in Hgs as [_ Hr]. apply Forall_cons in Hr as [[Hk He] _].
  destruct (mergeRuns_snoc g r) as [a Ha].
  cbn [fmap list_fmap omap list_omap snd fst]. rewrite Ha.
  cbn [fmap list_fmap start]. split.
  - f_equal; [done|]. exact IH1.
  - constructor; [|exact IH2]. unfold isEmpty in *. by cbn.
Qed.

Lemma flattenEmptyRuns_spec (runs : list Run) :
  Forall (fun r => isEmpty r = true) runs ->
  Forall (fun r => isEmpty r = true) (flattenEmptyRuns runs)
  /\ NoDup (start <$> flattenEmptyRuns runs).
Proof.
  intros Hall. unfold flattenEmptyRuns, groupEmptyRuns.
  destruct (objectValues_perm
              (fold_left (fun acc run => pushToGroup run acc) runs []))
    as (g' & Hperm & ->).
  assert (Hok : groupsOK (fun r => isEmpty r = true) g').
  { apply (groupsOK_perm _ _ _ Hperm). apply groups_OK.
    - eapply Forall_impl; [exact Hall|]. by intros r Hr.
    - split; constructor. }
  destruct (merged_groups g' Hok) as [H1 H2]. split; [done|].
  rewrite H1. apply Hok.
Qed.

Lemma flattenEmptyRuns_distinct (runs : list Run) :
  NoDup (start <$> runs) -> flattenEmptyRuns runs ≡ₚ runs.
Proof.
  intros Hnd. unfold flattenEmptyRuns, groupEmptyRuns.
  destruct (objectValues_perm
              (fold_left (fun acc run => pushToGroup run acc) runs []))
    as (g' & Hperm & ->).
  rewrite Hperm, groups_fresh by done. cbn [app].
  clear. induction runs as [|r runs IH]; [done|].
  cbn [fmap list_fmap omap list_omap snd]. rewrite mergeRuns_single.
  by constructor.
Qed.

(** *** The regular runs *)

Lemma runChain_snoc (l : list Run) (r : Run) :
  runChain l -> segment r ->
  (forall r0, last l = Some r0 -> endsAt r0 (start r)) ->
  runChain (l ++ [r]).
Proof.
  induction l as [|x l IH]; intros Hl Hr Hlast; [done|].
  destruct Hl as (Hx & Hhead & Hl). cbn [app runChain]. split; [done|].
  destruct l as [|y l'].
  - cbn. split; [|done]. by apply Hlast.
  - split; [exact Hhead|]. apply IH; [done..|].
    intros r0 H0. apply Hlast. by rewrite last_cons_cons.
Qed.

Lemma flattenPoint_res (st : FlattenState) (point : Point) :
  fs_start (flattenPoint st point) = p_offset point
  /\ fs_res (flattenPoint st point)
     = if negb (fs_start st =? -1)%Z && (fs_start st <? p_offset point)%Z
       then fs_res st
            ++ [mkRun (fs_start st) (p_offset point) (fs_attrs st) (Some [])
                  (Some []) (Some [])]
       else fs_res st.
Proof. unfold flattenPoint. by destruct (p_type point). Qed.

Lemma flattenPoint_inv (st : FlattenState) (point : Point)
    (points : list Point) :
  Forall (fun p => (p_offset point <= p_offset p)%Z) points ->
  flattenInv st (point :: points) ->
  flattenInv (flattenPoint st point) points.
Proof.
  intros Hsorted [Hchain Hstart].
  destruct (flattenPoint_res st point) as [Hs Hr].
  unfold flattenInv. rewrite Hs, Hr. clear Hs Hr.
  destruct (Z.eqb_spec (fs_start st) (-1)) as [Hm|Hm]; cbn [negb andb].
  - split; [done|]. right. split; [done|]. intros r Hlast.
    destruct Hstart as [[Hnil _]|[Hle Hend]]; [by rewrite Hnil in Hlast|].
    apply Forall_cons in Hle as [Hle _].
    destruct (Hend r Hlast) as [H1 H2]. split; lia.
  - destruct Hstart as [[_ ?]|[Hle Hend]]; [done|].
    apply Forall_cons in Hle as [Hle _].
    destruct (Z.ltb_spec (fs_start st) (p_offset point)) as [Hlt|Hge].
    + split.
      * apply runChain_snoc; [done| |done]. by repeat split.
      * right. split; [done|]. intros r Hlast. rewrite last_snoc in Hlast.
        injection Hlast as <-. split; cbn; [lia|by left].
    + split; [done|]. right. split; [done|]. intros r Hlast.
      replace (p_offset point) with (fs_start st) by lia. by apply Hend.
Qed.

Lemma flattenLoop_chain (points : list Point) :
  forall st,
    StronglySorted (fun a b => (p_offset a <= p_offset b)%Z) points ->
    flattenInv st points ->
    runChain (fs_res (fold_left flattenPoint points st)).
Proof.
  induction points as [|point points IH]; intros st Hsorted Hinv.
  - apply Hinv.
  - apply StronglySorted_inv in Hsorted as [Hrest Hhd]. cbn [fold_left].
    apply IH; [done|]. by apply flattenPoint_inv.
Qed.

(** The runs of [flattenRegularRuns] are segments one after the other. *)
Lemma flattenRegularRuns_chain (runs : list RunRef) :
  runChain (flattenRegularRuns runs).
Proof.
  unfold flattenRegularRuns, generatePoints. apply flattenLoop_chain.
  - apply (StronglySorted_mono (notAfter sortPoints)).
    + intros a b Hab. apply notAfter_sortPoints in Hab. lia.
    + apply Sorted_StronglySorted; [apply _|].
      apply js_sort_Sorted, sortPoints_total.
  - split; [done|]. by left.
Qed.

Lemma points_from_Sorted (runs : list RunRef) :
  forall i, runChain runs.*2 -> Sorted (notAfter sortPoints) (points_from i runs).
Proof.
  induction runs as [|[ref r] rest IH]; intros i Hchain; [constructor|].
  cbn in Hchain. destruct Hchain as ((Hlt & _) & Hhead & Hrest).
  cbn [points_from]. constructor; [constructor; [by apply IH|]|].
  - destruct rest as [|[ref' r'] rest']; [constructor|].
    cbn in Hhead. destruct Hhead as [Hle _]. cbn [points_from]. constructor.
    apply notAfter_sortPoints. cbn. lia.
  - constructor. apply notAfter_sortPoints. cbn. lia.
Qed.

Lemma flattenLoop_chain_id (runs : list RunRef) :
  forall i st,
    runChain runs.*2 ->
    fs_stack st = [] -> fs_attrs st = ∅ ->
    (forall r, head runs.*2 = Some r ->
               fs_start st = (-1)%Z \/ (start r <= fs_start st)%Z) ->
    fs_res (fold_left flattenPoint (points_from i runs) st)
    = fs_res st ++ runs.*2.
Proof.
  induction runs as [|[ref r] rest IH]; intros i st Hchain Hstack Hattrs Hhd.
  - cbn. by rewrite app_nil_r.
  - cbn in Hchain.
    destruct Hchain as ((Hlt & Hm & Hgi & Hg & Hp) & Hnext & Hrest).
    cbn [points_from fold_left].
    set (st1 := flattenPoint st _).
    assert (H1 : st1 = mkFlattenState (start r) (attributes r)
                         [(ref, attributes r)] (fs_res st)).
    { unfold st1, flattenPoint. cbn [p_type p_offset p_attributes fst snd].
      rewrite Hstack, Hattrs, assign_empty. cbn [app].
      destruct (Hhd r eq_refl) as [-> | Hle]; [done|].
      replace (fs_start st <? start r)%Z with false by lia.
      by rewrite andb_false_r. }
    rewrite H1. clear st1 H1.
    set (st2 := flattenPoint _ _).
    assert (H2 : st2 = mkFlattenState (end_ r) ∅ [] (fs_res st ++ [r])).
    { unfold st2, flattenPoint.
      cbn [p_type p_offset p_attributes fst snd fs_start fs_attrs fs_stack
             fs_res List.filter].
      rewrite Nat.eqb_refl. cbn [negb fold_left].
      replace (start r =? -1)%Z with false by lia.
      replace (start r <? end_ r)%Z with true by lia. cbn [negb andb].
      do 2 f_equal. destruct r; cbn in *. by subst. }
    rewrite H2. clear st2 H2.
    rewrite (IH (S i)); [|done..|].
    + cbn [fs_res fmap list_fmap snd]. by rewrite <- app_assoc.
    + cbn [fs_start]. intros r' Hr'. rewrite Hr' in Hnext.
      destruct Hnext as [_ [-> | ->]]; [right; lia|by left].
Qed.

(** A list of segments one after the other is what
    [flattenRegularRuns] makes of it, whatever the identities. *)
Lemma flattenRegularRuns_id (runs : list RunRef) :
  runChain runs.*2 -> flattenRegularRuns runs = runs.*2.
Proof.
  intros Hchain. unfold flattenRegularRuns, generatePoints.
  rewrite js_sort_id by by apply points_from_Sorted.
  rewrite flattenLoop_chain_id; try done. intros r _. by left.
Qed.

Lemma runChain_starts (l : list Run) :
  runChain l ->
  StronglySorted (fun a b => (start a < start b)%Z) l /\ Forall segment l.
Proof.
  intros Hchain.
  assert (Hs : Sorted (fun a b => (start a < start b)%Z) l
               /\ Forall segment l).
  { induction l as [|r l IH]; [by split; constructor|].
    destruct Hchain as (Hr & Hnext & Hrest). destruct (IH Hrest) as [IH1 IH2].
    split; [|by constructor]. constructor; [done|].
    destruct l as [|r' l']; constructor. cbn in Hnext.
    destruct Hr as [Hlt _]. destruct Hnext as [Hle _]. lia. }
  destruct Hs as [Hs Hseg]. split; [|done].
  apply Sorted_StronglySorted; [|done]. intros x y z. lia.
Qed.

Lemma StronglySorted_start_inj (l : list Run) (x y : Run) :
  StronglySorted (fun a b => (start a < start b)%Z) l ->
  x ∈ l -> y ∈ l -> start x = start y -> x = y.
Proof.
  induction 1 as [|z l Hl IH Hz]; intros Hx Hy Heq;
    [by apply elem_of_nil in Hx|].
  rewrite Forall_forall in Hz.
  apply elem_of_cons in Hx as [-> | Hx]; apply elem_of_cons in Hy as [-> | Hy].
  - done.
  - specialize (Hz y Hy). lia.
  - specialize (Hz x Hx). lia.
  - by apply IH.
Qed.

(** *** [flatten] twice *)

(** The parts of [flatten]: empty runs that start at different offsets,
    and a chain of segments; no two of them are sorted alike. *)
Lemma flatten_parts (runs : list RunRef) :
  let emptyRuns := flattenEmptyRuns (List.filter isEmpty (runs.*2)) in
  let regularRuns :=
    flattenRegularRuns (List.filter (fun r => negb (isEmpty r.2)) runs) in
  Forall (fun r => isEmpty r = true) emptyRuns
  /\ NoDup (start <$> emptyRuns)
  /\ runChain regularRuns
  /\ Forall (fun r => isEmpty r = false) regularRuns
  /\ (forall x y,
         x ∈ emptyRuns ++ regularRuns -> y ∈ emptyRuns ++ regularRuns ->
         notAfter compareRuns x y -> notAfter compareRuns y x -> x = y).
Proof.
  intros emptyRuns regularRuns.
  destruct (flattenEmptyRuns_spec (List.filter isEmpty (runs.*2)))
    as [He Hnd].
  { apply Forall_forall. intros r Hr. apply list_elem_of_In, filter_In in Hr.
    apply Hr. }
  fold emptyRuns in He, Hnd.
  pose proof (flattenRegularRuns_chain
                (List.filter (fun r => negb (isEmpty r.2)) runs)) as Hchain.
  fold regularRuns in Hchain.
  destruct (runChain_starts regularRuns Hchain) as [Hsorted Hseg].
  assert (Hreg : Forall (fun r => isEmpty r = false) regularRuns).
  { eapply Forall_impl; [exact Hseg|]. intros r (Hlt & _). unfold isEmpty.
    lia. }
  split; [done|]. split; [done|]. split; [done|]. split; [done|].
  intros x y Hx Hy Hxy Hyx.
  apply notAfter_compareRuns in Hxy. apply notAfter_compareRuns in Hyx.
  assert (Hs : start x = start y) by lia.
  assert (Hee : end_ x = end_ y) by lia.
  rewrite Forall_forall in He, Hreg.
  apply elem_of_app in Hx as [Hx|Hx]; apply elem_of_app in Hy as [Hy|Hy].
  - by apply (NoDup_fmap_inj start emptyRuns).
  - specialize (He x Hx). specialize (Hreg y Hy). unfold isEmpty in *. lia.
  - specialize (He y Hy). specialize (Hreg x Hx). unfold isEmpty in *. lia.
  - by apply (StronglySorted_start_inj regularRuns).
Qed.

(** C7: [flatten] is idempotent.  [flatten] compares the attributes of
    the runs by identity, so its argument carries one for each run; the
    runs it returns have new ones.  Whatever identities [again] gives to
    the runs of [flatten runs], flattening them gives [flatten runs]. *)
Theorem flatten_idempotent (runs again : list RunRef) :
  again.*2 = flatten runs -> flatten again = flatten runs.
Proof.
  intros Hagain. unfold flatten at 1. rewrite Hagain.
  unfold flatten in *.
  destruct (flatten_parts runs) as (He & Hnd & Hchain & Hreg & Hinj).
  set (emptyRuns := flattenEmptyRuns (List.filter isEmpty (runs.*2))) in *.
  set (regularRuns :=
         flattenRegularRuns (List.filter (fun r => negb (isEmpty r.2)) runs))
    in *.
  assert (Hperm : sort (emptyRuns ++ regularRuns) ≡ₚ emptyRuns ++ regularRuns)
    by apply js_sort_perm.
  (* the empty runs of the result *)
  assert (H1 : List.filter isEmpty (sort (emptyRuns ++ regularRuns))
               ≡ₚ emptyRuns).
  { rewrite (filter_perm _ _ _ Hperm), List.filter_app.
    rewrite (filter_all _ emptyRuns) by done.
    rewrite (filter_none _ regularRuns) by done. by rewrite app_nil_r. }
  assert (H2 : flattenEmptyRuns
                 (List.filter isEmpty (sort (emptyRuns ++ regularRuns)))
               ≡ₚ emptyRuns).
  { rewrite flattenEmptyRuns_distinct; [done|]. by rewrite H1. }
  (* the regular runs of the result *)
  assert (H3 : (List.filter (fun r => negb (isEmpty r.2)) again).*2
               = regularRuns).
  { rewrite (filter_snd (fun r => negb (isEmpty r))), Hagain.
    apply (Sorted_unique_strong (notAfter compareRuns)).
    - intros x y Hx Hy. apply Hinj.
      + apply list_elem_of_In, filter_In in Hx as [Hx _].
        apply list_elem_of_In in Hx. by rewrite Hperm in Hx.
      + apply elem_of_app. by right.
    - apply StronglySorted_Sorted, filter_StronglySorted.
      apply Sorted_StronglySorted; [apply _|apply sort_Sorted].
    - destruct (runChain_starts regularRuns Hchain) as [Hs _].
      apply StronglySorted_Sorted.
      eapply StronglySorted_mono; [|exact Hs].
      intros a b Hab. apply notAfter_compareRuns. by left.
    - rewrite (filter_perm _ _ _ Hperm), List.filter_app.
      rewrite (filter_none _ emptyRuns).
      + rewrite (filter_all _ regularRuns); [done|].
        eapply Forall_impl; [exact Hreg|]. by intros r ->.
      + eapply Forall_impl; [exact He|]. by intros r ->. }
  rewrite (flattenRegularRuns_id _) by by rewrite H3.
  rewrite H3.
  apply (Sorted_unique_strong (notAfter compareRuns)).
  - intros x y Hx Hy. apply Hinj.
    + unfold sort in Hx. rewrite js_sort_perm, H2 in Hx. done.
    + by rewrite Hperm in Hy.
  - apply sort_Sorted.
  - apply sort_Sorted.
  - unfold sort. by rewrite !js_sort_perm, H2.
Qed.

Lemma flatten_idempotent_witness :
  flatten (withRefs (flatten overlapping)) = flatten overlapping.
Proof. apply flatten_idempotent. by vm_compute. Defined.

(** ** Slices that follow each other *)

Lemma js_slice_clamp {A : Type} (a b : Z) (l : list A) :
  (0 <= a)%Z -> (0 <= b)%Z ->
  js_slice a (Fin b) l
  = js_slice (Z.min a (zlength l)) (Fin (Z.min b (zlength l))) l.
Proof.
  intros Ha Hb. unfold js_slice, rel_index, zlength.
  rewrite !(proj2 (Z.ltb_ge _ 0)) by lia.
  by rewrite <- !Z.min_assoc, !Z.min_id.
Qed.

(** Two slices that follow each other make one, also beyond the end of
    the array. *)
Lemma js_slice_adjacent {A : Type} (a b c : Z) (l : list A) :
  (0 <= a <= b)%Z -> (b <= c)%Z ->
  js_slice a (Fin b) l ++ js_slice b (Fin c) l = js_slice a (Fin c) l.
Proof.
  intros Hab Hbc.
  rewrite (js_slice_clamp a b), (js_slice_clamp b c), (js_slice_clamp a c)
    by lia.
  apply js_slice_app; unfold zlength; lia.
Qed.

Lemma normalize_idemp (l : list Z) : normalize (normalize l) = normalize l.
Proof.
  destruct l as [|z l]; [done|]. cbn. f_equal; [lia|].
  rewrite map_map. apply map_ext. intros v. lia.
Qed.

Lemma normalize_shift (c : Z) (l : list Z) :
  normalize (map (fun v => (v + c + 1)%Z) l) = normalize l.
Proof.
  destruct l as [|z l]; [done|]. cbn. f_equal; [lia|].
  rewrite map_map. apply map_ext. intros v. lia.
Qed.

Lemma normalize_head (z : Z) (l : list Z) :
  normalize (z :: l) = map (fun v => (v - z)%Z) (z :: l).
Proof. done. Qed.

Lemma slice2_nothing (font : option Font) (glyph : option Glyph) :
  slice2 0 (Fin 0) font glyph = [].
Proof. by destruct glyph. Qed.

Lemma StronglySorted_lookup_le (l : list Z) (k k' : nat) (v v' : Z) :
  StronglySorted Z.le l -> (k <= k')%nat ->
  l !! k = Some v -> l !! k' = Some v' -> (v <= v')%Z.
Proof.
  intros Hs. revert k k'.
  induction Hs as [|x l Hl IH Hx]; intros k k' Hk H1 H2; [done|].
  destruct k as [|k], k' as [|k']; cbn in H1, H2.
  - simplify_eq. lia.
  - simplify_eq. rewrite Forall_forall in Hx. apply Hx.
    by eapply list_elem_of_lookup_2.
  - lia.
  - apply (IH k k'); [lia|done..].
Qed.

Section RunSlices.
Variables (r : Run) (gi : list Z).
Hypothesis Hgi : glyphIndices r = Some gi.
Hypothesis Hlen : zlength gi = length_run r.
Hypothesis Horder : glyphsInOrder gi.

Lemma glyphIndexAt_glyphAt (k : Z) :
  (0 <= k)%Z -> glyphIndexAt (Fin k) r = Fin (glyphAt gi k).
Proof.
  intros Hk. unfold glyphIndexAt, glyphAt, js_nth. rewrite Hgi.
  replace (k <? 0)%Z with false by lia. by destruct (gi !! Z.to_nat k).
Qed.

Lemma glyphAt_range (k : Z) :
  (0 <= k <= zlength gi)%Z -> (0 <= glyphAt gi k <= zlength gi)%Z.
Proof.
  intros Hk. unfold glyphAt. destruct (gi !! Z.to_nat k) as [v|] eqn:E;
    [|lia].
  destruct Horder as [_ Hb]. rewrite Forall_forall in Hb. apply Hb.
  by eapply list_elem_of_lookup_2.
Qed.

Lemma glyphAt_mono (k k' : Z) :
  (0 <= k <= k')%Z -> (k' <= zlength gi)%Z ->
  (glyphAt gi k <= glyphAt gi k')%Z.
Proof.
  intros Hk Hk'. pose proof (glyphAt_range k ltac:(lia)) as Hr.
  unfold glyphAt in *.
  destruct (gi !! Z.to_nat k) as [v|] eqn:E1,
    (gi !! Z.to_nat k') as [v'|] eqn:E2.
  - destruct Horder as [Hs _].
    apply (StronglySorted_lookup_le gi (Z.to_nat k) (Z.to_nat k'));
      [done|lia|done..].
  - apply lookup_ge_None in E2. unfold zlength in *. lia.
  - apply lookup_ge_None in E1. apply lookup_lt_Some in E2. lia.
  - lia.
Qed.

Lemma offset_glyph_start (i : Z) :
  (0 <= i)%Z -> atGlyphStart gi i -> offset (Fin i) r = 0%Z.
Proof.
  intros Hi Hstart. unfold offset, js_nth. rewrite Hgi. cbn [or_nil].
  replace (i <? 0)%Z with false by lia.
  destruct (gi !! Z.to_nat i) as [value|] eqn:E; [|done].
  destruct Hstart as [-> | [-> | (v & H1 & H2)]].
  - by rewrite js_slice_empty.
  - apply lookup_lt_Some in E. unfold zlength in E. lia.
  - rewrite E in H2. injection H2 as ->.
    assert (i <> 0)%Z as Hne.
    { intros ->. change (Z.to_nat (0 - 1)) with 0%nat in H1.
      change (Z.to_nat 0) with 0%nat in E. rewrite H1 in E.
      injection E. lia. }
    rewrite filter_none; [done|]. apply Forall_forall. intros x Hx.
    pose proof (lookup_lt_Some _ _ _ E) as Hlt.
    rewrite js_slice_range in Hx by (unfold zlength; lia).
    apply elem_of_take in Hx as (k & Hk & Hki). rewrite lookup_drop in Hk.
    destruct Horder as [Hs _].
    assert (Hle : (x <= v)%Z).
    { apply (StronglySorted_lookup_le gi (Z.to_nat 0 + k)
               (Z.to_nat (i - 1))); [done|lia|done..]. }
    apply Z.eqb_neq. lia.
Qed.

(** A slice that starts where a glyph starts. *)
Lemma slice1_at (s : Z) (e : Idx) :
  (0 <= s)%Z -> offset (Fin s) r = 0%Z ->
  slice1 s e r
  = mkRun (start r + s) (min_end (end_ r) (start r) e) (attributes r)
      (Some (normalize (js_slice s e gi)))
      (Some (js_slice (glyphAt gi s) (glyphIndexAt e r) (or_nil (glyphs r))
             ++ endGlyphsAt e r))
      (Some (js_slice (glyphAt gi s) (glyphIndexAt e r)
               (or_nil (positions r))
             ++ map (glyphPosition (scale r)) (endGlyphsAt e r))).
Proof.
  intros Hs Hoff. unfold slice1, endGlyphsAt.
  rewrite (glyphIndexAt_glyphAt s Hs), Hoff, Hgi. cbn [or_nil].
  change (0 <? 0)%Z with false. cbn [map app].
  change (Z.min 1 0) with 0%Z. by rewrite Z.add_0_r.
Qed.

(** The glyph indices of two slices that follow each other, put
    together by [concat]. *)
Lemma concat_glyphIndices (i j : Z) :
  (0 <= i <= j)%Z -> (j <= zlength gi)%Z -> atGlyphStart gi i ->
  let xa := normalize (js_slice 0 (Fin i) gi) in
  let xb := normalize (js_slice i (Fin j) gi) in
  normalize
    (xa ++ map (fun v => (v + match last xa with Some l => l | None => 0 end
                          + 1)%Z) xb)
  = normalize (js_slice 0 (Fin j) gi).
Proof.
  intros Hij Hj Hstart xa xb.
  rewrite <- (js_slice_adjacent 0 i j gi) by lia. subst xa xb.
  rewrite !js_slice_range by lia.
  replace (Z.to_nat i - Z.to_nat 0)%nat with (Z.to_nat i) by lia.
  change (drop (Z.to_nat 0) gi) with gi.
  set (n := Z.to_nat i). set (m := (Z.to_nat j - n)%nat).
  destruct (take n gi) as [|a0 ta] eqn:Ea.
  - cbn [normalize app last]. by rewrite normalize_shift, normalize_idemp.
  - destruct (take m (drop n gi)) as [|b0 tb] eqn:Eb.
    + change (normalize []) with (@nil Z). cbn [map].
      by rewrite !app_nil_r, normalize_idemp.
    + (* the last index before [i] and the first from [i] on *)
      assert (Hn : (0 < n)%nat).
      { destruct n; [by rewrite take_0 in Ea|lia]. }
      assert (Hb0 : gi !! n = Some b0).
      { pose proof (f_equal (fun l => l !! 0%nat) Eb) as H. cbn in H.
        destruct m; [by rewrite take_0 in Eb|].
        rewrite lookup_take_lt, lookup_drop in H by lia.
        by rewrite Nat.add_0_r in H. }
      destruct Hstart as [-> | [-> | (v & H1 & H2)]].
      * subst n. cbn in Hn. lia.
      * apply lookup_lt_Some in Hb0. unfold zlength in *. subst n. lia.
      * replace (Z.to_nat i) with n in H2 by done.
        rewrite Hb0 in H2. injection H2 as ->.
        replace (Z.to_nat (i - 1)) with (n - 1)%nat in H1 by (subst n; lia).
        assert (Hlast : last (a0 :: ta) = Some v).
        { rewrite <- Ea, last_lookup, length_take.
          pose proof (lookup_lt_Some _ _ _ Hb0).
          rewrite lookup_take_lt by lia.
          replace (Init.Nat.pred (n `min` length gi)) with (n - 1)%nat by lia.
          done. }
        rewrite (normalize_head a0 ta), (normalize_head (v + 1) tb).
        assert (Hl : last (map (fun x => (x - a0)%Z) (a0 :: ta))
                     = Some (v - a0)%Z).
        { change (last ((fun x => (x - a0)%Z) <$> (a0 :: ta))
                  = Some (v - a0)%Z).
          by rewrite fmap_last, Hlast. }
        rewrite Hl.
        match goal with
        | |- context [map ?g (map ?f ((v + 1)%Z :: tb))] =>
            replace (map g (map f ((v + 1)%Z :: tb)))
              with (map (fun x => (x - a0)%Z) ((v + 1)%Z :: tb))
              by (rewrite map_map; apply map_ext; intros; lia)
        end.
        rewrite <- map_app. cbn [app]. rewrite <- normalize_head.
        apply normalize_idemp.
Qed.

(** C4 for a run: where a glyph starts, the slices of the run before
    and after make together the slice of the whole. *)
Lemma concat_run_slices (i j : Z) :
  (0 <= i <= j)%Z -> (j <= zlength gi)%Z -> atGlyphStart gi i ->
  concat_run (slice1 0 (Fin i) r) (slice1 i (Fin j) r) = slice1 0 (Fin j) r.
Proof.
  intros Hij Hj Hstart.
  assert (H0 : offset (Fin 0) r = 0%Z)
    by (apply offset_glyph_start; [lia|by left]).
  assert (Hi : offset (Fin i) r = 0%Z)
    by (apply offset_glyph_start; [lia|done]).
  rewrite (slice1_at 0 (Fin i)), (slice1_at i (Fin j)),
    (slice1_at 0 (Fin j)) by (done || lia).
  unfold endGlyphsAt at 1 2. rewrite Hi, slice2_nothing.
  rewrite !(glyphIndexAt_glyphAt i), !(glyphIndexAt_glyphAt j) by lia.
  pose proof (glyphAt_range 0 ltac:(unfold zlength; lia)) as Hr0.
  pose proof (glyphAt_mono 0 i ltac:(lia) ltac:(lia)) as H0i.
  pose proof (glyphAt_mono i j ltac:(lia) ltac:(lia)) as Hij'.
  unfold concat_run, length_run.
  cbn [start end_ attributes glyphIndices glyphs positions or_nil min_end
         map].
  rewrite !app_nil_r, !app_assoc, !js_slice_adjacent by lia.
  rewrite (concat_glyphIndices i j) by done.
  unfold assign. rewrite (idemp_L (∪) (attributes r)).
  f_equal. unfold length_run in Hlen. lia.
Qed.
End RunSlices.

Lemma filter_single (r : Run) (st e n : Z) :
  start r = 0%Z -> end_ r = n -> (0 < n)%Z ->
  (0 <= st <= e)%Z -> (e <= n)%Z ->
  Textkit.filter st e [r] = [r].
Proof.
  intros Hs He Hn Hst Hen. unfold Textkit.filter, runIndexAt1, findIndex.
  cbn [findIndex_from]. rewrite Hs, He.
  destruct (Z.leb_spec 0 st), (Z.ltb_spec st n), (Z.leb_spec 0 (e - 1)),
    (Z.ltb_spec (e - 1) n); cbn [andb]; try reflexivity; lia.
Qed.

Lemma slice_single (s : AttributedString) (r : Run) (st e : Z) :
  runs s = [r] -> string_ s <> [] ->
  start r = 0%Z -> end_ r = zlength (string_ s) ->
  (0 <= st <= e)%Z -> (e <= zlength (string_ s))%Z ->
  runs (slice st e s) = [subtract st (slice1 st (Fin e) r)].
Proof.
  intros Hruns Hne Hs He Hst Hen. unfold slice.
  destruct (string_ s) as [|c u] eqn:Hu; [done|]. cbn [length Nat.eqb runs].
  rewrite Hruns, (filter_single r st e (zlength (c :: u)))
    by (done || (unfold zlength; cbn [length]; lia)).
  unfold sliceRuns. cbn. by rewrite Hs, !Z.sub_0_r.
Qed.

Lemma concat_run_subtract (a b : Run) (i : Z) :
  concat_run (subtract 0 a) (subtract i b) = subtract 0 (concat_run a b).
Proof.
  unfold concat_run, subtract, length_run. cbn. f_equal. lia.
Qed.

(** C4, as stated, fails: a slice cut inside a ligature gets the glyphs
    that the font gives to the parts of the ligature, so the runs of the
    two slices have, put together by [concat], one glyph more than the
    run of the whole slice. *)
Lemma slice_concat_ligature :
  exists a b c,
    runs (slice 0 2 ligatureString) = [a]
    /\ runs (slice 2 4 ligatureString) = [b]
    /\ runs (slice 0 4 ligatureString) = [c]
    /\ concat_run a b <> c.
Proof.
  eexists _, _, _. split; [by vm_compute|]. split; [by vm_compute|].
  split; [by vm_compute|]. intros H.
  apply (f_equal (fun r => length (or_nil (glyphs r)))) in H.
  vm_compute in H. discriminate.
Qed.

(** C4 (amended): for 0 <= i <= j <= length(s), the strings of
    slice(0,i,s) and slice(i,j,s) make together the string of
    slice(0,j,s).  When s is not empty and has one run, over the whole
    string, with its glyph indices in order, and a glyph starts at i, then
    [concat] of the run of slice(0,i,s) and the run of slice(i,j,s) is the
    run of slice(0,j,s). *)
Theorem slice_concat (s : AttributedString) (i j : Z) :
  (0 <= i <= j)%Z -> (j <= zlength (string_ s))%Z ->
  string_ (slice 0 i s) ++ string_ (slice i j s) = string_ (slice 0 j s)
  /\ forall r gi,
       runs s = [r] -> string_ s <> [] ->
       start r = 0%Z -> end_ r = zlength (string_ s) ->
       glyphIndices r = Some gi -> zlength gi = zlength (string_ s) ->
       glyphsInOrder gi -> atGlyphStart gi i ->
       exists a b,
         runs (slice 0 i s) = [a] /\ runs (slice i j s) = [b]
         /\ runs (slice 0 j s) = [concat_run a b].
Proof.
  intros Hij Hj. split.
  - rewrite !slice_string. apply js_slice_adjacent; lia.
  - intros r gi Hruns Hne Hs He Hgi Hlen Horder Hstart.
    exists (subtract 0 (slice1 0 (Fin i) r)),
      (subtract i (slice1 i (Fin j) r)).
    rewrite !(slice_single s r) by (done || lia).
    split; [done|]. split; [done|].
    rewrite concat_run_subtract.
    rewrite (concat_run_slices r gi); try done; [|lia].
    unfold length_run. lia.
Qed.

Lemma slice_concat_witness :
  string_ (slice 0 1 ligatureString) ++ string_ (slice 1 4 ligatureString)
  = string_ (slice 0 4 ligatureString)
  /\ exists a b,
       runs (slice 0 1 ligatureString) = [a]
       /\ runs (slice 1 4 ligatureString) = [b]
       /\ runs (slice 0 4 ligatureString) = [concat_run a b].
Proof.
  destruct (slice_concat ligatureString 1 4) as [Hstring Hruns];
    [lia|by vm_compute|].
  split; [exact Hstring|].
  eapply (Hruns _ [0; 1; 1; 2]%Z).
  - reflexivity.
  - discriminate.
  - reflexivity.
  - reflexivity.
  - reflexivity.
  - reflexivity.
  - split; repeat constructor; by vm_compute.
  - right. right. by exists 0%Z.
Defined.

(** ** The empty attributed string *)


(** ** Rectangles and line fragments *)

Lemma js_max_spec (a b : Q) :
  (a <= js_max a b /\ b <= js_max a b)
  /\ (js_max a b = a \/ js_max a b = b).
Proof.
  unfold js_max. destruct (Qltb a b) eqn:E.
  - apply Qltb_lt in E. split; [lra|by right].
  - apply Qltb_ge in E. split; [lra|by left].
Qed.

Lemma js_min_spec (a b : Q) :
  (js_min a b <= a /\ js_min a b <= b)
  /\ (js_min a b = a \/ js_min a b = b).
Proof.
  unfold js_min. destruct (Qltb b a) eqn:E.
  - apply Qltb_lt in E. split; [lra|by right].
  - apply Qltb_ge in E. split; [lra|by left].
Qed.

Lemma intersects_spec (a b : Rect) :
  intersects a b = true ->
  rect_x a <= rect_x b + rect_width b /\ rect_x b <= rect_x a + rect_width a
  /\ rect_x a <= rect_x a + rect_width a
  /\ rect_x b <= rect_x b + rect_width b
  /\ meetsY a b = true.
Proof.
  unfold intersects, meetsY. intros H. apply andb_true_iff in H as [Hx Hy].
  apply Qleb_le in Hx.
  destruct (js_max_spec (rect_x a) (rect_x b)) as [[? ?] _].
  destruct (js_min_spec (rect_x a + rect_width a) (rect_x b + rect_width b))
    as [[? ?] _].
  repeat split; try lra. exact Hy.
Qed.

Lemma not_intersects_spec (a b : Rect) :
  intersects a b = false -> meetsY a b = true ->
  0 <= rect_width a -> 0 <= rect_width b ->
  rect_x a + rect_width a < rect_x b \/ rect_x b + rect_width b < rect_x a.
Proof.
  unfold intersects, meetsY. intros H Hy Ha Hb. rewrite Hy, andb_true_r in H.
  apply Qleb_gt in H.
  destruct (js_max_spec (rect_x a) (rect_x b)) as [_ [Hm | Hm]],
    (js_min_spec (rect_x a + rect_width a) (rect_x b + rect_width b))
      as [_ [Hn | Hn]]; rewrite Hm, Hn in H; lra.
Qed.

Lemma meetsY_same (e r f : Rect) :
  rect_y f = rect_y r -> rect_height f = rect_height r ->
  meetsY e f = meetsY e r.
Proof. unfold meetsY. by intros -> ->. Qed.

(** The pieces that [getLineFragment] leaves of a fragment. *)
Lemma getLineFragment_spec (f e p : Rect) :
  p ∈ getLineFragment f e ->
  0 <= rect_width f -> 0 <= rect_width e ->
  withinLine f p /\ 0 <= rect_width p /\ (meetsY e f = true -> beside p e).
Proof.
  unfold getLineFragment. intros Hp Hf He.
  destruct (intersects e f) eqn:Ei; cbn [negb] in Hp.
  - apply intersects_spec in Ei as (H1 & H2 & H3 & H4 & _).
    apply list_elem_of_In, filter_In in Hp as [Hp Hw].
    apply Qltb_lt in Hw. unfold withinLine, beside.
    destruct Hp as [<- | [<- | []]]; cbn in *.
    + split; [repeat split; (reflexivity || lra)|]. split; [lra|].
      intros _. left. lra.
    + split; [repeat split; (reflexivity || lra)|]. split; [lra|].
      intros _. right. lra.
  - apply list_elem_of_singleton in Hp as ->.
    split; [unfold withinLine; repeat split; (reflexivity || lra)|].
    split; [assumption|].
    intros Hy. unfold beside.
    destruct (not_intersects_spec e f Ei Hy He Hf); [right|left]; lra.
Qed.

Lemma getLineFragments_from (excludeRects : list Rect) (r : Rect) :
  forall fragments,
    Forall (fun e => 0 <= rect_width e) excludeRects ->
    Forall (fun f => withinLine r f /\ 0 <= rect_width f) fragments ->
    Forall
      (fun f =>
         withinLine r f /\ 0 <= rect_width f
         /\ Forall (fun e => meetsY e r = true -> beside f e) excludeRects)
      (fold_left
         (fun fragments excludeRect =>
            flat_map (fun fragment => getLineFragment fragment excludeRect)
              fragments)
         excludeRects fragments).
Proof.
  induction excludeRects as [|e rest IH]; intros fragments Hex Hfr.
  - cbn. eapply Forall_impl; [exact Hfr|]. intros f [? ?].
    split; [assumption|]. split; [assumption|constructor].
  - apply Forall_cons in Hex as [He Hrest]. cbn [fold_left].
    set (next := flat_map _ fragments).
    assert (Hnext : Forall (fun p => (withinLine r p /\ 0 <= rect_width p)
                                     /\ (meetsY e r = true -> beside p e))
                      next).
    { apply Forall_forall. intros p Hp.
      apply list_elem_of_In, in_flat_map in Hp as (f & Hf & Hp).
      apply list_elem_of_In in Hf, Hp.
      pose proof (proj1 (Forall_forall _ _) Hfr f Hf) as [Hin Hw].
      destruct (getLineFragment_spec f e p Hp Hw He) as (Hpf & Hpw & Hbe).
      destruct Hin as (I1 & I2 & I3 & I4), Hpf as (J1 & J2 & J3 & J4).
      split; [split; [|assumption]|].
      - unfold withinLine. repeat split; (congruence || lra).
      - intros Hy. apply Hbe. by rewrite (meetsY_same e r f). }
    assert (Hkeep : forall fs,
               Forall (fun p => withinLine r p /\ 0 <= rect_width p) fs ->
               Forall (fun p => meetsY e r = true -> beside p e) fs ->
               Forall (fun p => meetsY e r = true -> beside p e)
                 (fold_left
                    (fun fragments excludeRect =>
                       flat_map
                         (fun fragment => getLineFragment fragment excludeRect)
                         fragments)
                    rest fs)).
    { clear -Hrest. induction rest as [|e' rest IH']; intros fs Hin Hbe;
        [done|].
      apply Forall_cons in Hrest as [He' Hrest]. cbn [fold_left].
      assert (H : Forall (fun p => (withinLine r p /\ 0 <= rect_width p)
                                   /\ (meetsY e r = true -> beside p e))
                    (flat_map (fun fragment => getLineFragment fragment e') fs)).
      { apply Forall_forall. intros p Hp.
        apply list_elem_of_In, in_flat_map in Hp as (f & Hf & Hp).
        apply list_elem_of_In in Hf, Hp.
        pose proof (proj1 (Forall_forall _ _) Hin f Hf) as [Hfin Hw].
        pose proof (proj1 (Forall_forall _ _) Hbe f Hf) as Hfe.
        destruct (getLineFragment_spec f e' p Hp Hw He') as (Hpf & Hpw & _).
        destruct Hfin as (I1 & I2 & I3 & I4), Hpf as (J1 & J2 & J3 & J4).
        split; [split; [|assumption]|].
        - unfold withinLine. repeat split; (congruence || lra).
        - intros Hy. specialize (Hfe Hy). unfold beside in *.
          destruct Hfe; [left|right]; lra. }
      apply IH'; [assumption| |].
      - eapply Forall_impl; [exact H|]. intros p [? _]. assumption.
      - eapply Forall_impl; [exact H|]. intros p [_ ?]. assumption. }
    assert (Hn1 : Forall (fun p => withinLine r p /\ 0 <= rect_width p) next).
    { eapply Forall_impl; [exact Hnext|]. intros p [? _]. assumption. }
    assert (Hn2 : Forall (fun p => meetsY e r = true -> beside p e) next).
    { eapply Forall_impl; [exact Hnext|]. intros p [_ ?]. assumption. }
    specialize (IH next Hrest Hn1). specialize (Hkeep next Hn1 Hn2).
    apply Forall_forall. intros f Hf.
    pose proof (proj1 (Forall_forall _ _) IH f Hf) as (H1 & H2 & H3).
    pose proof (proj1 (Forall_forall _ _) Hkeep f Hf) as H4.
    split; [assumption|]. split; [assumption|]. by constructor.
Qed.

(** X6: the fragments of a line lie in the line rectangle and beside every
    excluded rectangle that meets the line vertically. *)
Theorem getLineFragments_clear (rect : Rect) (excludeRects : list Rect)
    (f e : Rect) :
  0 <= rect_width rect ->
  Forall (fun e => 0 <= rect_width e) excludeRects ->
  f ∈ getLineFragments rect excludeRects ->
  e ∈ excludeRects -> meetsY e rect = true ->
  withinLine rect f /\ beside f e.
Proof.
  intros Hw Hex Hf He Hy. unfold getLineFragments in Hf.
  pose proof (getLineFragments_from excludeRects rect [rect] Hex) as H.
  assert (H0 : Forall (fun f => withinLine rect f /\ 0 <= rect_width f) [rect]).
  { repeat constructor; (reflexivity || lra). }
  specialize (H H0).
  pose proof (proj1 (Forall_forall _ _) H f Hf) as (H1 & _ & H3).
  split; [assumption|]. eapply Forall_forall in H3; [|exact He]. by apply H3.
Qed.

Lemma getLineFragments_clear_witness :
  withinLine (mkRect 0 0 100 12) (mkRect 40 0 60 12)
  /\ beside (mkRect 40 0 60 12) picture.
Proof.
  apply (getLineFragments_clear (mkRect 0 0 100 12) [picture]).
  - by vm_compute.
  - repeat constructor. by vm_compute.
  - vm_compute. apply elem_of_cons. by left.
  - apply elem_of_cons. by left.
  - reflexivity.
Defined.

Lemma generateLineRects_loop_fuel (excludeRects : list Rect) (m height : Q)
    (n : nat) :
  0 < height ->
  forall currentRect lineRects,
    m <= rect_y currentRect + inject_Z (Z.of_nat n) * height ->
    exists rects last,
      generateLineRects_loop n excludeRects (Some m) height currentRect
        lineRects
      = Some (rects ++ [last])
      /\ m <= rect_y last.
Proof.
  intros Hh. induction n as [|n IH]; intros currentRect lineRects Hm.
  - change (inject_Z (Z.of_nat 0)) with 0 in Hm.
    assert (Hc : Qltb (rect_y currentRect) m = false).
    { destruct (Qltb (rect_y currentRect) m) eqn:E; [|done].
      apply Qltb_lt in E. lra. }
    cbn [generateLineRects_loop]. rewrite Hc.
    exists lineRects, currentRect. split; [done|]. lra.
  - cbn [generateLineRects_loop].
    destruct (Qltb (rect_y currentRect) m) eqn:E.
    + cbn [partition]. apply IH. cbn [rect_y].
      rewrite Nat2Z.inj_succ in Hm. unfold Z.succ in Hm.
      rewrite inject_Z_plus in Hm. change (inject_Z 1) with 1 in Hm. lra.
    + apply Qltb_ge in E. exists lineRects, currentRect. split; [done|]. lra.
Qed.

Lemma maxBottom_from (excludeRects : list Rect) :
  forall acc m,
    fold_left
      (fun acc r =>
         let e := rect_y r + rect_height r in
         match acc with
         | None => Some e
         | Some m => Some (js_max m e)
         end)
      excludeRects acc = Some m ->
    (forall a, acc = Some a -> a <= m)
    /\ Forall (fun e => rect_y e + rect_height e <= m) excludeRects.
Proof.
  induction excludeRects as [|e rest IH]; intros acc m H.
  - cbn in H. split; [|constructor]. intros a Ha. rewrite H in Ha.
    injection Ha as <-. lra.
  - cbn [fold_left] in H. apply IH in H as [H1 H2].
    destruct acc as [a|].
    + specialize (H1 _ eq_refl).
      destruct (js_max_spec a (rect_y e + rect_height e)) as [[? ?] _].
      split; [intros ? [= <-]; lra|]. constructor; [lra|assumption].
    + specialize (H1 _ eq_refl). split; [done|].
      constructor; [lra|assumption].
Qed.

(** X7: for lines of a positive height [generateLineRects] returns, and the
    last rectangle it returns, what is left of the container, starts at or
    under the bottom of every excluded rectangle. *)
Theorem generateLineRects_returns (rect : Rect)
    (excludeRects : option (list Rect)) (height : Q) :
  0 < height ->
  exists fuel rects last,
    generateLineRects fuel rect excludeRects height = Some (rects ++ [last])
    /\ Forall (fun e => rect_y e + rect_height e <= rect_y last)
         (or_nil excludeRects).
Proof.
  intros Hh. destruct excludeRects as [ex|]; cbn [generateLineRects or_nil].
  2:{ exists 0%nat, [], rect. split; [done|constructor]. }
  destruct (maxBottom ex) as [m|] eqn:Em.
  - set (n := Z.to_nat (Qceiling ((m - rect_y rect) / height))).
    assert (Hn : m <= rect_y rect + inject_Z (Z.of_nat n) * height).
    { pose proof (Qle_ceiling ((m - rect_y rect) / height)) as Hc.
      assert (Hz : inject_Z (Qceiling ((m - rect_y rect) / height))
                   <= inject_Z (Z.of_nat n)).
      { rewrite <- Zle_Qle. unfold n. lia. }
      assert (Hd : m - rect_y rect == (m - rect_y rect) / height * height)
        by (field; lra).
      nra. }
    destruct (generateLineRects_loop_fuel ex m height n Hh rect [] Hn)
      as (rects & last & Heq & Hlast).
    exists n, rects, last. split; [exact Heq|].
    apply maxBottom_from in Em as [_ Hall].
    eapply Forall_impl; [exact Hall|]. intros e He. cbn beta in He. lra.
  - exists 0%nat, [], rect. cbn. split; [done|].
    destruct ex as [|e ex]; [constructor|]. exfalso.
    unfold maxBottom in Em. cbn [fold_left] in Em.
    assert (H : forall l a, fold_left
               (fun acc r =>
                  let e := rect_y r + rect_height r in
                  match acc with
                  | None => Some e
                  | Some m => Some (js_max m e)
                  end) l (Some a) <> None).
    { clear. induction l as [|x l IH]; intros a; [done|]. cbn [fold_left].
      apply IH. }
    by apply H in Em.
Qed.

Lemma generateLineRects_returns_witness :
  exists fuel rects last,
    generateLineRects fuel column (Some [picture]) 12 = Some (rects ++ [last])
    /\ Forall (fun e => rect_y e + rect_height e <= rect_y last)
         (or_nil (Some [picture])).
Proof. apply (generateLineRects_returns column (Some [picture]) 12). lra. Defined.

Lemma generateLineRects_loop_stuck (excludeRects : list Rect) (m height : Q)
    (fuel : nat) :
  height <= 0 ->
  forall currentRect lineRects,
    rect_y currentRect < m ->
    generateLineRects_loop fuel excludeRects (Some m) height currentRect
      lineRects
    = None.
Proof.
  intros Hh. induction fuel as [|fuel IH]; intros currentRect lineRects Hy;
    cbn [generateLineRects_loop]; rewrite (proj2 (Qltb_lt _ _) Hy); [done|].
  cbn [partition]. apply IH. cbn [rect_y]. lra.
Qed.

(** X8: for lines of height zero or less, [generateLineRects] never returns
    when an excluded rectangle ends under the top of the container: the loop
    does not move down. *)
Theorem generateLineRects_diverges (rect : Rect) (excludeRects : list Rect)
    (height m : Q) (fuel : nat) :
  height <= 0 ->
  maxBottom excludeRects = Some m -> rect_y rect < m ->
  generateLineRects fuel rect (Some excludeRects) height = None.
Proof.
  intros Hh Hm Hy. cbn [generateLineRects]. rewrite Hm.
  by apply generateLineRects_loop_stuck.
Qed.

Lemma generateLineRects_diverges_witness :
  generateLineRects 1000 column (Some [picture]) 0 = None.
Proof.
  apply (generateLineRects_diverges column [picture] 0 30).
  - lra.
  - reflexivity.
  - by vm_compute.
Defined.

(** ** Fragments and words *)

Lemma fromFragments_from_lookup (fragments : list Fragment) :
  forall offset k r,
    fromFragments_from fragments offset !! k = Some r ->
    exists f,
      fragments !! k = Some f
      /\ start r = (offset + zlength (concat (f_string <$> take k fragments)))%Z
      /\ end_ r = (start r + zlength (f_string f))%Z
      /\ attributes r = default ∅ (f_attributes f)
      /\ glyphs r = f_glyphs f.
Proof.
  induction fragments as [|f rest IH]; intros offset k r Hk; [done|].
  destruct k as [|k]; cbn [fromFragments_from] in Hk.
  - injection Hk as <-. exists f. cbn. unfold zlength. cbn.
    repeat split; try done; lia.
  - cbn in Hk. apply IH in Hk as (f' & H1 & H2 & H3 & H4 & H5).
    exists f'. split; [done|]. split; [|done]. rewrite H2. cbn.
    rewrite zlength_app. lia.
Qed.

Lemma fromFragments_from_covered (fragments : list Fragment) :
  forall offset i,
    (offset <= i < offset + zlength (concat (map f_string fragments)))%Z ->
    exists run,
      run ∈ fromFragments_from fragments offset
      /\ (start run <= i < end_ run)%Z.
Proof.
  induction fragments as [|f rest IH]; intros offset i Hi.
  - cbn in Hi. unfold zlength in Hi. cbn in Hi. lia.
  - cbn [map concat] in Hi. rewrite zlength_app in Hi.
    cbn [fromFragments_from].
    destruct (Z.lt_ge_cases i (offset + zlength (f_string f))) as [Hlt|Hge].
    + eexists. split; [apply elem_of_cons; by left|]. cbn. lia.
    + destruct (IH (offset + zlength (f_string f))%Z i ltac:(lia))
        as (run & Hin & Hr).
      exists run. split; [apply elem_of_cons; by right|done].
Qed.

(** X9: the runs of [fromFragments] lie one after the other from offset 0
    on, each as long as the string of its fragment, and every character of
    the string is in one of them. *)
Theorem fromFragments_tiles (fragments : list Fragment) :
  string_ (fromFragments fragments) = concat (map f_string fragments)
  /\ length (runs (fromFragments fragments)) = length fragments
  /\ (forall k r,
         runs (fromFragments fragments) !! k = Some r ->
         exists f,
           fragments !! k = Some f
           /\ start r = zlength (concat (f_string <$> take k fragments))
           /\ end_ r = (start r + zlength (f_string f))%Z
           /\ attributes r = default ∅ (f_attributes f))
  /\ covered (fromFragments fragments).
Proof.
  split; [done|]. split.
  { unfold fromFragments. cbn [runs]. generalize 0%Z.
    induction fragments as [|f rest IH]; intros z; [done|].
    cbn. by rewrite IH. }
  split.
  - intros k r Hk. apply fromFragments_from_lookup in Hk
      as (f & H1 & H2 & H3 & H4 & _).
    exists f. rewrite Z.add_0_l in H2. done.
  - intros i Hi. apply fromFragments_from_covered. cbn in *. lia.
Qed.

Lemma wrapWords_fragments_strings (hyphenateWord : jsstring -> list jsstring)
    (string : jsstring) (rs : list Run) :
  concat
    (map f_string
       (map (fun '(run, p) =>
               mkFragment (concat p) (Some (attributes run))
                 (glyphIndices run) (glyphs run) (positions run))
          (zip rs (map (wrapRun hyphenateWord string) rs))))
  = concat (concat (map (wrapRun hyphenateWord string) rs)).
Proof.
  induction rs as [|r rs IH]; [done|]. cbn. rewrite IH.
  by rewrite concat_app.
Qed.

(** X10: what [wrapWords] returns is ready for the line breaker, whatever
    the hyphenation callback: the syllables are set and make the string,
    every character is in a run, and the runs keep their attributes (so
    their fonts). *)
Theorem wrapWords_ready (hyphenateWord : jsstring -> list jsstring)
    (a : AttributedString) :
  let w := wrapWords hyphenateWord a in
  (exists syl, syllables w = Some syl /\ string_ w = concat syl)
  /\ covered w
  /\ map attributes (runs w) = map attributes (runs a).
Proof.
  cbn zeta. unfold wrapWords.
  set (parts := map (wrapRun hyphenateWord (string_ a)) (runs a)).
  match goal with
  | |- context [fromFragments ?f] => set (fragments := f)
  end.
  split; [|split].
  - exists (concat parts). split; [done|]. cbn [string_ fromFragments].
    apply wrapWords_fragments_strings.
  - intros i Hi. apply fromFragments_from_covered. cbn in *. lia.
  - cbn [runs fromFragments]. unfold fragments, parts. generalize 0%Z.
    induction (runs a) as [|r rs IH]; intros z; [done|].
    cbn. by rewrite IH.
Qed.

Lemma splitSpaces_concat (s : jsstring) : concat (splitSpaces s) = s.
Proof.
  induction s as [|c rest IH]; [done|]. cbn [splitSpaces].
  destruct (splitSpaces rest) as [|[|d w] ws]; cbn in *.
  - by rewrite <- IH.
  - by rewrite <- IH.
  - destruct (Bool.eqb _ _); cbn; by rewrite <- IH.
Qed.

(** X11: with a hyphenation callback whose parts make the word again (as the
    default one), [wrapWords] keeps the string of a paragraph whose runs
    follow each other over the whole string. *)
Theorem wrapWords_string (hyphenateWord : jsstring -> list jsstring)
    (a : AttributedString) :
  (forall word, concat (hyphenateWord word) = word) ->
  concat (map (fun r => js_slice (start r) (Fin (end_ r)) (string_ a)) (runs a))
  = string_ a ->
  string_ (wrapWords hyphenateWord a) = string_ a.
Proof.
  intros Hparts Hruns. unfold wrapWords. cbn [string_ fromFragments].
  rewrite wrapWords_fragments_strings.
  transitivity
    (concat
       (map (fun r => js_slice (start r) (Fin (end_ r)) (string_ a)) (runs a)));
    [|exact Hruns].
  assert (Hwords : forall ws, concat (flat_map hyphenateWord ws) = concat ws).
  { induction ws as [|word ws IHw]; [done|].
    cbn [flat_map concat]. by rewrite concat_app, Hparts, IHw. }
  clear Hruns. induction (runs a) as [|r rs IH]; [done|]. cbn [map concat].
  rewrite concat_app, IH. f_equal. unfold wrapRun.
  by rewrite Hwords, splitSpaces_concat.
Qed.

Lemma wrapWords_string_witness :
  string_ (wrapWords defaultHyphenationEngine quickBrown) = string_ quickBrown.
Proof.
  apply wrapWords_string.
  - intros word. apply app_nil_r.
  - by vm_compute.
Defined.

(** *** The glyph indices of a run *)

Lemma StronglySorted_const (v : Z) (cs : list N) :
  StronglySorted Z.le (map (fun _ => v) cs).
Proof.
  induction cs as [|c cs IH]; cbn [map]; [constructor|].
  constructor; [exact IH|].
  apply Forall_forall. intros x Hx.
  apply list_elem_of_In, in_map_iff in Hx as (? & <- & _). lia.
Qed.

Lemma resolve_inv (glyphs : list (option Glyph)) :
  forall acc,
    StronglySorted Z.le acc ->
    Forall (fun v => (0 <= v < zlength acc)%Z) acc ->
    let r :=
      fold_left
        (fun acc glyph =>
           let codePoints :=
             match glyph with
             | Some g => codePoints g
             | None => [DUMMY_CODEPOINT]
             end in
           match last acc with
           | None => map (fun _ => 0%Z) codePoints
           | Some l => acc ++ map (fun _ => (l + 1)%Z) codePoints
           end)
        glyphs acc in
    StronglySorted Z.le r /\ Forall (fun v => (0 <= v < zlength r)%Z) r.
Proof.
  induction glyphs as [|g rest IH]; intros acc Hs Hb; cbn zeta; [done|].
  cbn [fold_left].
  set (cps := match g with
              | Some g0 => codePoints g0
              | None => [DUMMY_CODEPOINT]
              end).
  apply IH.
  - destruct (last acc) as [l|] eqn:El; [|apply StronglySorted_const].
    apply StronglySorted_app_2; [|exact Hs|apply StronglySorted_const].
    intros x y Hx Hy. apply list_elem_of_In, in_map_iff in Hy as (? & <- & _).
    apply last_Some in El as (acc' & ->).
    apply StronglySorted_app in Hs as (Hs & _ & _).
    apply elem_of_app in Hx as [Hx|Hx].
    + specialize (Hs x l Hx ltac:(by apply list_elem_of_singleton)). lia.
    + apply list_elem_of_singleton in Hx as ->. lia.
  - destruct (last acc) as [l|] eqn:El.
    + rewrite zlength_app. apply Forall_app. split.
      * eapply Forall_impl; [exact Hb|]. intros v Hv. cbn beta in *.
        pose proof (zlength_nonneg (map (fun _ : N => (l + 1)%Z) cps)).
        lia.
      * apply last_Some_elem_of in El.
        pose proof (proj1 (Forall_forall _ _) Hb l El) as Hl.
        cbn beta in Hl. apply Forall_forall. intros v Hv.
        apply list_elem_of_In, in_map_iff in Hv as (c & <- & Hc).
        assert (0 < zlength (map (fun _ : N => (l + 1)%Z) cps))%Z.
        { unfold zlength. rewrite length_map. destruct cps; [done|cbn; lia]. }
        lia.
    + apply Forall_forall. intros v Hv.
      apply list_elem_of_In, in_map_iff in Hv as (c & <- & Hc).
      unfold zlength. rewrite length_map. destruct cps; [done|cbn; lia].
Qed.

(** X12: the glyph indices that [resolve] gives a run are in order and below
    the length of the run: the condition under which the slices of a run can
    be joined again. *)
Theorem resolve_in_order (glyphs : list (option Glyph)) :
  glyphsInOrder (resolve glyphs)
  /\ (Forall (fun g => g <> None) glyphs ->
      length (resolve glyphs)
      = sum_list (map (fun g => length (codePoints g)) (omap id glyphs))).
Proof.
  split.
  - destruct (resolve_inv glyphs [] ltac:(constructor) ltac:(constructor))
      as [Hs Hb].
    split; [exact Hs|]. eapply Forall_impl; [exact Hb|]. intros v Hv.
    cbn beta in Hv. destruct Hv as [H1 H2].
    split; [exact H1|apply Z.lt_le_incl; exact H2].
  - intros Hall. unfold resolve.
    assert (H : forall acc,
               length
                 (fold_left
                    (fun acc glyph =>
                       let codePoints :=
                         match glyph with
                         | Some g => codePoints g
                         | None => [DUMMY_CODEPOINT]
                         end in
                       match last acc with
                       | None => map (fun _ => 0%Z) codePoints
                       | Some l => acc ++ map (fun _ => (l + 1)%Z) codePoints
                       end)
                    glyphs acc)
               = (length acc
                  + sum_list (map (fun g => length (codePoints g))
                                (omap id glyphs)))%nat).
    { induction Hall as [|g rest Hg Hrest IH]; intros acc; [cbn; lia|].
      destruct g as [g|]; [|done]. cbn [fold_left omap list_omap id].
      rewrite IH. cbn [map sum_list].
      destruct (last acc) as [l|] eqn:El.
      - rewrite length_app, length_map. cbn. lia.
      - apply last_None in El as ->. rewrite length_map. cbn. lia. }
    by rewrite H.
Qed.

(** ** White space at the ends *)

Lemma findIndex_from_spec {A : Type} (p : A -> bool) (l : list A) (i : Z) :
  (findIndex_from p l i = (-1)%Z /\ Forall (fun x => p x = false) l)
  \/ exists k x,
       findIndex_from p l i = (i + Z.of_nat k)%Z
       /\ l !! k = Some x /\ p x = true
       /\ Forall (fun x => p x = false) (take k l).
Proof.
  revert i. induction l as [|y rest IH]; intros i; cbn [findIndex_from].
  - left. by split.
  - destruct (p y) eqn:Ey.
    + right. exists 0%nat, y. repeat split; [lia|done|constructor].
    + destruct (IH (i + 1)%Z) as [[-> Hall]|(k & x & -> & Hk & Hx & Hall)].
      * left. split; [done|]. by constructor.
      * right. exists (S k), x. repeat split; [lia|done..|].
        cbn. by constructor.
Qed.

Lemma rev_is_reverse {A : Type} (l : list A) : rev l = reverse l.
Proof. unfold reverse. by rewrite rev_alt. Qed.

Lemma isBlank_Forall (s : jsstring) :
  isBlank s = true <-> Forall (fun c => negb (isSpaceUnit c) = false) s.
Proof.
  unfold isBlank. rewrite forallb_forall, Forall_forall. split.
  - intros H c Hc. apply list_elem_of_In in Hc. by rewrite (H c Hc).
  - intros H c Hc. apply list_elem_of_In in Hc. specialize (H c Hc).
    by destruct (isSpaceUnit c).
Qed.

(** X13: [trim] takes a stretch of white space off each end of the string,
    and what is left neither starts nor ends with white space. *)
Theorem trim_string (a : AttributedString) :
  let t := string_ (trim a) in
  (exists pre post,
      string_ a = pre ++ t ++ post
      /\ isBlank pre = true /\ isBlank post = true)
  /\ (forall c, head t = Some c -> isSpaceUnit c = false)
  /\ (forall c, last t = Some c -> isSpaceUnit c = false).
Proof.
  cbn zeta. unfold trim. rewrite slice_string.
  unfold findCharIndex, findLastCharIndex, findIndex.
  set (s := string_ a). set (p := fun c => negb (isSpaceUnit c)).
  destruct (findIndex_from_spec p s 0)
    as [[-> Hall]|(k1 & x1 & -> & Hk1 & Hx1 & Hpre)].
  { (* only white space *)
    rewrite rev_is_reverse.
    destruct (findIndex_from_spec p (reverse s) 0)
      as [[-> _]|(k & x & _ & Hk & Hx & _)].
    - assert (Ht : js_slice (-1) (Fin (-1 + 1)) s = []).
      { unfold js_slice, rel_index. change (-1 + 1)%Z with 0%Z.
        change (-1 <? 0)%Z with true. change (0 <? 0)%Z with false.
        cbn match. rewrite Z.min_l by lia.
        replace (Z.to_nat (0 - Z.max (Z.of_nat (length s) + -1) 0))
          with 0%nat by lia.
        apply take_0. }
      rewrite Ht. split; [|by split].
      exists s, []. cbn. rewrite app_nil_r. split; [done|].
      split; [by apply isBlank_Forall|done].
    - apply list_elem_of_lookup_2 in Hk. rewrite elem_of_reverse in Hk.
      eapply Forall_forall in Hall; [|exact Hk]. congruence. }
  rewrite rev_is_reverse.
  destruct (findIndex_from_spec p (reverse s) 0)
    as [[_ Hall]|(k2 & x2 & -> & Hk2 & Hx2 & Hpost)].
  { rewrite Forall_reverse in Hall.
    apply list_elem_of_lookup_2 in Hk1.
    eapply Forall_forall in Hall; [|exact Hk1]. congruence. }
  pose proof (lookup_lt_Some _ _ _ Hk1) as Hl1.
  pose proof (lookup_lt_Some _ _ _ Hk2) as Hl2.
  rewrite length_reverse in Hl2.
  rewrite reverse_lookup in Hk2 by lia.
  set (e := (length s - S k2)%nat) in *.
  assert (Hle : (k1 <= e)%nat).
  { destruct (Nat.le_gt_cases k1 e) as [|Hgt]; [done|]. exfalso.
    assert (Hin : x2 ∈ take k1 s).
    { apply (list_elem_of_lookup_2 _ e). by rewrite lookup_take_lt by lia. }
    eapply Forall_forall in Hpre; [|exact Hin]. congruence. }
  assert (Hcase : match (0 + Z.of_nat k2)%Z with
                  | (-1)%Z => (-1)%Z
                  | k => (Z.of_nat (length s) - 1 - k)%Z
                  end = Z.of_nat e).
  { destruct (0 + Z.of_nat k2)%Z as [|q|q] eqn:Eq; lia. }
  rewrite Hcase.
  rewrite js_slice_range by (unfold zlength; lia).
  replace (Z.to_nat (Z.of_nat e + 1) - Z.to_nat (0 + Z.of_nat k1))%nat
    with (S e - k1)%nat by lia.
  replace (Z.to_nat (0 + Z.of_nat k1)) with k1 by lia.
  split; [|split].
  - exists (take k1 s), (drop (S e) s). split; [|split].
    + rewrite <- (take_drop k1 s) at 1. f_equal.
      rewrite <- (take_drop (S e - k1) (drop k1 s)) at 1. f_equal.
      rewrite drop_drop. f_equal. lia.
    + by apply isBlank_Forall.
    + apply isBlank_Forall. rewrite take_reverse in Hpost.
      rewrite Forall_reverse in Hpost.
      replace (length s - k2)%nat with (S e) in Hpost by (unfold e; lia).
      exact Hpost.
  - intros c Hc. rewrite head_lookup, lookup_take_lt, lookup_drop in Hc by lia.
    rewrite Nat.add_0_r, Hk1 in Hc. injection Hc as <-.
    unfold p in Hx1. by destruct (isSpaceUnit x1).
  - intros c Hc. rewrite last_lookup, length_take, length_drop in Hc.
    rewrite lookup_take_lt, lookup_drop in Hc by lia.
    replace (k1 + Init.Nat.pred ((S e - k1) `min` (length s - k1)))%nat
      with e in Hc by lia.
    rewrite Hk2 in Hc. injection Hc as <-.
    unfold p in Hx2. by destruct (isSpaceUnit x2).
Qed.

(** ** Appending a glyph *)

Lemma stringFromCodePoints_BMP (cps : list N) :
  Forall (fun c => (c < 65536)%N) cps ->
  length (stringFromCodePoints cps) = length cps.
Proof.
  unfold stringFromCodePoints. induction 1 as [|c cs Hc _ IH]; [done|].
  cbn [map concat]. rewrite length_app, IH. unfold unitsOfCodePoint.
  by rewrite (proj2 (N.ltb_lt _ _) Hc).
Qed.

(** X14: [append] of a glyph keeps the end of the last run at the end of the
    string when the code points of the glyph are of the basic plane (a code
    point above it takes two units of the string and one of the run). *)
Theorem append_keeps_end (g : Glyph) (a a' : AttributedString) :
  append (AGlyph g) a = Some a' ->
  default 0%Z (end_ <$> last (runs a)) = zlength (string_ a) ->
  Forall (fun c => (c < 65536)%N) (codePoints g) ->
  string_ a' = string_ a ++ stringFromCodePoints (codePoints g)
  /\ exists r', last (runs a') = Some r' /\ end_ r' = zlength (string_ a').
Proof.
  unfold append, append1. cbn [isFalsy resolveGlyph]. intros Ha Hend Hbmp.
  set (lastRun := match last (runs a) with Some r => r | None => empty1 end)
    in *.
  assert (Hlast : end_ lastRun = zlength (string_ a)).
  { unfold lastRun. destruct (last (runs a)); [done|]. cbn in *. done. }
  destruct (appendGlyph (Some g) lastRun) as [r|] eqn:Er; [|done].
  injection Ha as <-. cbn [string_ runs]. split; [done|].
  exists r. rewrite last_snoc. split; [done|].
  rewrite zlength_app. unfold zlength at 2.
  rewrite stringFromCodePoints_BMP by done. rewrite <- Hlast.
  unfold appendGlyph in Er.
  destruct (glyphs lastRun), (glyphIndices lastRun); try done.
  destruct (positions lastRun); injection Er as <-; done.
Qed.

Lemma append_keeps_end_witness :
  exists a',
    append (AGlyph (plainGlyph 33)) quickBrown = Some a'
    /\ string_ a'
       = string_ quickBrown ++ stringFromCodePoints (codePoints (plainGlyph 33))
    /\ exists r', last (runs a') = Some r' /\ end_ r' = zlength (string_ a').
Proof.
  eexists. split; [by vm_compute|].
  eapply (append_keeps_end (plainGlyph 33) quickBrown).
  - by vm_compute.
  - reflexivity.
  - repeat constructor.
Defined.

(** ** Blocks of lines *)

Lemma sliceAtHeight_from_spec (height : Q) (paragraph : list AttributedString) :
  forall counter newBlock,
    sliceAtHeight_from height paragraph counter = Some newBlock ->
    exists rest total,
      paragraph = newBlock ++ rest
      /\ fold_left
           (fun acc block =>
              match acc, box block with
              | Some a, Some b => Some (a + rect_height b)
              | _, _ => None
              end)
           newBlock (Some counter) = Some total
      /\ (newBlock <> [] -> total < height)
      /\ (forall line b,
             head rest = Some line -> box line = Some b ->
             height <= total + rect_height b).
Proof.
  induction paragraph as [|line rest IH]; intros counter newBlock H.
  - injection H as <-. exists [], counter. cbn. repeat split; try done.
  - cbn [sliceAtHeight_from] in H. destruct (box line) as [b|] eqn:Eb; [|done].
    destruct (Qltb (counter + rect_height b) height) eqn:E.
    + destruct (sliceAtHeight_from height rest _) as [block|] eqn:Es; [|done].
      injection H as <-.
      destruct (IH _ _ Es) as (rest' & total & -> & Hsum & Hlt & Hnext).
      exists rest', total. split; [done|]. cbn [fold_left]. rewrite Eb.
      split; [exact Hsum|]. split; [|exact Hnext].
      intros _. destruct block as [|l block].
      * cbn in Hsum. injection Hsum as <-. by apply Qltb_lt.
      * by apply Hlt.
    + injection H as <-. apply Qltb_ge in E.
      exists (line :: rest), counter. cbn. split; [done|]. split; [done|].
      split; [done|]. intros line' b' [= <-] Hb'. rewrite Eb in Hb'.
      injection Hb' as <-. exact E.
Qed.

(** X15: [sliceAtHeight] returns the first lines of the block: their height
    is below the given height (a line that reaches it is left out), and the
    line after them, if there is one, does reach it. *)
Theorem sliceAtHeight_prefix (height : Q)
    (paragraph newBlock : list AttributedString) :
  sliceAtHeight height paragraph = Some newBlock ->
  exists rest total,
    paragraph = newBlock ++ rest
    /\ height2 newBlock = Some total
    /\ (newBlock <> [] -> total < height)
    /\ (forall line b,
           head rest = Some line -> box line = Some b ->
           height <= total + rect_height b).
Proof.
  unfold sliceAtHeight, height2. intros Hslice.
  destruct (sliceAtHeight_from_spec height paragraph 0 newBlock Hslice)
    as (rest & total & Hpar & Hsum & Hlt & Hnext).
  exists rest, total. split; [exact Hpar|]. split; [exact Hsum|].
  split; [exact Hlt|exact Hnext].
Qed.

Lemma sliceAtHeight_prefix_witness :
  exists rest total,
    [lineOf "ab" 19; lineOf "cd" 19; lineOf "ef" 19]
    = [lineOf "ab" 19; lineOf "cd" 19] ++ rest
    /\ height2 [lineOf "ab" 19; lineOf "cd" 19] = Some total
    /\ ([lineOf "ab" 19; lineOf "cd" 19] <> [] -> total < 36)
    /\ (forall line b,
           head rest = Some line -> box line = Some b ->
           36 <= total + rect_height b).
Proof.
  apply (sliceAtHeight_prefix 36
           [lineOf "ab" 19; lineOf "cd" 19; lineOf "ef" 19]).
  by vm_compute.
Defined.

(** ** Lines above the width of their box *)

Lemma covers_neg (r s : Q) :
  r < 0 -> s <= 0 -> Qleb (Qabs r) (Qabs s) = true -> s <= r.
Proof.
  intros Hr Hs H. apply Qleb_le in H.
  rewrite (Qabs_neg r), (Qabs_neg s) in H by lra. lra.
Qed.

Lemma not_covers_neg (r s : Q) :
  r < 0 -> s <= 0 -> Qleb (Qabs r) (Qabs s) = false -> r < s.
Proof.
  intros Hr Hs H. apply Qleb_gt in H.
  rewrite (Qabs_neg r), (Qabs_neg s) in H by lra. lra.
Qed.

(** The priorities chosen for a gap to take away spend the gap when the
    sums reach it, and all the sums when they do not. *)
Lemma choosePriorities_takes (gap total : Q) (S : PriorityArray) :
  gap < 0 ->
  total == overPriorities S ->
  (forall p, S p <= 0) ->
  let c := choosePriorities allPriorities
             (mkChosen S (fun _ => 0) None gap) in
  let P :=
    match c_highest c with
    | Some (highestPriority, highestPrioritySum) =>
        if Qltb 0 (c_remainingGap c)
        then pset (c_priorities c) highestPriority
               ((highestPrioritySum + (gap - total)) / highestPrioritySum)
        else c_priorities c
    | None => c_priorities c
    end in
  (total <= gap -> overPriorities (fun p => P p * S p) == gap)
  /\ (gap < total -> overPriorities (fun p => P p * S p) == total)
  /\ (forall p, c_unconstrained c p = 0).
Proof.
  intros Hgap Htotal Hneg. cbn zeta.
  pose proof (Hneg KASHIDA_PRIORITY) as H0.
  pose proof (Hneg WHITESPACE_PRIORITY) as H1.
  pose proof (Hneg LETTER_PRIORITY) as H2.
  pose proof (Hneg NULL_PRIORITY) as H3. clear Hneg.
  unfold allPriorities, overPriorities in *. cbn [choosePriorities c_priorities
    c_unconstrained c_highest c_remainingGap].
  set (s0 := S KASHIDA_PRIORITY) in *. set (s1 := S WHITESPACE_PRIORITY) in *.
  set (s2 := S LETTER_PRIORITY) in *. set (s3 := S NULL_PRIORITY) in *.
  change (Qeq_bool 0 0) with true. cbn [negb].
  repeat match goal with
    | |- context [Qeq_bool ?x 0] =>
        let E := fresh "E" in
        destruct (Qeq_bool x 0) eqn:E;
        [apply Qeq_bool_true_eq in E | apply Qeq_bool_false_neq in E];
        cbn [negb zeroOut fold_left choosePriorities c_priorities
               c_unconstrained c_highest c_remainingGap pset Priority_eqb];
        fold s0 s1 s2 s3
    | |- context [Qleb (Qabs ?r) (Qabs ?s)] =>
        let E := fresh "E" in
        destruct (Qleb (Qabs r) (Qabs s)) eqn:E;
        [apply covers_neg in E | apply not_covers_neg in E];
        try lra;
        cbn [negb zeroOut fold_left choosePriorities c_priorities
               c_unconstrained c_highest c_remainingGap pset Priority_eqb];
        fold s0 s1 s2 s3
    end;
    repeat match goal with
      | |- context [Qltb ?a ?b] =>
          let E := fresh "E" in
          destruct (Qltb a b) eqn:E;
          [apply Qltb_lt in E | apply Qltb_ge in E]
      end;
    cbn [pset Priority_eqb];
    try (exfalso; lra);
    (split; [|split; [|by intros []]]); intros Hcase;
    try (exfalso; lra);
    rewrite ?Htotal; try (field_simplify_eq; [nra | auto]); try nra.
Qed.

Lemma room_weighted (factors : list Factor) :
  room factors == sumQ (map (weighted (fun _ => 1)) factors).
Proof.
  unfold room. induction factors as [|f rest IH]; cbn [map sumQ]; [lra|].
  rewrite IH. unfold weighted. ring.
Qed.

Lemma weighted_nonpos (P : PriorityArray) (factors : list Factor) :
  (forall p, 0 <= P p) ->
  Forall shrinking factors ->
  sumQ (map (weighted P) factors) <= 0.
Proof.
  intros HP. induction 1 as [|f rest (_ & Hb & Ha) _ IH]; cbn [map sumQ];
    [lra|].
  unfold weighted at 1. pose proof (HP (priority f)). nra.
Qed.

Lemma getDistances_takes (gap : Q) (factors : list Factor) :
  gap < 0 ->
  Forall shrinking factors ->
  (exists f rest, factors = f :: rest /\ before f = 0) ->
  (room factors <= gap -> sumQ (getDistances gap factors) == gap)
  /\ (gap < room factors -> sumQ (getDistances gap factors) == room factors)
  /\ length (getDistances gap factors) = length factors.
Proof.
  intros Hgap Hall (f0 & rest0 & Hfac & Hbefore).
  assert (Hcon : Forall (fun f => unconstrained f = false) factors).
  { eapply Forall_impl; [exact Hall|]. by intros ? (? & _). }
  assert (Hlen : length (getDistances gap factors) = length factors).
  { unfold getDistances. destruct (sumFactors factors) as [[? ?] ?].
    apply distancesOf_length. }
  cut ((room factors <= gap -> sumQ (getDistances gap factors) == gap)
       /\ (gap < room factors ->
           sumQ (getDistances gap factors) == room factors)); [tauto|].
  clear Hlen. rewrite room_weighted. unfold getDistances.
  pose proof (fun P => sumFactors_spec P factors Hcon) as Hsum.
  destruct (sumFactors factors) as [[total sums] uncon].
  assert (HS : forall p, sums p <= 0).
  { intros p.
    set (P := fun q => if Priority_eqb q p then 1 else 0).
    destruct (Hsum P) as (H1 & _ & _).
    assert (HP : forall q, 0 <= P q).
    { intros q. unfold P. destruct (Priority_eqb q p); lra. }
    pose proof (weighted_nonpos P factors HP Hall) as Hle.
    rewrite <- H1 in Hle. unfold overPriorities, P in Hle.
    destruct p; cbn [Priority_eqb] in Hle; lra. }
  destruct (Hsum (fun _ => 1)) as (Hroom & Htotal & HU). subst uncon.
  assert (Hroom' : total == sumQ (map (weighted (fun _ => 1)) factors)).
  { rewrite <- Hroom, Htotal. unfold overPriorities. ring. }
  pose proof (choosePriorities_takes gap total sums Hgap Htotal HS) as Hspend.
  cbn zeta in Hspend. destruct Hspend as (Hfit & Hshort & _).
  match type of Hfit with
  | _ -> overPriorities (fun p => ?P0 p * sums p) == gap => set (P := P0) in *
  end.
  rewrite distancesOf_sum by done.
  destruct (Hsum P) as (H1 & _ & _). rewrite <- H1, <- Hroom'.
  subst factors. rewrite Hbefore.
  split; intros Hcase.
  - rewrite Hfit by done. ring.
  - rewrite Hshort by done. ring.
Qed.

Lemma shrinking_set_after (f : Factor) : shrinking f -> shrinking (set_after 0 f).
Proof. intros (? & ? & ?). repeat split; cbn; [done|done|lra]. Qed.

Lemma shrinking_set_before (f : Factor) :
  shrinking f -> shrinking (set_before 0 f).
Proof. intros (? & ? & ?). repeat split; cbn; [done|lra|done]. Qed.



(** ** The outer edges of a line *)

Lemma getFactors_edges (gap : Q) (line : AttributedString)
    (options : LayoutOptions) (factors : list Factor) :
  getFactors gap line options = Some factors ->
  (exists f rest, factors = f :: rest /\ before f = 0)
  /\ (exists front l, factors = front ++ [l] /\ after l = 0).
Proof.
  unfold getFactors. destruct (mapM_option _ _) as [perRun|]; [|done].
  destruct (concat perRun) as [|first rest]; [done|]. intros [= <-].
  destruct (exists_last (l := set_before 0 first :: rest) ltac:(done))
    as (front & l & Heq).
  rewrite Heq, clearLastAfter_snoc. split.
  - destruct front as [|f front'].
    + injection Heq as <- ->. by eexists _, _.
    + injection Heq as <- _. by eexists _, _.
  - by exists front, (set_after 0 l).
Qed.

Lemma distancesOf_snoc (P U : PriorityArray) (front : list Factor) (l : Factor) :
  exists ds d,
    distancesOf P U (front ++ [l]) = ds ++ [d]
    /\ d = (if unconstrained l
            then after l * P (priority l) + after l * U (priority l)
            else after l * P (priority l)).
Proof.
  induction front as [|f front IH].
  - exists [], (if unconstrained l
                then after l * P (priority l) + after l * U (priority l)
                else after l * P (priority l)).
    cbn [app distancesOf head]. by destruct (unconstrained l).
  - destruct IH as (ds & d & Heq & Hd).
    cbn [app distancesOf]. rewrite Heq. eexists (_ :: ds), d. by split.
Qed.

(** X17: the factors of a line give no distance to its last glyph:
    justification leaves the advance of the last glyph as it is, the space
    goes to the glyphs before it. *)
Theorem getDistances_last (gap : Q) (line : AttributedString)
    (options : LayoutOptions) (factors : list Factor) :
  getFactors gap line options = Some factors ->
  exists ds d,
    getDistances gap factors = ds ++ [d]
    /\ length ds = (glyphCount line - 1)%nat
    /\ d == 0.
Proof.
  intros Hfac.
  destruct (getFactors_edges _ _ _ _ Hfac) as (_ & front & l & -> & Hafter).
  assert (Hlen : length (front ++ [l]) = glyphCount line).
  { revert Hfac. unfold getFactors, glyphCount.
    destruct (mapM_option _ _) as [perRun|] eqn:Em; [|done].
    destruct (concat perRun) as [|first rest] eqn:Ec; [done|].
    intros [= Heq]. rewrite <- Heq, clearLastAfter_length.
    change (length (set_before 0 first :: rest)) with (length (first :: rest)).
    rewrite <- Ec. clear Ec Heq.
    revert perRun Em. induction (runs line) as [|r rs IH]; intros perRun Em.
    - cbn in Em. by injection Em as <-.
    - cbn [mapM_option] in Em. destruct (glyphs r) as [gs|] eqn:Eg; [|done].
      cbn [fmap option_fmap option_map] in Em.
      destruct (mapM_option _ rs) as [ys|]; [|done]. injection Em as <-.
      cbn [concat map sum_list or_nil]. rewrite length_app, (IH ys eq_refl).
      f_equal. unfold factor.
      generalize (getCharFactor (if Qltb 0 gap then GROW else SHRINK) options)
        (getWhitespaceFactor (if Qltb 0 gap then GROW else SHRINK) options).
      intros c w.
      assert (H : forall n gl i acc,
                 length (factor_from c w n gl i acc)
                 = (length acc + length gl)%nat).
      { clear. intros n gl. induction gl as [|g gl IH]; intros i acc.
        - cbn. lia.
        - cbn [factor_from].
          destruct (isWhiteSpace g).
          + destruct (i =? n - 1)%nat.
            * rewrite IH, length_app.
              destruct (0 <? i)%nat; rewrite ?clearLastAfter_length; cbn; lia.
            * rewrite IH, length_app. cbn. lia.
          + destruct (isMark g && (0 <? i)%nat).
            * destruct (last acc);
                rewrite IH, length_app, ?clearLastAfter_length; cbn; lia.
            * rewrite IH, length_app. cbn. lia. }
      rewrite H, Eg. reflexivity. }
  unfold getDistances. destruct (sumFactors _) as [[total sums] uncon].
  match goal with
  | |- context [distancesOf ?P ?U _] =>
      destruct (distancesOf_snoc P U front l) as (ds & d & Heq & Hd);
      pose proof (distancesOf_length P U (front ++ [l])) as Hl
  end.
  exists ds, d. split; [exact Heq|]. rewrite Heq in Hl.
  rewrite !length_app in *. cbn [length] in *. split; [lia|].
  rewrite Hd, Hafter. destruct (unconstrained l); ring.
Qed.

Lemma getDistances_last_witness :
  exists factors,
    getFactors 36 looseLine defaultOptions = Some factors
    /\ exists ds d,
         getDistances 36 factors = ds ++ [d]
         /\ length ds = (glyphCount looseLine - 1)%nat
         /\ d == 0.
Proof.
  eexists. split; [vm_compute; reflexivity|].
  apply (getDistances_last 36 looseLine defaultOptions).
  vm_compute. reflexivity.
Defined.

(** ** The breaks of the paragraph are legal *)

Lemma legalChain_new (nodes : list Node) (index : nat) (a : Breakpoint) d l c t :
  legalBreak nodes index = true -> legalChain nodes a ->
  legalChain nodes (mkBreakpoint index d l c t (Some a)).
Proof.
  intros Hi [Hall Hlast]. split; cbn [positionsBack position previous].
  - by apply Forall_cons.
  - destruct (positionsBack a) as [|x xs] eqn:E; [done|]. exact Hlast.
Qed.

Lemma linebreak_from_legal nodes lineLengths tolerance rest index sum actives :
  rest = drop index nodes ->
  Forall (legalChain nodes) actives ->
  Forall (legalChain nodes)
    (linebreak_from nodes lineLengths tolerance rest index
       (match index with
        | O => false
        | S k => match nodes !! k with Some n => isBox n | None => false end
        end) sum actives).
Proof.
  revert index sum actives.
  induction rest as [|node tail IH]; intros index sum actives Hrest Hact;
    [exact Hact|].
  assert (Hnode : nodes !! index = Some node).
  { rewrite <- (Nat.add_0_r index), <- lookup_drop, <- Hrest. done. }
  assert (Htail : tail = drop (S index) nodes).
  { rewrite <- (Nat.add_1_l index), Nat.add_comm, <- drop_drop, <- Hrest. done. }
  assert (Hmain : legalBreak nodes index = true ->
                  Forall (legalChain nodes)
                    (mainLoop nodes lineLengths tolerance sum node index
                       actives)).
  { intros Hlegal. apply mainLoop_from_Forall; auto using noCandidates_have.
    intros a d c Ha. by apply legalChain_new. }
  cbn [linebreak_from]. destruct node as [w s e h|w s e st sh|w p f].
  - specialize (IH (S index)
                  (mkTotals (t_width sum + w) (t_stretch sum) (t_shrink sum))
                  actives Htail Hact).
    cbv beta iota in IH. rewrite Hnode in IH. exact IH.
  - match goal with
    | |- Forall _ (linebreak_from _ _ _ _ _ _ ?s ?a) =>
        assert (Ha : Forall (legalChain nodes) a);
        [|specialize (IH (S index) s a Htail Ha); cbv beta iota in IH;
          rewrite Hnode in IH; exact IH]
    end.
    destruct index as [|k]; [done|].
    destruct (nodes !! k) as [[| |]|] eqn:Ek; cbn [isBox]; try done.
    apply Hmain. cbn [legalBreak]. by rewrite Hnode, Ek.
  - match goal with
    | |- Forall _ (linebreak_from _ _ _ _ _ _ ?s ?a) =>
        assert (Ha : Forall (legalChain nodes) a);
        [|specialize (IH (S index) s a Htail Ha); cbv beta iota in IH;
          rewrite Hnode in IH; exact IH]
    end.
    destruct (negb (Qeq_bool p infinity)) eqn:Ep; [|done].
    apply Hmain. destruct index as [|k]; [done|].
    cbn [legalBreak]. by rewrite Hnode.
Qed.

(** X18: every break [linebreak] returns is a legal one: the start of the
    paragraph, a glue that follows a box, or a penalty other than
    [infinity]; and the breaks returned, if any, begin with the start of the
    paragraph. *)
Theorem linebreak_legal (nodes : list Node) (widths : list Q) (tolerance : Q) :
  Forall (fun i => legalBreak nodes i = true) (linebreak nodes widths tolerance)
  /\ (linebreak nodes widths tolerance <> [] ->
      head (linebreak nodes widths tolerance) = Some 0%nat).
Proof.
  unfold linebreak, findBestBreakpoints.
  destruct (bestActive _) as [b|] eqn:Hb; [|split; [constructor|done]].
  apply bestActive_elem in Hb.
  assert (Hinv : Forall (legalChain nodes)
                   (activeNodesOf nodes widths tolerance)).
  { apply (linebreak_from_legal nodes widths _ nodes 0%nat); [done|].
    repeat constructor. }
  rewrite Forall_forall in Hinv. destruct (Hinv _ Hb) as [Hall Hlast].
  rewrite rev_alt. change (rev_append ?l []) with (reverse l). split.
  - by apply Forall_reverse.
  - intros _. by rewrite head_reverse.
Qed.

(** ** What the flattened runs cover *)

Lemma runChain_disjoint (l : list Run) :
  runChain l -> StronglySorted (fun a b => (end_ a <= start b)%Z) l.
Proof.
  intros Hchain.
  assert (Hs : Sorted (fun a b => (end_ a <= start b)%Z) l
               /\ Forall segment l).
  { induction l as [|r l IH]; [by split; constructor|].
    destruct Hchain as (Hr & Hnext & Hrest). destruct (IH Hrest) as [IH1 IH2].
    split; [|by constructor]. constructor; [done|].
    destruct l as [|r' l']; constructor. cbn in Hnext. apply Hnext. }
  destruct Hs as [Hs Hseg]. clear Hchain.
  induction Hs as [|r l Hl IH Hr]; [constructor|].
  apply Forall_cons in Hseg as [Hseg Hsegs]. specialize (IH Hsegs).
  constructor; [done|].
  destruct Hr as [|r' l' Hr]; [constructor|].
  apply StronglySorted_inv in IH as [_ Hall].
  apply Forall_cons in Hsegs as [(Hlt & _) _].
  constructor; [done|]. eapply Forall_impl; [exact Hall|].
  intros x Hx. cbn in Hx. lia.
Qed.

Lemma flatten_regular (runs : list RunRef) :
  List.filter (fun r => negb (isEmpty r)) (flatten runs)
  = flattenRegularRuns (List.filter (fun r => negb (isEmpty r.2)) runs).
Proof.
  unfold flatten.
  destruct (flatten_parts runs) as (He & Hnd & Hchain & Hreg & Hinj).
  set (emptyRuns := flattenEmptyRuns (List.filter isEmpty (runs.*2))) in *.
  set (regularRuns :=
         flattenRegularRuns (List.filter (fun r => negb (isEmpty r.2)) runs))
    in *.
  assert (Hperm : sort (emptyRuns ++ regularRuns) ≡ₚ emptyRuns ++ regularRuns)
    by apply js_sort_perm.
  apply (Sorted_unique_strong (notAfter compareRuns)).
  - intros x y Hx Hy. apply Hinj.
    + apply list_elem_of_In, filter_In in Hx as [Hx _].
      apply list_elem_of_In in Hx. by rewrite Hperm in Hx.
    + apply elem_of_app. by right.
  - apply StronglySorted_Sorted, filter_StronglySorted.
    apply Sorted_StronglySorted; [apply _|apply sort_Sorted].
  - destruct (runChain_starts regularRuns Hchain) as [Hs _].
    apply StronglySorted_Sorted.
    eapply StronglySorted_mono; [|exact Hs].
    intros a b Hab. apply notAfter_compareRuns. by left.
  - rewrite (filter_perm _ _ _ Hperm), List.filter_app.
    rewrite (filter_none _ emptyRuns).
    + rewrite (filter_all _ regularRuns); [done|].
      eapply Forall_impl; [exact Hreg|]. by intros r ->.
    + eapply Forall_impl; [exact He|]. by intros r ->.
Qed.

(** X19: the runs [flatten] returns are in the order of [sort]; those that
    are not empty do not overlap, each one ending before the next one
    starts; and no two empty ones start at the same offset. This holds for
    any runs given. *)
Theorem flatten_disjoint (runs : list RunRef) :
  Sorted (notAfter compareRuns) (flatten runs)
  /\ StronglySorted (fun a b => (end_ a <= start b)%Z)
       (List.filter (fun r => negb (isEmpty r)) (flatten runs))
  /\ Forall (fun r => (start r < end_ r)%Z)
       (List.filter (fun r => negb (isEmpty r)) (flatten runs))
  /\ NoDup (start <$> List.filter isEmpty (flatten runs)).
Proof.
  split; [apply sort_Sorted|]. rewrite flatten_regular.
  pose proof (flattenRegularRuns_chain
                (List.filter (fun r => negb (isEmpty r.2)) runs)) as Hchain.
  split; [by apply runChain_disjoint|]. split.
  - destruct (runChain_starts _ Hchain) as [_ Hseg].
    eapply Forall_impl; [exact Hseg|]. by intros r (Hlt & _).
  - unfold flatten.
    destruct (flatten_parts runs) as (He & Hnd & _ & Hreg & _).
    set (emptyRuns := flattenEmptyRuns (List.filter isEmpty (runs.*2))) in *.
    set (regularRuns :=
           flattenRegularRuns (List.filter (fun r => negb (isEmpty r.2)) runs))
      in *.
    assert (Hperm : List.filter isEmpty (sort (emptyRuns ++ regularRuns))
                    ≡ₚ emptyRuns).
    { rewrite (filter_perm _ _ _ (js_sort_perm compareRuns _)),
        List.filter_app.
      rewrite (filter_all _ emptyRuns) by done.
      rewrite (filter_none _ regularRuns) by done. by rewrite app_nil_r. }
    by rewrite Hperm.
Qed.

Lemma flattenLoop_covers (points : list Point) :
  forall st,
    (0 <= fs_start st)%Z ->
    StronglySorted (fun a b => (p_offset a <= p_offset b)%Z) points ->
    Forall (fun p => (fs_start st <= p_offset p)%Z) points ->
    forall i,
      (exists r, r ∈ fs_res (fold_left flattenPoint points st) /\ inRun i r)
      <-> (exists r, r ∈ fs_res st /\ inRun i r)
          \/ (fs_start st <= i
              < default (fs_start st) (last (p_offset <$> points)))%Z.
Proof.
  induction points as [|point points IH]; intros st Hpos Hsorted Hfrom i.
  - cbn. split; [by left|]. intros [H|H]; [done|lia].
  - apply StronglySorted_inv in Hsorted as [Hrest Hhd].
    apply Forall_cons in Hfrom as [Hle Hfrom]. cbn [fold_left].
    destruct (flattenPoint_res st point) as [Hs Hr].
    rewrite IH; [|lia|done|by rewrite Hs].
    rewrite Hs, Hr. clear IH.
    set (L := default (p_offset point) (last (p_offset <$> points))).
    assert (HL : (p_offset point <= L)%Z).
    { unfold L. destruct (last (p_offset <$> points)) as [x|] eqn:El;
        cbn [from_option id]; [|lia].
      apply last_Some_elem_of, list_elem_of_fmap in El as (q & -> & Hq).
      by eapply Forall_forall in Hhd. }
    assert (HL' : default (fs_start st) (last (p_offset <$> point :: points))
                  = L).
    { unfold L. cbn [fmap list_fmap].
      destruct (p_offset <$> points) as [|y ys] eqn:E; [done|].
      rewrite last_cons. by destruct (last (y :: ys)). }
    rewrite HL'. clear HL'.
    rewrite (proj2 (Z.eqb_neq (fs_start st) (-1))) by lia. cbn [negb andb].
    destruct (Z.ltb_spec (fs_start st) (p_offset point)) as [Hlt|Hge].
    + split.
      * intros [(r & Hin & Hi)|Hi]; [|right; lia].
        apply elem_of_app in Hin as [Hin|Hin]; [left; by exists r|].
        apply list_elem_of_singleton in Hin as ->. unfold inRun in Hi.
        cbn in Hi. right. lia.
      * intros [(r & Hin & Hi)|Hi].
        -- left. exists r. split; [|done]. apply elem_of_app. by left.
        -- destruct (Z.lt_ge_cases i (p_offset point)); [|right; lia].
           left. eexists. split; [apply elem_of_app; right; by left|].
           unfold inRun. cbn. lia.
    + assert (fs_start st = p_offset point) as -> by lia. tauto.
Qed.

Lemma points_from_offsets (runs : list RunRef) (o : Z) :
  forall k,
    o ∈ p_offset <$> points_from k runs
    <-> exists r, r ∈ runs.*2 /\ (o = start r \/ o = end_ r).
Proof.
  induction runs as [|[ref r] rest IH]; intros k.
  - cbn. split; [by intros ?%elem_of_nil|by intros (? & ?%elem_of_nil & _)].
  - cbn [points_from fmap list_fmap p_offset snd].
    rewrite !elem_of_cons, IH. split.
    + intros [->|[->|(x & Hx & Ho)]].
      * exists r. split; [by left|by left].
      * exists r. split; [by left|by right].
      * exists x. split; [by right|done].
    + intros (x & Hx & Ho). apply elem_of_cons in Hx as [->|Hx].
      * destruct Ho; auto.
      * right; right. by exists x.
Qed.

Lemma flattenRegularRuns_covers (runs : list RunRef) (i : Z) :
  Forall (fun r => (0 <= start r.2 < end_ r.2)%Z) runs ->
  (exists r, r ∈ flattenRegularRuns runs /\ inRun i r)
  <-> exists a b, a ∈ runs.*2 /\ b ∈ runs.*2 /\ (start a <= i < end_ b)%Z.
Proof.
  intros Hruns. unfold flattenRegularRuns, generatePoints.
  assert (Hsorted : StronglySorted (fun a b => (p_offset a <= p_offset b)%Z)
                      (js_sort sortPoints (points_from 0 runs))).
  { apply (StronglySorted_mono (notAfter sortPoints)).
    - intros a b Hab. apply notAfter_sortPoints in Hab. lia.
    - apply Sorted_StronglySorted; [apply _|].
      apply js_sort_Sorted, sortPoints_total. }
  assert (Hoffs : forall o,
             o ∈ p_offset <$> js_sort sortPoints (points_from 0 runs)
             <-> exists r, r ∈ runs.*2 /\ (o = start r \/ o = end_ r)).
  { intros o. rewrite <- (points_from_offsets runs o 0).
    by rewrite (js_sort_perm sortPoints (points_from 0 runs)). }
  assert (Hr : forall r, r ∈ runs.*2 -> (0 <= start r < end_ r)%Z).
  { intros r Hin. apply list_elem_of_fmap in Hin as (x & -> & Hx).
    by eapply Forall_forall in Hruns. }
  destruct (js_sort sortPoints (points_from 0 runs)) as [|p1 points] eqn:E.
  - cbn. split; [by intros (? & ?%elem_of_nil & _)|].
    intros (a & _ & Ha & _ & _). exfalso.
    assert (H : start a ∈ p_offset <$> @nil Point)
      by (apply Hoffs; exists a; auto).
    by apply elem_of_nil in H.
  - cbn [fold_left]. apply StronglySorted_inv in Hsorted as [Hrest Hhd].
    destruct (flattenPoint_res (mkFlattenState (-1) ∅ [] []) p1) as [Hs Hres].
    cbn [fs_start fs_res negb andb Z.eqb] in Hres.
    assert (Hp1 : (0 <= p_offset p1)%Z).
    { destruct (proj1 (Hoffs (p_offset p1))) as (r & Hin & Ho);
        [cbn; by left|]. specialize (Hr r Hin). lia. }
    rewrite flattenLoop_covers; [|by rewrite Hs|done|by rewrite Hs].
    rewrite Hs, Hres. clear Hs Hres.
    set (L := default (p_offset p1) (last (p_offset <$> points))).
    assert (HL : L ∈ p_offset <$> p1 :: points).
    { unfold L. destruct (last (p_offset <$> points)) as [x|] eqn:El;
        cbn [from_option id]; [|by left].
      right. by apply last_Some_elem_of. }
    assert (Hmax : forall o, o ∈ p_offset <$> p1 :: points ->
                             (p_offset p1 <= o <= L)%Z).
    { intros o Ho. cbn [fmap list_fmap] in Ho.
      apply elem_of_cons in Ho as [->|Ho].
      - split; [lia|]. unfold L.
        destruct (last (p_offset <$> points)) as [x|] eqn:El;
          cbn [from_option id]; [|lia].
        apply last_Some_elem_of, list_elem_of_fmap in El as (q & -> & Hq).
        by eapply Forall_forall in Hhd.
      - split.
        + apply list_elem_of_fmap in Ho as (q & -> & Hq).
          by eapply Forall_forall in Hhd.
        + unfold L. clear -Ho Hrest.
          induction Hrest as [|q qs Hqs IH Hq];
            [by apply elem_of_nil in Ho|].
          cbn [fmap list_fmap] in *.
          apply elem_of_cons in Ho as [->|Ho].
          * destruct (p_offset <$> qs) as [|y ys] eqn:Eq; [cbn; lia|].
            rewrite last_cons.
            destruct (last (y :: ys)) as [x|] eqn:El; cbn [from_option id]; [|lia].
            rewrite <- Eq in El.
            apply last_Some_elem_of, list_elem_of_fmap in El as (z & -> & Hz).
            by eapply Forall_forall in Hq.
          * specialize (IH Ho).
            destruct (p_offset <$> qs) as [|y ys] eqn:Eq;
              [by apply elem_of_nil in Ho|].
            rewrite last_cons.
            destruct (last (y :: ys)) as [x|] eqn:El; [done|].
            by apply last_None in El. }
    split.
    + intros [(r & Hin & _)|Hi]; [by apply elem_of_nil in Hin|].
      destruct (proj1 (Hoffs (p_offset p1))) as (a & Ha & Hoa);
        [cbn; by left|].
      destruct (proj1 (Hoffs L) HL) as (b & Hb & Hob).
      pose proof (Hr a Ha). pose proof (Hr b Hb).
      exists a, b. split; [done|]. split; [done|]. lia.
    + intros (a & b & Ha & Hb & Hi). right.
      assert (H1 : start a ∈ p_offset <$> p1 :: points)
        by (apply Hoffs; exists a; auto).
      assert (H2 : end_ b ∈ p_offset <$> p1 :: points)
        by (apply Hoffs; exists b; auto).
      apply Hmax in H1, H2. lia.
Qed.

(** X20: [flatten] covers all that lies between its runs: for runs that
    start at or after 0 and do not end before they start, an offset lies in
    a run of the result exactly when it lies between the start of a run that
    is not empty and the end of one (the space between two runs is covered
    as well). *)
Theorem flatten_covers (runs : list RunRef) (i : Z) :
  Forall (fun r => (0 <= start r.2 <= end_ r.2)%Z) runs ->
  (exists r, r ∈ flatten runs /\ inRun i r)
  <-> exists a b,
        a ∈ runs.*2 /\ b ∈ runs.*2
        /\ (start a < end_ a)%Z /\ (start b < end_ b)%Z
        /\ (start a <= i < end_ b)%Z.
Proof.
  intros Hruns.
  set (regular := List.filter (fun r => negb (isEmpty r.2)) runs).
  assert (Hreg : forall r, r ∈ regular.*2
                           <-> r ∈ runs.*2 /\ (start r < end_ r)%Z).
  { intros r. unfold regular.
    rewrite (filter_snd (fun r => negb (isEmpty r))).
    rewrite list_elem_of_In, filter_In, <- list_elem_of_In.
    unfold isEmpty. split.
    - intros [Hin He]. split; [done|].
      apply list_elem_of_fmap in Hin as (x & -> & Hx).
      eapply Forall_forall in Hruns; [|exact Hx]. cbn in Hruns.
      apply negb_true_iff, Z.eqb_neq in He. lia.
    - intros [Hin Hlt]. split; [done|]. apply negb_true_iff, Z.eqb_neq. lia. }
  assert (Hall : Forall (fun r => (0 <= start r.2 < end_ r.2)%Z) regular).
  { apply Forall_forall. intros x Hx.
    assert (Hx' : x.2 ∈ regular.*2) by (apply list_elem_of_fmap; eauto).
    apply Hreg in Hx' as [Hin Hlt].
    apply list_elem_of_fmap in Hin as (y & Hy & Hin).
    eapply Forall_forall in Hruns; [|exact Hin]. rewrite <- Hy in Hruns. lia. }
  transitivity (exists r, r ∈ flattenRegularRuns regular /\ inRun i r).
  - unfold regular. rewrite <- flatten_regular. split.
    + intros (r & Hin & Hi). exists r. split; [|done].
      apply list_elem_of_In, filter_In. split; [by apply list_elem_of_In|].
      unfold isEmpty, inRun in *. apply negb_true_iff, Z.eqb_neq. lia.
    + intros (r & Hin & Hi). exists r. split; [|done].
      apply list_elem_of_In, filter_In in Hin as [Hin _].
      by apply list_elem_of_In.
  - rewrite (flattenRegularRuns_covers regular i Hall). split.
    + intros (a & b & Ha & Hb & Hi). apply Hreg in Ha as [Ha Hla].
      apply Hreg in Hb as [Hb Hlb]. by exists a, b.
    + intros (a & b & Ha & Hb & Hla & Hlb & Hi). exists a, b.
      split; [by apply Hreg|]. split; [by apply Hreg|done].
Qed.

Lemma flatten_covers_witness :
  exists r, r ∈ flatten overlapping /\ inRun 17 r.
Proof.
  apply (flatten_covers overlapping 17).
  - repeat constructor; cbn; lia.
  - exists (mkRun 0 10 redAttrs None None None),
      (mkRun 20 25 redAttrs None None None).
    split; [by left|]. split; [by do 4 right; left|]. cbn. lia.
Defined.

(** ** A paragraph that fits one line *)

Lemma getNextBreakpoint_from_fits (rest : list Node) (lineLength : option Q) :
  forall i position minimumBadness sum,
    (forall k, (k <= length rest)%nat ->
       let t :=
         fold_left
           (fun sum node =>
              match node with
              | Box w _ _ _ =>
                  mkTotals (t_width sum + w) (t_stretch sum) (t_shrink sum)
              | Glue w _ _ st sh =>
                  mkTotals (t_width sum + w) (t_stretch sum + st)
                    (t_shrink sum + sh)
              | Penalty _ _ _ => sum
              end)
           (take k rest) sum in
       gt_opt (t_width t - t_shrink t) lineLength = false) ->
    getNextBreakpoint_from rest i lineLength position minimumBadness sum = None.
Proof.
  induction rest as [|node tail IH]; intros i position minimumBadness sum Hfit.
  - cbn [getNextBreakpoint_from]. specialize (Hfit 0%nat (Nat.le_refl _)).
    cbn in Hfit. by rewrite Hfit.
  - cbn [getNextBreakpoint_from].
    pose proof (Hfit 1%nat ltac:(cbn; lia)) as H1. cbn zeta in H1.
    rewrite firstn_cons, take_0 in H1. cbn [fold_left] in H1.
    assert (Htail : forall sum' : Totals,
               sum' = match node with
                      | Box w _ _ _ =>
                          mkTotals (t_width sum + w) (t_stretch sum)
                            (t_shrink sum)
                      | Glue w _ _ st sh =>
                          mkTotals (t_width sum + w) (t_stretch sum + st)
                            (t_shrink sum + sh)
                      | Penalty _ _ _ => sum
                      end ->
               forall i' position' minimumBadness',
                 getNextBreakpoint_from tail i' lineLength position'
                   minimumBadness' sum' = None).
    { intros sum' -> i' position' minimumBadness'. apply IH.
      intros k Hk. apply (Hfit (S k)). cbn [length]. lia. }
    rewrite H1. destruct node as [w s e h|w s e st sh|w p f].
    + by apply Htail.
    + destruct (match minimumBadness with
                | Some m => _
                | None => true
                end); by apply Htail.
    + destruct (match minimumBadness with
                | Some m => _
                | None => true
                end); by apply Htail.
Qed.

(** X21: the greedy pass breaks nothing that fits: when the nodes of the
    paragraph, shrunk in full, stay within the length of the first line at
    every node, [applyBestFit] returns the break 0 alone. *)
Theorem applyBestFit_fits (nodes : list Node) (widths : list Q) (lineLength : Q) :
  lineLengthAt widths 0 = Some lineLength ->
  fitsLine nodes lineLength ->
  applyBestFit nodes widths = Some [0%nat].
Proof.
  intros Hlen Hfit. unfold applyBestFit.
  destruct nodes as [|node rest] eqn:E; [done|]. rewrite <- E in *.
  assert (Hfuel : length nodes = S (length rest)) by (by rewrite E).
  rewrite Hfuel. cbn [applyBestFit_loop]. rewrite E at 1.
  unfold getNextBreakpoint. rewrite Hlen.
  rewrite getNextBreakpoint_from_fits; [done|].
  intros k Hk. cbn zeta. unfold gt_opt.
  specialize (Hfit k Hk). unfold measure in Hfit.
  destruct (Qltb _ _) eqn:El; [|done]. apply Qltb_lt in El. lra.
Qed.

Lemma applyBestFit_fits_witness :
  applyBestFit looseNodes [50] = Some [0%nat].
Proof.
  apply (applyBestFit_fits looseNodes [50] 50); [reflexivity|].
  intros k Hk. do 8 (destruct k as [|k]; [by vm_compute|]).
  cbn in Hk. lia.
Defined.

(** ** The last break of the paragraph *)

Lemma newActiveNodes_from_position candidates c index tmpSum :
  Forall (fun b => position b = index)
    (newActiveNodes_from candidates c index tmpSum).
Proof.
  revert c. induction candidates as [|[[a d]|] rest IH]; intros c; cbn; auto.
Qed.

Lemma mainLoop_from_forced nodes lineLengths tolerance sum node index actives
    candidates :
  isForcedBreak node = true ->
  Forall (fun b => position b = index)
    (mainLoop_from nodes lineLengths tolerance sum node index actives
       candidates).
Proof.
  intros Hforced. revert candidates.
  induction actives as [|active rest IH]; intros candidates; [done|].
  cbn [mainLoop_from]. rewrite Hforced, orb_true_r. cbn [app].
  destruct rest as [|next rest'].
  - apply newActiveNodes_from_position.
  - destruct (_ <=? _)%nat; [|apply IH].
    apply Forall_app. split; [apply newActiveNodes_from_position|apply IH].
Qed.

Lemma linebreak_from_app nodes lineLengths tolerance (l1 l2 : list Node) :
  forall index previousIsBox sum actives,
  exists previousIsBox' sum' actives',
    linebreak_from nodes lineLengths tolerance (l1 ++ l2) index previousIsBox
      sum actives
    = linebreak_from nodes lineLengths tolerance l2 (index + length l1)
        previousIsBox' sum' actives'.
Proof.
  induction l1 as [|node l1 IH]; intros index previousIsBox sum actives.
  - exists previousIsBox, sum, actives. cbn. by rewrite Nat.add_0_r.
  - cbn [app linebreak_from length].
    replace (index + S (length l1))%nat with (S index + length l1)%nat by lia.
    destruct node; apply IH.
Qed.

(** X22: a paragraph that ends with a forced break is broken there: the
    breaks [linebreak] returns, if any, end with the index of that last
    node. *)
Theorem linebreak_ends_forced (front : list Node) (w f : Q) (widths : list Q)
    (tolerance : Q) :
  let nodes := front ++ [Penalty w (- infinity) f] in
  linebreak nodes widths tolerance = []
  \/ last (linebreak nodes widths tolerance) = Some (length front).
Proof.
  intros nodes. unfold linebreak, findBestBreakpoints.
  destruct (bestActive _) as [b|] eqn:Hb; [|by left]. right.
  apply bestActive_elem in Hb. unfold activeNodesOf in Hb.
  unfold nodes at 2 in Hb.
  destruct (linebreak_from_app nodes widths (num_or (Some tolerance) 3) front
              [Penalty w (- infinity) f] 0%nat false (mkTotals 0 0 0)
              [mkBreakpoint 0 0 0 0 (mkTotals 0 0 0) None])
    as (pb & sum & actives & Heq).
  rewrite Heq in Hb. cbn [linebreak_from] in Hb.
  change (negb (Qeq_bool (- infinity) infinity)) with true in Hb.
  cbv beta iota in Hb.
  pose proof (mainLoop_from_forced nodes widths (num_or (Some tolerance) 3) sum
                (Penalty w (- infinity) f) (0 + length front) actives
                noCandidates eq_refl) as Hall.
  rewrite Forall_forall in Hall. specialize (Hall b Hb).
  rewrite rev_alt. change (rev_append ?l []) with (reverse l).
  rewrite last_reverse. destruct b; cbn in *. by rewrite Hall.
Qed.

(** ** Paragraphs *)

Lemma indexOf_spec (s : jsstring) (position : Z) :
  (0 <= position <= zlength s)%Z ->
  (indexOf NEWLINE s position = (-1)%Z
   /\ Forall (fun c => c <> NEWLINE) (drop (Z.to_nat position) s))
  \/ exists q,
       indexOf NEWLINE s position = q
       /\ (position <= q < zlength s)%Z
       /\ s !! Z.to_nat q = Some NEWLINE
       /\ Forall (fun c => c <> NEWLINE)
            (take (Z.to_nat q - Z.to_nat position) (drop (Z.to_nat position) s)).
Proof.
  intros Hp. unfold indexOf. rewrite Z.max_l by lia.
  assert (Hne : forall l : jsstring,
             Forall (fun x => (x =? NEWLINE)%N = false) l ->
             Forall (fun c => c <> NEWLINE) l).
  { intros l Hl. eapply Forall_impl; [exact Hl|].
    intros c Hc. by apply N.eqb_neq. }
  destruct (findIndex_from_spec (fun d => (d =? NEWLINE)%N)
              (drop (Z.to_nat position) s) position)
    as [[-> Hall]|(k & x & -> & Hk & Hx & Hall)].
  - left. split; [done|]. by apply Hne.
  - right. eexists. split; [done|]. apply N.eqb_eq in Hx. subst x.
    rewrite lookup_drop in Hk.
    pose proof (lookup_lt_Some _ _ _ Hk) as Hlt. unfold zlength.
    split; [lia|].
    replace (Z.to_nat (position + Z.of_nat k)) with (Z.to_nat position + k)%nat
      by lia.
    split; [done|].
    replace (Z.to_nat position + k - Z.to_nat position)%nat with k by lia.
    by apply Hne.
Qed.

Lemma oneParagraph_line (l : jsstring) :
  Forall (fun c => c <> NEWLINE) l -> oneParagraph (l ++ [NEWLINE]).
Proof. intros H. unfold oneParagraph. by rewrite removelast_last. Qed.

Lemma oneParagraph_plain (l : jsstring) :
  Forall (fun c => c <> NEWLINE) l -> oneParagraph l.
Proof.
  intros H. unfold oneParagraph. induction H as [|c l Hc Hl IH]; [done|].
  destruct l as [|d l']; [constructor|].
  change (removelast (c :: d :: l')) with (c :: removelast (d :: l')).
  by constructor.
Qed.

Lemma take_js_slice {A : Type} (b : Z) (l : list A) :
  (0 <= b <= zlength l)%Z -> take (Z.to_nat b) l = js_slice 0 (Fin b) l.
Proof.
  intros Hb. rewrite js_slice_range by lia.
  change (Z.to_nat 0) with 0%nat. by rewrite Nat.sub_0_r, drop_0.
Qed.

Lemma splitParagraphs_loop_spec (a : AttributedString) (fuel : nat) :
  forall start paragraphs,
    (0 <= start <= zlength (string_ a))%Z ->
    (Z.to_nat (zlength (string_ a) - start) < fuel)%nat ->
    concat (map string_ paragraphs) = take (Z.to_nat start) (string_ a) ->
    Forall (fun p => oneParagraph (string_ p)) paragraphs ->
    (start = 0%Z <-> paragraphs = []) ->
    (start = 0%Z \/ string_ a !! Z.to_nat (start - 1) = Some NEWLINE) ->
    exists paragraphs' start',
      splitParagraphs_loop fuel a start
        (indexOf NEWLINE (string_ a) start + 1)%Z paragraphs
      = Some (paragraphs', start')
      /\ (0 <= start' <= zlength (string_ a))%Z
      /\ concat (map string_ paragraphs') = take (Z.to_nat start') (string_ a)
      /\ Forall (fun p => oneParagraph (string_ p)) paragraphs'
      /\ (start' = 0%Z <-> paragraphs' = [])
      /\ (start' = 0%Z \/ string_ a !! Z.to_nat (start' - 1) = Some NEWLINE)
      /\ Forall (fun c => c <> NEWLINE) (drop (Z.to_nat start') (string_ a)).
Proof.
  induction fuel as [|fuel IH];
    intros start paragraphs Hs Hfuel Hcat Hone Hnil Hprev; [lia|].
  cbn [splitParagraphs_loop].
  destruct (indexOf_spec (string_ a) start Hs)
    as [[-> Hall]|(q & -> & Hq & Hnl & Hall)].
  - cbn. exists paragraphs, start. done.
  - rewrite (proj2 (Z.ltb_lt 0 (q + 1)) ltac:(lia)).
    assert (Hstr : string_ (slice start (q + 1) a)
                   = take (Z.to_nat q - Z.to_nat start)
                       (drop (Z.to_nat start) (string_ a)) ++ [NEWLINE]).
    { rewrite slice_string, js_slice_range by lia.
      replace (Z.to_nat (q + 1) - Z.to_nat start)%nat
        with (S (Z.to_nat q - Z.to_nat start)) by lia.
      erewrite take_S_r; [done|]. rewrite lookup_drop.
      by replace (Z.to_nat start + (Z.to_nat q - Z.to_nat start))%nat
        with (Z.to_nat q) by lia. }
    apply IH.
    + lia.
    + lia.
    + rewrite map_app, concat_app, Hcat. cbn [map concat].
      rewrite app_nil_r, slice_string.
      rewrite !take_js_slice by lia. apply js_slice_app; lia.
    + apply Forall_app. split; [done|]. constructor; [|done].
      rewrite Hstr. by apply oneParagraph_line.
    + split; [lia|]. intros H. by apply app_eq_nil in H as [_ ?].
    + right. by replace (q + 1 - 1)%Z with q by lia.
Qed.

(** X23: [splitParagraphs] returns, and returns at least one paragraph;
    no paragraph has a line feed but at its end; a string without line
    feed is one paragraph, the attributed string itself; and the
    paragraphs make the string again when the runs reach the end of the
    string (the last paragraph is cut at the length of the runs, not of
    the string) or when the string ends with a line feed. *)
Theorem splitParagraphs_strings (a : AttributedString) :
  exists paragraphs,
    splitParagraphs a = Some paragraphs
    /\ paragraphs <> []
    /\ Forall (fun p => oneParagraph (string_ p)) paragraphs
    /\ (Forall (fun c => c <> NEWLINE) (string_ a) -> paragraphs = [a])
    /\ ((zlength (string_ a) <= length1 a)%Z
        \/ last (string_ a) = Some NEWLINE ->
        concat (map string_ paragraphs) = string_ a).
Proof.
  unfold splitParagraphs.
  destruct (splitParagraphs_loop_spec a (S (length (string_ a))) 0 [])
    as (ps & start & -> & Hs & Hcat & Hone & Hnil & Hprev & Hrest);
    [unfold zlength; lia|unfold zlength; lia|done|done|done|by left|].
  destruct (Z.eqb_spec start 0) as [->|Hne].
  - (* no line feed at all *)
    rewrite (proj1 Hnil eq_refl). cbn [app]. eexists. split; [done|].
    split; [done|]. split; [|split; [done|]].
    + constructor; [|done]. apply oneParagraph_plain. exact Hrest.
    + intros _. cbn. by rewrite app_nil_r.
  - assert (Hps : ps <> []) by (intros H; apply Hnil in H; lia).
    assert (Hsome : Forall (fun c => c <> NEWLINE) (string_ a) -> False).
    { intros Hall. destruct Hprev as [?|Hprev]; [done|].
      apply list_elem_of_lookup_2 in Hprev.
      by eapply Forall_forall in Hall; [|exact Hprev]. }
    destruct (Z.ltb_spec start (zlength (string_ a))) as [Hlt|Hge].
    + eexists. split; [done|]. split; [by intros [? _]%app_eq_nil|].
      split; [|split; [by intros ?%Hsome|]].
      * apply Forall_app. split; [done|]. constructor; [|done].
        apply oneParagraph_plain. rewrite slice_string.
        eapply Forall_forall. intros c Hc.
        assert (Hin : c ∈ drop (Z.to_nat start) (string_ a)).
        { unfold js_slice, rel_index in Hc.
          rewrite (proj2 (Z.ltb_ge start 0)) in Hc by lia.
          fold (zlength (string_ a)) in Hc.
          rewrite (Z.min_l start) in Hc by lia.
          apply elem_of_take in Hc as (i & Hc & _).
          by apply list_elem_of_lookup_2 in Hc. }
        by eapply Forall_forall in Hrest.
      * intros [Hlen|Hlast].
        -- rewrite map_app, concat_app, Hcat. cbn [map concat].
           rewrite app_nil_r, slice_string.
           rewrite (js_slice_clamp start (length1 a)) by lia.
           rewrite (Z.min_l start), (Z.min_r (length1 a)) by lia.
           rewrite js_slice_range by lia.
           unfold zlength. rewrite Nat2Z.id.
           rewrite (take_ge (drop _ _)) by (rewrite length_drop; lia).
           apply take_drop.
        -- exfalso.
           assert (Hin : NEWLINE ∈ drop (Z.to_nat start) (string_ a)).
           { rewrite <- (take_drop (Z.to_nat start) (string_ a)) in Hlast.
             destruct (drop (Z.to_nat start) (string_ a)) as [|c l] eqn:E.
             - apply (f_equal length) in E. rewrite length_drop in E.
               unfold zlength in Hlt. cbn in E. lia.
             - rewrite last_app in Hlast.
               destruct (last (c :: l)) as [x|] eqn:El;
                 [|by apply last_None in El].
               injection Hlast as ->. by apply last_Some_elem_of. }
           eapply Forall_forall in Hrest; [|exact Hin]. done.
    + eexists. split; [done|]. split; [done|]. split; [done|].
      split; [by intros ?%Hsome|].
      intros _. rewrite Hcat. apply take_ge. unfold zlength in *. lia.
Qed.

(** ** White space at the start of a line *)

(** X25: [leadingPositions] returns the positions before the first glyph
    that is not white space; for a run of white space only it returns
    all the positions but the last one (the index -1 of [findIndex]
    given to [slice]), not all of them. *)
Theorem leadingPositions_spec (run : Run) :
  let gs := or_nil (glyphs run) in
  let ps := or_nil (positions run) in
  (forall k g,
      gs !! k = Some g -> isWhiteSpace g = false ->
      Forall (fun g => isWhiteSpace g = true) (take k gs) ->
      leadingPositions run = take k ps)
  /\ (Forall (fun g => isWhiteSpace g = true) gs ->
      leadingPositions run = take (length ps - 1) ps).
Proof.
  cbn zeta. unfold leadingPositions, findIndex.
  set (gs := or_nil (glyphs run)). set (ps := or_nil (positions run)).
  destruct (findIndex_from_spec (fun g => negb (isWhiteSpace g)) gs 0)
    as [[Hm Hall]|(k' & g' & Hi & Hk' & Hg' & Hall')].
  - (* white space only *)
    split.
    + intros k g Hk Hg _. exfalso.
      apply list_elem_of_lookup_2 in Hk.
      eapply Forall_forall in Hall; [|exact Hk]. cbn beta in Hall.
      rewrite Hg in Hall. discriminate.
    + intros _. rewrite Hm. unfold js_slice, rel_index.
      change (0 <? 0)%Z with false. change (-1 <? 0)%Z with true.
      cbv beta iota. rewrite Z.min_l by lia. change (Z.to_nat 0) with 0%nat.
      rewrite drop_0. f_equal. lia.
  - split.
    + intros k g Hk Hg Hall. rewrite Hi.
      assert (k' = k) as ->.
      { destruct (Nat.lt_trichotomy k' k) as [Hlt|[Heq|Hgt]]; [|done|].
        - exfalso.
          assert (Hin : g' ∈ take k gs).
          { apply (list_elem_of_lookup_2 _ k'). rewrite lookup_take_lt by lia.
            exact Hk'. }
          eapply Forall_forall in Hall; [|exact Hin]. cbn beta in Hall.
          rewrite Hall in Hg'. discriminate.
        - exfalso.
          assert (Hin : g ∈ take k' gs).
          { apply (list_elem_of_lookup_2 _ k). rewrite lookup_take_lt by lia.
            exact Hk. }
          eapply Forall_forall in Hall'; [|exact Hin]. cbn beta in Hall'.
          rewrite Hg in Hall'. discriminate. }
      rewrite (js_slice_clamp 0 (0 + Z.of_nat k)) by lia.
      rewrite js_slice_range by (unfold zlength; lia).
      rewrite (Z.min_l 0) by (unfold zlength; lia).
      change (Z.to_nat 0) with 0%nat. rewrite drop_0, Nat.sub_0_r.
      unfold zlength.
      destruct (Nat.le_gt_cases k (length ps)) as [Hle|Hgt].
      * f_equal. lia.
      * rewrite !take_ge by lia. done.
    + intros Hall. exfalso.
      apply list_elem_of_lookup_2 in Hk'.
      eapply Forall_forall in Hall; [|exact Hk']. cbn beta in Hall.
      rewrite Hall in Hg'. discriminate.
Qed.

End TextkitSpec.
